(** * Dead code elimination over SIL: a model of
      lib/SIL/Passes/DeadCodeElimination.cpp

    The pass works on a mutable graph: instructions hold operands, each
    operand is registered in the use-list of the value it reads, and
    instructions are chained into basic blocks.  The model keeps that graph
    as an explicit store which every function of the pass threads through. *)

From Stdlib Require Import ZArith Lia.
From stdpp Require Import base option list sets relations.

(** ** The SIL graph *)

(** Modelled from the spec: the SIL data structures (SILValue, Operand,
    SILInstruction, SILBasicBlock, SILFunction, SILModule) are declared in
    headers that are not part of the sources at hand.  Instructions and
    blocks are addressed by stable handles; a value is either the result of
    an instruction or an argument of a block. *)
Inductive Value :=
| InstValue (i : nat)
| ArgValue (b : nat) (n : nat).

Global Instance Value_eq_dec : EqDecision Value.
Proof. solve_decision. Defined.

(** Modelled from the spec: Operand (header not at hand).  An operand is a
    slot of its user: the pair of the using instruction and the position of
    the slot. *)
Definition Operand : Type := nat * nat.

(** Modelled from the spec: llvm::APInt (not at hand), the value of an
    integer literal: [BitWidth] bits, kept reduced modulo [2 ^ BitWidth],
    so that a single-bit value is 0 or 1. *)
Record APInt := mkAPInt { BitWidth : N; VAL : Z }.

Definition APInt_of (numBits : N) (val : Z) : APInt :=
  {| BitWidth := numBits; VAL := val mod 2 ^ Z.of_N numBits |}.

(** Modelled from the spec: the type query on a callee (not at hand).  The
    Swift type of a callee, as far as [getAs<FunctionType>] can tell: a
    function type with its no-return attribute, or something else. *)
Inductive CanType :=
| FunctionType (NoReturn : bool)
| PolymorphicFunctionType
| OtherType.

Definition getAs_FunctionType (ty : CanType) : option bool :=
  match ty with
  | FunctionType nr => Some nr
  | _ => None
  end.

(** Modelled from the spec: the instruction classes (not at hand).  The
    pass looks at integer literals, calls, branches and the unreachable
    marker; every other instruction is either some other terminator with
    its successors or an ordinary instruction.  The operands of a
    conditional branch are the condition, the true arguments, the false
    arguments, in this order. *)
Inductive ValueKind :=
| IntegerLiteralInst (value : APInt)
| ApplyInst (calleeTy : CanType)
| CondBranchInst (TrueBB FalseBB : nat) (NumTrueArgs : nat)
| BranchInst (DestBB : nat)
| UnreachableInst
| OtherTermInst (succs : list nat)
| OtherInst.

(** Modelled from the spec: SILInstruction (not at hand): its class, its
    side-effect flag ([mayHaveSideEffects]) and its operands; a dropped
    operand is [None]. *)
Record SILInstruction := mkInst {
  Kind : ValueKind;
  SideEffects : bool;
  Operands : list (option Value)
}.

(** Modelled from the spec: SILModule with its functions, blocks,
    instructions and use-lists (not at hand), as one store.  [Insts] is the
    arena of instructions (a handle is an index), [Uses] the use-list of
    every value, [InstList] the instruction sequence of every block,
    [Functions] the block sequence of every function, [Erased] the
    instructions that have been destroyed: their handles dangle.  The two
    statistics of the pass are part of the store. *)
Record SILModule := mkModule {
  Insts : list SILInstruction;
  Uses : Value → list Operand;
  InstList : nat → list nat;
  Functions : list (list nat);
  NumBlocksRemoved : nat;
  NumInstructionsRemoved : nat;
  Erased : list nat
}.

(** Modelled from the spec: [isa<TermInst>]. *)
Definition isa_TermInst (k : ValueKind) : bool :=
  match k with
  | CondBranchInst _ _ _ | BranchInst _ | UnreachableInst | OtherTermInst _ => true
  | _ => false
  end.

(** Modelled from the spec: [TermInst::getSuccessors]. *)
Definition getSuccessors (k : ValueKind) : list nat :=
  match k with
  | CondBranchInst t f _ => [t; f]
  | BranchInst d => [d]
  | OtherTermInst l => l
  | _ => []
  end.

(** Modelled from the spec: [SILInstruction::getAllOperands]. *)
Definition getAllOperands (I : nat) (st : SILModule) : list (option Value) :=
  from_option Operands [] (Insts st !! I).

(** Modelled from the spec: [ValueBase::use_empty]. *)
Definition use_empty (I : nat) (st : SILModule) : bool :=
  match Uses st (InstValue I) with
  | [] => true
  | _ => false
  end.

Definition set_operands (I : nat) (ops : list (option Value)) (l : list SILInstruction) :=
  match l !! I with
  | Some ins => <[I := mkInst (Kind ins) (SideEffects ins) ops]> l
  | None => l
  end.

(** Modelled from the spec: [Operand::drop] (not at hand): take the operand
    out of the use-list of the value it reads and null it. *)
Definition Operand_drop (I k : nat) (st : SILModule) : SILModule :=
  match getAllOperands I st !! k with
  | Some (Some v) =>
      {| Insts := set_operands I (<[k := None]> (getAllOperands I st)) (Insts st);
         Uses := λ v', if decide (v' = v)
                       then filter (λ o, o ≠ (I, k)) (Uses st v)
                       else Uses st v';
         InstList := InstList st;
         Functions := Functions st;
         NumBlocksRemoved := NumBlocksRemoved st;
         NumInstructionsRemoved := NumInstructionsRemoved st;
         Erased := Erased st |}
  | _ => st
  end.

(** Modelled from the spec: [SILInstruction::dropAllReferences] (not at
    hand): drop every operand of the instruction. *)
Definition dropAllReferences (I : nat) (st : SILModule) : SILModule :=
  foldl (λ s k, Operand_drop I k s) st (seq 0 (length (getAllOperands I st))).

(** Modelled from the spec: the constructor of Operand (not at hand), which
    registers the operands of a freshly built instruction. *)
Fixpoint register_uses (I k : nat) (args : list (option Value))
    (uses : Value → list Operand) : Value → list Operand :=
  match args with
  | [] => uses
  | a :: args =>
      let uses' :=
        match a with
        | Some v => λ v', if decide (v' = v) then (I, k) :: uses v else uses v'
        | None => uses
        end in
      register_uses I (S k) args uses'
  end.

(** Modelled from the spec: SILBuilder (not at hand).  What a builder
    positioned at the end of block [BB] does when it creates an
    instruction: allocate it, register its operands, append it
    to the block.  The handle of the new instruction is returned. *)
Definition SILBuilder_insert (BB : nat) (k : ValueKind) (args : list (option Value))
    (st : SILModule) : nat * SILModule :=
  let I := length (Insts st) in
  (I, {| Insts := Insts st ++ [mkInst k true args];
         Uses := register_uses I 0 args (Uses st);
         InstList := λ b, if decide (b = BB) then InstList st b ++ [I] else InstList st b;
         Functions := Functions st;
         NumBlocksRemoved := NumBlocksRemoved st;
         NumInstructionsRemoved := NumInstructionsRemoved st;
         Erased := Erased st |}).

Definition createBranch (BB Dest : nat) (args : list (option Value)) :=
  SILBuilder_insert BB (BranchInst Dest) args.

Definition createUnreachable (BB : nat) :=
  SILBuilder_insert BB UnreachableInst [].

(** Modelled from the spec: llvm::DenseSet of instruction pointers (not at
    hand): no duplicates, membership, and an iteration order that the
    container does not promise. *)
Definition DenseSet_insert (x : nat) (s : list nat) : list nat :=
  if decide (x ∈ s) then s else s ++ [x].

Definition DenseSet_count (x : nat) (s : list nat) : bool := bool_decide (x ∈ s).

(** The order in which a DenseSet hands out its elements is a function of
    the set that the pass cannot choose; all that is known is that every
    element comes exactly once. *)
Record DenseSetOrder := {
  iteration : list nat → list nat;
  iteration_perm : ∀ l, iteration l ≡ₚ l
}.

Definition insertion_order : DenseSetOrder :=
  {| iteration := λ l, l; iteration_perm := λ l, reflexivity l |}.

Definition reverse_order : DenseSetOrder :=
  {| iteration := reverse; iteration_perm := reverse_Permutation |}.

(** ** Computations of the pass

    A computation reads and writes the store and may stop without a
    result: a failed assertion, a terminator asked of an empty block. *)
Definition M (A : Type) : Type := SILModule → option (A * SILModule).

Definition ret {A} (a : A) : M A := λ st, Some (a, st).
Definition bind {A B} (m : M A) (k : A → M B) : M B :=
  λ st, match m st with
        | Some (a, st') => k a st'
        | None => None
        end.
Definition abort {A} : M A := λ _, None.
Definition lift (f : SILModule → SILModule) : M unit := λ st, Some (tt, f st).

Notation "'let*' p ':=' c1 'in' c2" := (bind c1 (λ p, c2))
  (at level 10, p as pattern, c1 at level 100, c2 at level 200).

Fixpoint for_each {A} (l : list A) (body : A → M unit) : M unit :=
  match l with
  | [] => ret tt
  | x :: l => let* _ := body x in for_each l body
  end.

(** Modelled from the spec: [SILBasicBlock::getTerminator] (not at hand):
    the last instruction of the block; there is none to hand out when the
    block is empty. *)
Definition getTerminator (BB : nat) : M nat :=
  λ st, match last (InstList st BB) with
        | Some TI => Some (TI, st)
        | None => None
        end.

Definition getKind (I : nat) (st : SILModule) : option ValueKind :=
  Kind <$> Insts st !! I.

(** Modelled from the spec: [SILInstruction::eraseFromParent] (not at
    hand): unlink the instruction from the block that holds it and destroy
    it.  An instruction that has been destroyed is not there to be erased
    a second time. *)
Definition eraseFromParent (I : nat) : M unit :=
  λ st, if decide (I ∈ Erased st) then None
        else Some (tt, {| Insts := Insts st;
                          Uses := Uses st;
                          InstList := λ b, filter (λ i, i ≠ I) (InstList st b);
                          Functions := Functions st;
                          NumBlocksRemoved := NumBlocksRemoved st;
                          NumInstructionsRemoved := NumInstructionsRemoved st;
                          Erased := I :: Erased st |}).

(** Modelled from the spec: reading an instruction through a pointer to
    it.  Once the instruction has been destroyed there is nothing to
    read. *)
Definition dereference (I : nat) : M unit :=
  λ st, if decide (I ∈ Erased st) then None else Some (tt, st).

(** ** The pass *)

Section Pass.

(** Whether [assert] is compiled in ([false] models a build with NDEBUG). *)
Variable assertions : bool.
Variable order : DenseSetOrder.

Definition assert (c : bool) : M unit :=
  if assertions then (if c then ret tt else abort) else ret tt.

(** Modelled from the spec: [APInt::operator==] (not at hand), which
    asserts that both sides have the same width. *)
Definition APInt_eq (a b : APInt) : M bool :=
  let* _ := assert (bool_decide (BitWidth a = BitWidth b)) in
  ret (bool_decide (VAL a = VAL b)).

(** Lines 25-33.  A handle that names no allocated instruction is not an
    instruction to delete. *)
Definition isInstructionTriviallyDead (I : nat) (st : SILModule) : bool :=
  match Insts st !! I with
  | None => false
  | Some ins =>
      if negb (use_empty I st) || isa_TermInst (Kind ins) then false
      else if negb (SideEffects ins) then true
      else false
  end.

(** Lines 52-65: the walk over the operands of the instruction being
    deleted.  [DeadInsts] is the worklist, its head the back of the
    vector.  An operand that has been nulled, or that reads a block
    argument, names no instruction to look at. *)
Fixpoint scan_operands (I : nat) (ks : list nat) (DeadInsts : list nat)
    (st : SILModule) : list nat * SILModule :=
  match ks with
  | [] => (DeadInsts, st)
  | k :: ks =>
      let OpVal := getAllOperands I st !! k in
      let st1 := Operand_drop I k st in
      let DeadInsts1 :=
        match OpVal with
        | Some (Some (InstValue OpValInst)) =>
            if isInstructionTriviallyDead OpValInst st1
            then OpValInst :: DeadInsts else DeadInsts
        | _ => DeadInsts
        end in
      scan_operands I ks DeadInsts1 st1
  end.

(** Lines 47-69: the do-while loop, one instruction popped per round. *)
Fixpoint delete_loop (fuel : nat) (DeadInsts : list nat) (st : SILModule)
    : option SILModule :=
  match DeadInsts with
  | [] => Some st
  | J :: DeadInsts =>
      match fuel with
      | 0 => None
      | S fuel =>
          let '(DeadInsts1, st1) :=
            scan_operands J (seq 0 (length (getAllOperands J st))) DeadInsts st in
          match eraseFromParent J st1 with
          | Some (_, st2) => delete_loop fuel DeadInsts1 st2
          | None => None
          end
      end
  end.

(** The number of operands in the arena that still read a value: every
    round of the loop above nulls at least as many as it pushes. *)
Definition live_operands (st : SILModule) : nat :=
  length (filter (λ o : option Value, is_Some o) (concat (Operands <$> Insts st))).

(** Lines 39-72.  The callers of this file never pass a null instruction;
    the test of line 41 reads the instruction it is handed.  The loop is
    run with as much fuel as its measure asks for: more fuel never changes
    its outcome ([delete_loop_fuel] below). *)
Definition recursivelyDeleteTriviallyDeadInstructions (I : nat) : M bool :=
  let* _ := dereference I in
  λ st,
    if negb (isInstructionTriviallyDead I st) then Some (false, st)
    else match delete_loop (S (live_operands st)) [I] st with
         | Some st' => Some (true, st')
         | None => None
         end.

(** Lines 83-97, for one member of the set. *)
Definition collect_possibly_dead (ToBeDeleted : list nat)
    (ops : list (option Value)) (PossiblyDead : list nat) : list nat :=
  foldl (λ pd o,
           match o with
           | Some (InstValue V) =>
               if negb (DenseSet_count V ToBeDeleted) then DenseSet_insert V pd else pd
           | _ => pd
           end) PossiblyDead ops.

Fixpoint drop_references (ToBeDeleted : list nat) (l : list nat)
    (PossiblyDead : list nat) (st : SILModule) : list nat * SILModule :=
  match l with
  | [] => (PossiblyDead, st)
  | DI :: l =>
      let PossiblyDead1 :=
        collect_possibly_dead ToBeDeleted (getAllOperands DI st) PossiblyDead in
      drop_references ToBeDeleted l PossiblyDead1 (dropAllReferences DI st)
  end.

(** Lines 100-102. *)
Fixpoint delete_possibly_dead (l : list nat) (AdditionalChanged : bool) : M bool :=
  match l with
  | [] => ret AdditionalChanged
  | V :: l =>
      let* r := recursivelyDeleteTriviallyDeadInstructions V in
      delete_possibly_dead l (AdditionalChanged && r)
  end.

(** Lines 78-111. *)
Definition eraseAndCleanup (ToBeDeleted : list nat) : M bool :=
  λ st,
    let AdditionalChanged := false in
    let '(PossiblyDead, st1) :=
      drop_references ToBeDeleted (iteration order ToBeDeleted) [] st in
    (let* AdditionalChanged :=
       delete_possibly_dead (iteration order PossiblyDead) AdditionalChanged in
     let* _ := for_each (iteration order ToBeDeleted) eraseFromParent in
     ret AdditionalChanged) st1.

(** Lines 115-119. *)
Definition eraseAndCleanup_inst (I : nat) : M bool :=
  eraseAndCleanup (DenseSet_insert I []).

(** Lines 121-155. *)
Definition constantFoldTerminator (BB : nat) : M bool :=
  let* TI := getTerminator BB in
  λ st,
    match getKind TI st with
    | Some (CondBranchInst TrueBB FalseBB NumTrueArgs) =>
        let ops := getAllOperands TI st in
        match ops !! 0 with
        | Some (Some V) =>
            let CondI := match V with InstValue c => Some c | ArgValue _ _ => None end in
            match CondI ≫= (λ c, getKind c st) with
            | Some (IntegerLiteralInst value) =>
                (let* is0 := APInt_eq value (APInt_of 1 0) in
                 let* _ :=
                   if is0 then
                     let* _ := lift (λ s, snd (createBranch BB FalseBB
                                                 (drop (S NumTrueArgs) ops) s)) in
                     ret tt
                   else
                     let* is1 := APInt_eq value (APInt_of 1 1) in
                     let* _ := assert is1 in
                     let* _ := lift (λ s, snd (createBranch BB TrueBB
                                                 (take NumTrueArgs (drop 1 ops)) s)) in
                     ret tt in
                 let* _ := eraseAndCleanup_inst TI in
                 ret true) st
            | _ => Some (false, st)
            end
        | _ => None
        end
    | _ => Some (false, st)
    end.

(** Lines 157-166. *)
Definition isCallToNoReturn (calleeTy : CanType) : M bool :=
  match getAs_FunctionType calleeTy with
  | Some NoReturn => ret NoReturn
  | None => let* _ := assert false in ret false
  end.

(** [NumInstructionsRemoved++]. *)
Definition count_removed_instruction (st : SILModule) : SILModule :=
  {| Insts := Insts st; Uses := Uses st; InstList := InstList st;
     Functions := Functions st;
     NumBlocksRemoved := NumBlocksRemoved st;
     NumInstructionsRemoved := S (NumInstructionsRemoved st);
     Erased := Erased st |}.

(** Lines 176-199: the walk over the block. *)
Fixpoint scan_block (l : list nat) (FoundNoReturnCall : bool)
    (ToBeDeleted : list nat) : M (bool * list nat) :=
  match l with
  | [] => ret (FoundNoReturnCall, ToBeDeleted)
  | CurrentInst :: l =>
      if FoundNoReturnCall then
        let* _ := lift count_removed_instruction in
        scan_block l FoundNoReturnCall (DenseSet_insert CurrentInst ToBeDeleted)
      else
        λ st,
          match getKind CurrentInst st with
          | Some (ApplyInst calleeTy) =>
              (let* nr := isCallToNoReturn calleeTy in
               scan_block l (if nr then true else FoundNoReturnCall) ToBeDeleted) st
          | _ => scan_block l FoundNoReturnCall ToBeDeleted st
          end
  end.

(** Lines 168-213. *)
Definition simplifyBlocksWithCallsToNoReturn (BB : nat) : M bool :=
  λ st,
    (let* (FoundNoReturnCall, ToBeDeleted) := scan_block (InstList st BB) false [] in
     if negb FoundNoReturnCall then ret false
     else
       let* _ := eraseAndCleanup ToBeDeleted in
       let* _ := lift (λ s, snd (createUnreachable BB s)) in
       ret true) st.

(** [succ_begin .. succ_end]: the successors of the block's terminator. *)
Definition successors (BB : nat) : M (list nat) :=
  let* TI := getTerminator BB in
  λ st, Some (from_option getSuccessors [] (getKind TI st), st).

(** Lines 227-230. *)
Fixpoint visit_successors (succs : list nat) (Reachable Worklist : list nat)
    : list nat * list nat :=
  match succs with
  | [] => (Reachable, Worklist)
  | SI :: succs =>
      if decide (SI ∈ Reachable) then visit_successors succs Reachable Worklist
      else visit_successors succs (Reachable ++ [SI]) (SI :: Worklist)
  end.

(** Lines 225-231. *)
Fixpoint reach_loop (fuel : nat) (Reachable Worklist : list nat) : M (list nat) :=
  match Worklist with
  | [] => ret Reachable
  | BB :: Worklist =>
      match fuel with
      | 0 => abort
      | S fuel =>
          let* succs := successors BB in
          let '(Reachable1, Worklist1) := visit_successors succs Reachable Worklist in
          reach_loop fuel Reachable1 Worklist1
      end
  end.

Definition set_blocks (F : nat) (blocks : list nat) (removed : nat)
    (st : SILModule) : SILModule :=
  {| Insts := Insts st; Uses := Uses st; InstList := InstList st;
     Functions := <[F := blocks]> (Functions st);
     NumBlocksRemoved := removed + NumBlocksRemoved st;
     NumInstructionsRemoved := NumInstructionsRemoved st;
     Erased := Erased st |}.

(** Line 245, for one unreachable block. *)
Definition erase_terminator (BB : nat) : M unit :=
  let* TI := getTerminator BB in
  let* _ := eraseAndCleanup_inst TI in ret tt.

(** Lines 215-266.  [F] is the position of the function in the module.
    Every block is put on the worklist once at most, so the loop needs no
    more rounds than the function has blocks when successors stay within
    the function ([reach_loop_total] below). *)
Definition removeUnreachableBlocks (F : nat) : M bool :=
  λ st,
    let blocks := default [] (Functions st !! F) in
    match blocks with
    | [] => Some (false, st)
    | front :: _ =>
        (let* Reachable := reach_loop (S (length blocks)) [front] [front] in
         let* _ := assert (bool_decide (length Reachable ≤ length blocks)) in
         if bool_decide (length Reachable = length blocks) then ret false
         else
           let dead := filter (λ BB, BB ∉ Reachable) blocks in
           let* _ := for_each dead erase_terminator in
           let* _ := (λ s,
                       let ToBeDeleted :=
                         foldl (λ set J, DenseSet_insert J set) []
                               (concat (InstList s <$> dead)) in
                       eraseAndCleanup ToBeDeleted s) in
           let* _ := lift (set_blocks F (filter (λ BB, BB ∈ Reachable) blocks)
                             (length dead)) in
           ret true) st
    end.

(** Lines 274-283, for one block. *)
Definition simplify_block (BB : nat) : M unit :=
  let* folded := constantFoldTerminator BB in
  if folded then ret tt
  else let* _ := simplifyBlocksWithCallsToNoReturn BB in ret tt.

(** Lines 273-287, for one function. *)
Definition run_on_function (F : nat) : M unit :=
  λ st,
    (let* _ := for_each (default [] (Functions st !! F)) simplify_block in
     let* _ := removeUnreachableBlocks F in
     ret tt) st.

(** Lines 272-288. *)
Definition performSILDeadCodeElimination : M unit :=
  λ st, for_each (seq 0 (length (Functions st))) run_on_function st.

End Pass.

(** ** Vocabulary of the statements *)

(** Every deletion of the pass nulls operands and unlinks instructions.
    [deletion O E st st'] says that [st'] is [st] with the operand slots
    [O] dropped and the instructions [E] unlinked, and nothing else
    touched. *)
Record deletion (O : list Operand) (E : list nat) (st st' : SILModule) : Prop := {
  del_functions : Functions st' = Functions st;
  del_blocks_removed : NumBlocksRemoved st' = NumBlocksRemoved st;
  del_insts_removed : NumInstructionsRemoved st' = NumInstructionsRemoved st;
  del_length : length (Insts st') = length (Insts st);
  del_kind : ∀ i, Kind <$> Insts st' !! i = Kind <$> Insts st !! i;
  del_side : ∀ i, SideEffects <$> Insts st' !! i = SideEffects <$> Insts st !! i;
  del_operands : ∀ i k,
    getAllOperands i st' !! k =
    (λ o, if decide ((i, k) ∈ O) then None else o) <$> getAllOperands i st !! k;
  del_uses : ∀ v,
    Uses st' v =
    filter (λ o, ¬ (o ∈ O ∧ getAllOperands o.1 st !! o.2 = Some (Some v))) (Uses st v);
  del_instlist : ∀ b, InstList st' b = filter (λ i, i ∉ E) (InstList st b)
}.

(** All operand slots of the instructions [E]. *)
Definition operand_slots (st : SILModule) (E : list nat) : list Operand :=
  E ≫= (λ i, (λ k, (i, k)) <$> seq 0 (length (getAllOperands i st))).

(** An instruction the liveness test can accept once it has no uses. *)
Definition deletable (st : SILModule) (i : nat) : Prop :=
  ∃ ins, Insts st !! i = Some ins ∧ isa_TermInst (Kind ins) = false ∧ SideEffects ins = false.

(** An instruction is in the graph when some block holds it. *)
Definition linked (st : SILModule) (i : nat) : Prop := ∃ b, i ∈ InstList st b.

(** Def-use consistency: the use-list of a value holds exactly the operands
    of the graph that read it. *)
Definition consistent (st : SILModule) : Prop :=
  ∀ v i k, (i, k) ∈ Uses st v ↔ linked st i ∧ getAllOperands i st !! k = Some (Some v).

(** The operations of the pass, as steps on the store. *)
Inductive pass_operation (assertions : bool) (order : DenseSetOrder)
    : SILModule → SILModule → Prop :=
| op_liveness st I b :
    isInstructionTriviallyDead I st = b →
    pass_operation assertions order st st
| op_delete st I r st' :
    recursivelyDeleteTriviallyDeadInstructions I st = Some (r, st') →
    pass_operation assertions order st st'
| op_erase st ToBeDeleted r st' :
    eraseAndCleanup order ToBeDeleted st = Some (r, st') →
    pass_operation assertions order st st'
| op_fold st BB r st' :
    constantFoldTerminator assertions order BB st = Some (r, st') →
    pass_operation assertions order st st'
| op_truncate st BB r st' :
    simplifyBlocksWithCallsToNoReturn assertions order BB st = Some (r, st') →
    pass_operation assertions order st st'
| op_sweep st F r st' :
    removeUnreachableBlocks assertions order F st = Some (r, st') →
    pass_operation assertions order st st'
| op_run st st' :
    performSILDeadCodeElimination assertions order st = Some (tt, st') →
    pass_operation assertions order st st'.

(** A call the truncation walks past: its callee is a function that
    returns, or its callee type is no function type and no assertion is
    there to object. *)
Definition passes_by (assertions : bool) (st : SILModule) (i : nat) : Prop :=
  ∀ ty, getKind i st = Some (ApplyInst ty) →
        getAs_FunctionType ty = Some false ∨
        (getAs_FunctionType ty = None ∧ assertions = false).

Definition no_return_call (st : SILModule) (i : nat) : Prop :=
  ∃ ty, getKind i st = Some (ApplyInst ty) ∧ getAs_FunctionType ty = Some true.

(** ** Sample graphs *)

(** The use-lists that go with an arena and the instructions in blocks. *)
Definition graph_uses (insts : list SILInstruction) (linked : list nat) (v : Value)
    : list Operand :=
  filter (λ o, from_option Operands [] (insts !! o.1) !! o.2 = Some (Some v))
         (linked ≫= (λ i, (λ k, (i, k)) <$>
                            seq 0 (length (from_option Operands [] (insts !! i))))).

Definition graph (insts : list SILInstruction) (blocks : list (list nat))
    (fns : list (list nat)) : SILModule :=
  {| Insts := insts;
     Uses := graph_uses insts (concat blocks);
     InstList := λ b, default [] (blocks !! b);
     Functions := fns;
     NumBlocksRemoved := 0;
     NumInstructionsRemoved := 0;
     Erased := [] |}.

Definition return_inst : SILInstruction := mkInst (OtherTermInst []) true [].

(** [bb0: %0 = pure; br bb1(%0)]  [bb1: return] *)
Definition branch_with_argument : SILModule :=
  graph [ mkInst OtherInst false [];
          mkInst (BranchInst 1) true [Some (InstValue 0)];
          return_inst ]
        [[0; 1]; [2]] [[0; 1]].

(** [bb0: %0 = integer_literal 1; cond_br %0, bb1, bb2]  [bb1: return]
    [bb2: return] *)
Definition constant_branch : SILModule :=
  graph [ mkInst (IntegerLiteralInst (APInt_of 1 1)) false [];
          mkInst (CondBranchInst 1 2 0) true [Some (InstValue 0)];
          return_inst; return_inst ]
        [[0; 1]; [2]; [3]] [[0; 1; 2]].

(** [bb0: apply @noreturn; return] *)
Definition no_return_entry : SILModule :=
  graph [ mkInst (ApplyInst (FunctionType true)) true []; return_inst ]
        [[0; 1]] [[0]].

(** [bb0: apply %f where the type of %f is no function type; return] *)
Definition unresolved_callee : SILModule :=
  graph [ mkInst (ApplyInst OtherType) true []; return_inst ]
        [[0; 1]] [[0]].

(** A terminator the constant folder leaves alone: no conditional branch,
    or a conditional branch whose condition is not an integer literal. *)
Definition not_foldable (st : SILModule) (TI : nat) : Prop :=
  match getKind TI st with
  | Some (CondBranchInst _ _ _) =>
      ∃ V, getAllOperands TI st !! 0 = Some (Some V) ∧
           ∀ c value, V = InstValue c → getKind c st ≠ Some (IntegerLiteralInst value)
  | _ => True
  end.

(** The successor and the arguments a conditional branch passes on when
    its condition is the literal [value]. *)
Definition taken_successor (value : APInt) (TrueBB FalseBB : nat) : nat :=
  if bool_decide (VAL value = 0%Z) then FalseBB else TrueBB.

Definition taken_arguments (value : APInt) (NumTrueArgs : nat)
    (ops : list (option Value)) : list (option Value) :=
  if bool_decide (VAL value = 0%Z) then drop (S NumTrueArgs) ops
  else take NumTrueArgs (drop 1 ops).

(** ** The control-flow graph *)

(** The successors of a block are those of its last instruction. *)
Definition block_successors (st : SILModule) (BB : nat) : list nat :=
  match last (InstList st BB) with
  | Some TI => from_option getSuccessors [] (getKind TI st)
  | None => []
  end.

(** Reachability along successor edges. *)
Definition reachable (st : SILModule) (entry : nat) : nat → Prop :=
  rtc (λ b b', b' ∈ block_successors st b) entry.

(** A block that ends in a terminator. *)
Definition terminated (st : SILModule) (BB : nat) : Prop :=
  ∃ TI k, last (InstList st BB) = Some TI ∧ getKind TI st = Some k ∧
          isa_TermInst k = true.

(** What the sweep relies on: the blocks of the function are distinct, each
    ends in a terminator, successors stay within the function, and no
    instruction sits in two blocks. *)
Record well_formed_function (st : SILModule) (blocks : list nat) : Prop := {
  wff_nodup : NoDup blocks;
  wff_terminated : ∀ b, b ∈ blocks → terminated st b;
  wff_successors : ∀ b b', b ∈ blocks → b' ∈ block_successors st b → b' ∈ blocks;
  wff_disjoint : ∀ b1 b2 i, b1 ∈ blocks → b2 ∈ blocks →
    i ∈ InstList st b1 → i ∈ InstList st b2 → b1 = b2
}.

(** [bb0: %0 = pure; return] *)
Definition unused_value : SILModule :=
  graph [ mkInst OtherInst false []; return_inst ] [[0; 1]] [[0]].

(** [no_return_entry] after the truncation of its block. *)
Definition truncated_entry : SILModule :=
  default no_return_entry
    (snd <$> simplifyBlocksWithCallsToNoReturn true insertion_order 0 no_return_entry).

(** How the statistics of two stores relate when the pass has taken the
    first to the second. *)
Definition counters_agree (st st' : SILModule) : Prop :=
  NumBlocksRemoved st ≤ NumBlocksRemoved st' ∧
  NumInstructionsRemoved st ≤ NumInstructionsRemoved st' ∧
  NumBlocksRemoved st' + length (concat (Functions st')) =
    NumBlocksRemoved st + length (concat (Functions st)).

(** ** Well-formed modules *)

(** The shape of a module the pass is handed: blocks occur once in the
    module, every block ends in a terminator whose successors belong to the
    same function, no instruction sits in two blocks, and the instructions
    in blocks are allocated.  While an operation is rewriting the blocks
    [X], these are exempt from the two conditions on terminators. *)
Record well_formed_except (X : list nat) (st : SILModule) : Prop := {
  wf_nodup : NoDup (concat (Functions st));
  wf_terminated : ∀ b, b ∈ concat (Functions st) → b ∉ X → terminated st b;
  wf_successors : ∀ blocks b b',
    blocks ∈ Functions st → b ∈ blocks → b ∉ X →
    b' ∈ block_successors st b → b' ∈ blocks;
  wf_disjoint : ∀ b1 b2 i, i ∈ InstList st b1 → i ∈ InstList st b2 → b1 = b2;
  wf_allocated : ∀ b i, i ∈ InstList st b → i < length (Insts st)
}.

Definition well_formed : SILModule → Prop := well_formed_except [].

(** A block the constant folder has nothing to do on. *)
Definition settled (st : SILModule) (b : nat) : Prop :=
  ∃ TI k, last (InstList st b) = Some TI ∧ getKind TI st = Some k ∧
          isa_TermInst k = true ∧ not_foldable st TI.

(** What an operation that rewrites the blocks [X] keeps: the kinds of the
    instructions, with only terminators being new, and the terminator of
    every other block together with its operands. *)
Definition evolves (X : list nat) (st st' : SILModule) : Prop :=
  (∀ i k, getKind i st = Some k → getKind i st' = Some k) ∧
  (∀ i k, getKind i st' = Some k → getKind i st = Some k ∨ isa_TermInst k = true) ∧
  (∀ b TI k, b ∉ X → last (InstList st b) = Some TI → getKind TI st = Some k →
             isa_TermInst k = true →
             last (InstList st' b) = Some TI ∧
             getAllOperands TI st' = getAllOperands TI st).

(** A function the pass has nothing to do on: its blocks are settled and
    can all be reached from its entry block. *)
Definition idle (st : SILModule) (F : nat) : Prop :=
  ∀ blocks, Functions st !! F = Some blocks →
    (∀ b, b ∈ blocks → settled st b) ∧
    (∀ front rest, blocks = front :: rest → ∀ b, b ∈ blocks → reachable st front b).

(** The instructions a deletion takes away do not include the terminator
    of any block outside [X]. *)
Definition spares (X : list nat) (st : SILModule) (E : list nat) : Prop :=
  ∀ j b k, j ∈ E → b ∉ X → last (InstList st b) = Some j → getKind j st = Some k →
           isa_TermInst k = false.

(** [constant_branch] after a run of the pass. *)
Definition folded_branch : SILModule :=
  default constant_branch
    (snd <$> performSILDeadCodeElimination true insertion_order constant_branch).

(** [bb0: %0 = integer_literal 1; %1 = add %0, %0; %2 = add %1, %1; return] *)
Definition cascade_chain : SILModule :=
  graph [ mkInst (IntegerLiteralInst (APInt_of 32 1)) false [];
          mkInst OtherInst false [Some (InstValue 0); Some (InstValue 0)];
          mkInst OtherInst false [Some (InstValue 1); Some (InstValue 1)];
          return_inst ]
        [[0; 1; 2; 3]] [[0]].

(** [bb0: br bb1]  [bb1: return]  [bb2: %2 = pure; return], nothing
    branching to bb2. *)
Definition orphan_block : SILModule :=
  graph [ mkInst (BranchInst 1) true []; return_inst;
          mkInst OtherInst false []; return_inst ]
        [[0]; [1]; [2; 3]] [[0; 1; 2]].

(** [bb0: apply @noreturn; %1 = pure; br bb1]  [bb1: return] *)
Definition call_then_code : SILModule :=
  graph [ mkInst (ApplyInst (FunctionType true)) true [];
          mkInst OtherInst false [];
          mkInst (BranchInst 1) true [];
          return_inst ]
        [[0; 1; 2]; [3]] [[0; 1]].

(** [cascade_chain] after the cascade started at its last addition. *)
Definition cascade_chain_after : SILModule :=
  default cascade_chain
    (snd <$> recursivelyDeleteTriviallyDeadInstructions 2 cascade_chain).

(** [branch_with_argument] after the set deletion of its branch. *)
Definition erased_branch : SILModule :=
  default branch_with_argument
    (snd <$> eraseAndCleanup insertion_order [1] branch_with_argument).

(** [constant_branch] after the constant folder has been at its entry
    block. *)
Definition constant_branch_folded : SILModule :=
  default constant_branch
    (snd <$> constantFoldTerminator true insertion_order 0 constant_branch).

(** ** What the pass never does *)

(** The graph has only lost parts.  The functions are as many as before
    and the blocks of each are a subsequence of what they were; the
    instructions that a block holds, the ones created since apart, are a
    subsequence of what the same block held; and no use-list has gained a
    use by an instruction that was there before. *)
Definition shrunk (st st' : SILModule) : Prop :=
  length (Functions st') = length (Functions st) ∧
  (∀ F blocks blocks', Functions st !! F = Some blocks →
     Functions st' !! F = Some blocks' → blocks' `sublist_of` blocks) ∧
  length (Insts st) ≤ length (Insts st') ∧
  (∀ b, filter (λ i, i < length (Insts st)) (InstList st' b) `sublist_of` InstList st b) ∧
  (∀ v o, o ∈ Uses st' v → o.1 < length (Insts st) → o ∈ Uses st v).

(** No instruction has been rewritten: each one is still allocated, of the
    same class, with the same side-effect flag and as many operands, and
    an operand that is set reads the value it read before. *)
Definition unrewritten (st st' : SILModule) : Prop :=
  ∀ i ins, Insts st !! i = Some ins →
    ∃ ins', Insts st' !! i = Some ins' ∧ Kind ins' = Kind ins ∧
            SideEffects ins' = SideEffects ins ∧
            length (Operands ins') = length (Operands ins) ∧
            ∀ k v, Operands ins' !! k = Some (Some v) → Operands ins !! k = Some (Some v).

(** No block and no control-flow edge has been added: the blocks of the
    module are among those it had, and the successors of each are among
    those it had. *)
Definition edges_within (st st' : SILModule) : Prop :=
  ∀ b, b ∈ concat (Functions st') →
       b ∈ concat (Functions st) ∧
       ∀ b', b' ∈ block_successors st' b → b' ∈ block_successors st b.

(** Why an instruction may leave a block that stays in the module: it has
    no side effects and is no terminator, or it is a terminator, or its
    block holds a call to a no-return function. *)
Definition removable (st : SILModule) (b i : nat) : Prop :=
  deletable st i ∨
  (∃ k, getKind i st = Some k ∧ isa_TermInst k = true) ∨
  (∃ call, call ∈ InstList st b ∧ no_return_call st call).

(** Nothing else has left the blocks that stay. *)
Definition spared (st st' : SILModule) : Prop :=
  (∀ b, b ∈ concat (Functions st') → b ∈ concat (Functions st)) ∧
  (∀ i k, getKind i st' = Some k → getKind i st = Some k ∨ isa_TermInst k = true) ∧
  unrewritten st st' ∧ shrunk st st' ∧
  (∀ b i, b ∈ concat (Functions st') → i ∈ InstList st b → is_Some (Insts st !! i) →
          i ∈ InstList st' b ∨ removable st b i).

(** [bb0: %0 = integer_literal 1; store; cond_br %0, bb1, bb2]
    [bb1: return]  [bb2: return], the store having side effects. *)
Definition guarded_store : SILModule :=
  graph [ mkInst (IntegerLiteralInst (APInt_of 1 1)) false [];
          mkInst OtherInst true [];
          mkInst (CondBranchInst 1 2 0) true [Some (InstValue 0)];
          return_inst; return_inst ]
        [[0; 1; 2]; [3]; [4]] [[0; 1; 2]].

(** [guarded_store] after a run of the pass. *)
Definition guarded_store_after : SILModule :=
  default guarded_store
    (snd <$> performSILDeadCodeElimination true insertion_order guarded_store).

(** ** Graphs on which a candidate of the cleanup is met twice *)

(** [bb0: %0 = integer_literal 0; %1 = pure; %2 = pure(%1);
          cond_br %0, bb1(%2, %1), bb2]  [bb1: return]  [bb2: return] *)
Definition fold_twice : SILModule :=
  graph [ mkInst (IntegerLiteralInst (APInt_of 1 0)) false [];
          mkInst OtherInst false [];
          mkInst OtherInst false [Some (InstValue 1)];
          mkInst (CondBranchInst 1 2 2) true
            [Some (InstValue 0); Some (InstValue 2); Some (InstValue 1)];
          return_inst; return_inst ]
        [[0; 1; 2; 3]; [4]; [5]] [[0; 1; 2]].

(** [bb0: %0 = pure; %1 = pure(%0); apply @noreturn; %3 = effect(%1, %0);
          return] *)
Definition trunc_twice : SILModule :=
  graph [ mkInst OtherInst false [];
          mkInst OtherInst false [Some (InstValue 0)];
          mkInst (ApplyInst (FunctionType true)) true [];
          mkInst OtherInst true [Some (InstValue 1); Some (InstValue 0)];
          return_inst ]
        [[0; 1; 2; 3; 4]] [[0]].

(** [bb0: return]  [bb1: %1 = pure; %2 = pure(%1); br bb2(%2, %1)]
    [bb2: return], nothing branching to bb1. *)
Definition sweep_twice : SILModule :=
  graph [ return_inst;
          mkInst OtherInst false [];
          mkInst OtherInst false [Some (InstValue 1)];
          mkInst (BranchInst 2) true [Some (InstValue 2); Some (InstValue 1)];
          return_inst ]
        [[0]; [1; 2; 3]; [4]] [[0; 1; 2]].

(** ** Further sample graphs *)

(** [bb0: %0 = integer_literal 1; %1 = pure; cond_br %0, bb1(%1), bb2]
    [bb1: return]  [bb2: return] *)
Definition branch_passing_value : SILModule :=
  graph [ mkInst (IntegerLiteralInst (APInt_of 1 1)) false [];
          mkInst OtherInst false [];
          mkInst (CondBranchInst 1 2 1) true [Some (InstValue 0); Some (InstValue 1)];
          return_inst; return_inst ]
        [[0; 1; 2]; [3]; [4]] [[0; 1; 2]].

(** [branch_passing_value] after a run of the pass. *)
Definition branch_passing_value_after : SILModule :=
  default branch_passing_value
    (snd <$> performSILDeadCodeElimination true insertion_order branch_passing_value).

(** [orphan_block] after the sweep of its function. *)
Definition orphan_block_after : SILModule :=
  default orphan_block
    (snd <$> removeUnreachableBlocks true insertion_order 0 orphan_block).

(** [bb0: %0 = effect; %1 = pure; apply @noreturn; %3 = pure(%1); br bb1]
    [bb1: return] *)
Definition head_and_tail : SILModule :=
  graph [ mkInst OtherInst true [];
          mkInst OtherInst false [];
          mkInst (ApplyInst (FunctionType true)) true [];
          mkInst OtherInst false [Some (InstValue 1)];
          mkInst (BranchInst 1) true [];
          return_inst ]
        [[0; 1; 2; 3; 4]; [5]] [[0; 1]].

(** [head_and_tail] after the truncation of its entry block. *)
Definition head_and_tail_after : SILModule :=
  default head_and_tail
    (snd <$> simplifyBlocksWithCallsToNoReturn true insertion_order 0 head_and_tail).

(** ** Stores without dangling handles *)


(** ** Lists *)

Lemma filter_all {A} (P : A → Prop) `{!∀ x, Decision (P x)} (l : list A) :
  (∀ x, x ∈ l → P x) → filter P l = l.
Proof.
  induction l as [|a l IH]; intros Hall; [done|].
  rewrite filter_cons_True by (apply Hall; left).
  f_equal. apply IH. intros x Hx. apply Hall. by right.
Qed.

Lemma filter_none {A} (P : A → Prop) `{!∀ x, Decision (P x)} (l : list A) :
  (∀ x, x ∈ l → ¬ P x) → filter P l = [].
Proof.
  induction l as [|a l IH]; intros Hall; [done|].
  rewrite filter_cons_False by (apply Hall; left).
  apply IH. intros x Hx. apply Hall. by right.
Qed.

Lemma elem_of_concat {A} (x : A) (ls : list (list A)) :
  x ∈ concat ls ↔ ∃ l, l ∈ ls ∧ x ∈ l.
Proof.
  rewrite list_elem_of_In, in_concat. split.
  - intros (l & ? & ?). exists l. by rewrite !list_elem_of_In.
  - intros (l & ? & ?). exists l. by rewrite <-!list_elem_of_In.
Qed.

(** ** The store after a deletion *)

Lemma deletion_noop O st :
  (∀ i k v, (i, k) ∈ O → getAllOperands i st !! k ≠ Some (Some v)) →
  deletion O [] st st.
Proof.
  intros HO. split; try done.
  - intros i k. destruct (getAllOperands i st !! k) as [[v|]|] eqn:Ho; simpl; [|by case_decide|done].
    rewrite decide_False; [done|]. intros Hin. by eapply HO.
  - intros v. symmetry. apply filter_all. intros [i k] _ [Hin Ho]. by eapply HO.
  - intros b. symmetry. apply filter_all. intros x _. apply not_elem_of_nil.
Qed.

Lemma deletion_refl st : deletion [] [] st st.
Proof. apply deletion_noop. intros i k v Hin. by apply not_elem_of_nil in Hin. Qed.

Lemma deletion_trans O1 E1 O2 E2 st st1 st2 :
  deletion O1 E1 st st1 → deletion O2 E2 st1 st2 →
  deletion (O1 ++ O2) (E1 ++ E2) st st2.
Proof.
  intros H1 H2. split.
  - by rewrite (del_functions _ _ _ _ H2), (del_functions _ _ _ _ H1).
  - by rewrite (del_blocks_removed _ _ _ _ H2), (del_blocks_removed _ _ _ _ H1).
  - by rewrite (del_insts_removed _ _ _ _ H2), (del_insts_removed _ _ _ _ H1).
  - by rewrite (del_length _ _ _ _ H2), (del_length _ _ _ _ H1).
  - intros i. by rewrite (del_kind _ _ _ _ H2), (del_kind _ _ _ _ H1).
  - intros i. by rewrite (del_side _ _ _ _ H2), (del_side _ _ _ _ H1).
  - intros i k. rewrite (del_operands _ _ _ _ H2), (del_operands _ _ _ _ H1).
    destruct (getAllOperands i st !! k) as [o|]; simpl; [|done]. f_equal.
    repeat case_decide; try done; exfalso; set_solver.
  - intros v. rewrite (del_uses _ _ _ _ H2), (del_uses _ _ _ _ H1).
    rewrite list_filter_filter. apply list_filter_iff. intros [i k]. simpl.
    rewrite (del_operands _ _ _ _ H1).
    destruct (getAllOperands i st !! k) as [o|] eqn:Eo; simpl.
    + case_decide as Hin.
      * split.
        -- intros [_ Hn] [_ Ho]. apply Hn. by split.
        -- intros Hn. split; [by intros [_ ?]|]. intros [_ Ho]. apply Hn.
           split; [set_solver|done].
      * split.
        -- intros [Hn2 _] [Hin' Ho]. apply Hn2. split; [set_solver|done].
        -- intros Hn. split; [|by intros [? _]]. intros [Hin' Ho]. apply Hn.
           split; [set_solver|done].
    + split; [by intros _ [_ ?]|]. intros _. split; by intros [_ ?].
  - intros b. rewrite (del_instlist _ _ _ _ H2), (del_instlist _ _ _ _ H1).
    rewrite list_filter_filter. apply list_filter_iff. intros x. set_solver.
Qed.

Lemma deletion_ext O E O' E' st st' :
  (∀ o, o ∈ O ↔ o ∈ O') → (∀ i, i ∈ E ↔ i ∈ E') →
  deletion O E st st' → deletion O' E' st st'.
Proof.
  intros HO HE [H1 H2 H3 H4 H5 H6 H7 H8 H9]. split; try done.
  - intros i k. rewrite H7.
    destruct (getAllOperands i st !! k); simpl; [|done]. f_equal.
    repeat case_decide; try done; exfalso; naive_solver.
  - intros v. rewrite H8. apply list_filter_iff. intros o. by rewrite HO.
  - intros b. rewrite H9. apply list_filter_iff. intros o. by rewrite HE.
Qed.

Lemma deletion_getKind O E st st' i :
  deletion O E st st' → getKind i st' = getKind i st.
Proof. intros H. apply (del_kind _ _ _ _ H). Qed.

Lemma deletion_operands_length O E st st' i :
  deletion O E st st' →
  length (getAllOperands i st') = length (getAllOperands i st).
Proof.
  intros H.
  destruct (Nat.lt_trichotomy (length (getAllOperands i st')) (length (getAllOperands i st)))
    as [Hlt|[?|Hlt]]; [|done|]; exfalso.
  - apply lookup_lt_is_Some in Hlt as [o Ho].
    pose proof (del_operands _ _ _ _ H i (length (getAllOperands i st'))) as Hk.
    rewrite Ho in Hk. simpl in Hk. apply lookup_lt_Some in Hk. lia.
  - apply lookup_lt_is_Some in Hlt as [o Ho].
    pose proof (del_operands _ _ _ _ H i (length (getAllOperands i st))) as Hk.
    rewrite Ho in Hk. symmetry in Hk. apply fmap_Some in Hk as (o' & Ho' & _).
    apply lookup_lt_Some in Ho'. lia.
Qed.

Lemma deletion_deletable O E st st' i :
  deletion O E st st' → deletable st' i ↔ deletable st i.
Proof.
  intros H. unfold deletable.
  pose proof (del_kind _ _ _ _ H i) as Hk. pose proof (del_side _ _ _ _ H i) as Hs.
  destruct (Insts st' !! i) as [a|], (Insts st !! i) as [b|]; simplify_eq/=;
    [|naive_solver].
  split; intros (x & ? & ? & ?); simplify_eq; eexists; split_and!; eauto; congruence.
Qed.

Lemma deletion_linked O E st st' i :
  deletion O E st st' → linked st' i ↔ linked st i ∧ i ∉ E.
Proof.
  intros H. unfold linked. split.
  - intros [b Hb]. rewrite (del_instlist _ _ _ _ H), list_elem_of_filter in Hb.
    naive_solver.
  - intros [[b Hb] Hn]. exists b. rewrite (del_instlist _ _ _ _ H), list_elem_of_filter.
    done.
Qed.

Lemma deletion_use_empty O E st st' i :
  deletion O E st st' → use_empty i st = true → use_empty i st' = true.
Proof.
  intros H. unfold use_empty. rewrite (del_uses _ _ _ _ H).
  by destruct (Uses st (InstValue i)).
Qed.

(** Def-use consistency survives a deletion that has dropped every operand
    of the instructions it unlinks. *)
Lemma deletion_consistent O E st st' :
  deletion O E st st' → consistent st →
  (∀ i k, i ∈ E → k < length (getAllOperands i st) → (i, k) ∈ O) →
  consistent st'.
Proof.
  intros H Hc HOE v i k.
  rewrite (del_uses _ _ _ _ H), list_elem_of_filter, (Hc v i k).
  rewrite (deletion_linked _ _ _ _ _ H), (del_operands _ _ _ _ H). simpl.
  destruct (getAllOperands i st !! k) as [o|] eqn:Ho; simpl; [|naive_solver].
  case_decide as Hin.
  - split; [|naive_solver]. intros [Hn [_ ?]]. exfalso. by apply Hn.
  - split.
    + intros [_ [Hl ?]]. split; [|done]. split; [done|]. intros HE. apply Hin, HOE; [done|].
      by apply lookup_lt_Some in Ho.
    + intros [[Hl _] ?]. split; [|done]. by intros [? _].
Qed.

Lemma elem_of_operand_slots st E i k :
  (i, k) ∈ operand_slots st E ↔ i ∈ E ∧ k < length (getAllOperands i st).
Proof.
  unfold operand_slots. rewrite list_elem_of_bind. split.
  - intros (j & Hin & Hj). apply list_elem_of_fmap in Hin as (k' & Heq & Hk').
    simplify_eq. apply elem_of_seq in Hk'. split; [done|lia].
  - intros [Hi Hk]. exists i. split; [|done]. apply list_elem_of_fmap. exists k.
    split; [done|]. apply elem_of_seq. lia.
Qed.

Lemma operand_slots_app st E1 E2 :
  operand_slots st (E1 ++ E2) = operand_slots st E1 ++ operand_slots st E2.
Proof. unfold operand_slots. apply bind_app. Qed.

Lemma operand_slots_deletion O E st st' E' :
  deletion O E st st' → operand_slots st' E' = operand_slots st E'.
Proof.
  intros H. unfold operand_slots. induction E' as [|i E' IH]; [done|].
  rewrite !bind_cons, IH. by rewrite (deletion_operands_length _ _ _ _ _ H).
Qed.

(** ** The primitives *)

Lemma set_operands_lookup I ops l i :
  set_operands I ops l !! i =
  (λ ins, if decide (i = I) then mkInst (Kind ins) (SideEffects ins) ops else ins) <$> l !! i.
Proof.
  unfold set_operands. destruct (l !! I) as [ins|] eqn:HI.
  - destruct (decide (i = I)) as [->|Hne].
    + rewrite list_lookup_insert_eq by (by apply lookup_lt_Some in HI). by rewrite HI.
    + rewrite list_lookup_insert_ne by done. by destruct (l !! i).
  - destruct (decide (i = I)) as [->|Hne]; [by rewrite HI|]. by destruct (l !! i).
Qed.

Lemma Operand_drop_deletion I k st : deletion [(I, k)] [] st (Operand_drop I k st).
Proof.
  unfold Operand_drop.
  destruct (getAllOperands I st !! k) as [[v|]|] eqn:Hop.
  - split; simpl; try done.
    + unfold set_operands. destruct (Insts st !! I); [|done]. by rewrite length_insert.
    + intros i. rewrite set_operands_lookup. destruct (Insts st !! i); [|done]. simpl.
      by case_decide.
    + intros i. rewrite set_operands_lookup. destruct (Insts st !! i); [|done]. simpl.
      by case_decide.
    + intros i k'. unfold getAllOperands at 1. simpl. rewrite set_operands_lookup.
      unfold getAllOperands at 2.
      destruct (Insts st !! i) as [ins|] eqn:Hi; simpl; [|done].
      destruct (decide (i = I)) as [->|Hne]; simpl.
      * unfold getAllOperands. rewrite Hi. simpl.
        destruct (decide (k' = k)) as [->|Hk].
        -- rewrite list_lookup_insert_eq.
           2:{ unfold getAllOperands in Hop. rewrite Hi in Hop. simpl in Hop.
               by apply lookup_lt_Some in Hop. }
           unfold getAllOperands in Hop. rewrite Hi in Hop. simpl in Hop. rewrite Hop.
           simpl. rewrite decide_True; [done|]. left.
        -- rewrite list_lookup_insert_ne by done.
           destruct (Operands ins !! k'); simpl; [|done].
           rewrite decide_False; [done|]. rewrite list_elem_of_singleton. congruence.
      * destruct (Operands ins !! k'); simpl; [|done].
        rewrite decide_False; [done|]. rewrite list_elem_of_singleton. congruence.
    + intros v'. case_decide as Hv.
      * subst v'. apply list_filter_iff. intros o. rewrite list_elem_of_singleton.
        split.
        -- intros Hne [-> _]. done.
        -- intros Hn ->. apply Hn. done.
      * symmetry. apply filter_all. intros o _ [Ho Hv']. apply list_elem_of_singleton in Ho.
        subst o. simpl in Hv'. congruence.
    + intros b. symmetry. apply filter_all. intros x _. apply not_elem_of_nil.
  - apply deletion_noop. intros i k' v' Hin. apply list_elem_of_singleton in Hin.
    simplify_eq. congruence.
  - apply deletion_noop. intros i k' v' Hin. apply list_elem_of_singleton in Hin.
    simplify_eq. congruence.
Qed.

Lemma eraseFromParent_inv I st r st' :
  eraseFromParent I st = Some (r, st') →
  I ∉ Erased st ∧ Insts st' = Insts st ∧ Uses st' = Uses st ∧
  Erased st' = I :: Erased st.
Proof. unfold eraseFromParent. case_decide; [done|]. intros ?; by simplify_eq. Qed.

Lemma eraseFromParent_erased I st : I ∈ Erased st → eraseFromParent I st = None.
Proof. intros H. unfold eraseFromParent. by rewrite decide_True. Qed.

Lemma eraseFromParent_deletion I st r st' :
  eraseFromParent I st = Some (r, st') → deletion [] [I] st st'.
Proof.
  unfold eraseFromParent. case_decide; [done|]. intros ?; simplify_eq.
  split; simpl; try done.
  - intros i k. unfold getAllOperands. simpl.
    by destruct (from_option Operands [] (Insts st !! i) !! k).
  - intros v. symmetry. apply filter_all. intros o _ [Hin _]. by apply not_elem_of_nil in Hin.
  - intros b. apply list_filter_iff. intros i. rewrite list_elem_of_singleton. done.
Qed.

Lemma Operand_drop_id I k st :
  (∀ v, getAllOperands I st !! k ≠ Some (Some v)) → Operand_drop I k st = st.
Proof.
  intros H. unfold Operand_drop.
  destruct (getAllOperands I st !! k) as [[v|]|]; [|done..]. by destruct (H v).
Qed.

Lemma dropAllReferences_deletion I st :
  deletion (operand_slots st [I]) [] st (dropAllReferences I st).
Proof.
  unfold dropAllReferences, operand_slots. rewrite bind_cons; simpl; rewrite app_nil_r.
  generalize (seq 0 (length (getAllOperands I st))). intros ks.
  revert st. induction ks as [|k ks IH]; intros st; simpl.
  - apply deletion_refl.
  - exact (deletion_trans [(I, k)] [] _ [] _ _ _ (Operand_drop_deletion I k st) (IH _)).
Qed.

Section Deleter.
Variable assertions : bool.
Variable order : DenseSetOrder.

Lemma isInstructionTriviallyDead_true I st :
  isInstructionTriviallyDead I st = true ↔ use_empty I st = true ∧ deletable st I.
Proof.
  unfold isInstructionTriviallyDead, deletable.
  destruct (Insts st !! I) as [ins|].
  - destruct (use_empty I st), (isa_TermInst (Kind ins)) eqn:Ht, (SideEffects ins) eqn:Hs;
      simpl; split; try done.
    + intros [_ (x & ? & ? & ?)]. simplify_eq. congruence.
    + intros [_ (x & ? & ? & ?)]. simplify_eq. congruence.
    + intros [_ (x & ? & ? & ?)]. simplify_eq. congruence.
    + intros _. split; [done|]. by exists ins.
    + by intros [? _].
    + by intros [? _].
    + by intros [? _].
    + by intros [? _].
  - split; [done|]. by intros [_ (x & ? & _)].
Qed.

Lemma isInstructionTriviallyDead_deletion O E st st' I :
  deletion O E st st' →
  isInstructionTriviallyDead I st = true → isInstructionTriviallyDead I st' = true.
Proof.
  intros H. rewrite !isInstructionTriviallyDead_true. intros [Hu Hd]. split.
  - by eapply deletion_use_empty.
  - by eapply deletion_deletable.
Qed.

Lemma scan_operands_spec I ks W st W' st' :
  scan_operands I ks W st = (W', st') →
  deletion ((λ k, (I, k)) <$> ks) [] st st' ∧
  ∃ pushed, W' = pushed ++ W ∧ ∀ j, j ∈ pushed → deletable st j.
Proof.
  revert W st. induction ks as [|k ks IH]; intros W st Hs; simpl in Hs.
  - simplify_eq. split; [apply deletion_refl|]. exists []. split; [done|].
    intros j Hj. by apply not_elem_of_nil in Hj.
  - destruct (IH _ _ Hs) as [Hd (pushed & HW & Hp)]. clear IH Hs.
    pose proof (Operand_drop_deletion I k st) as Hk.
    split.
    + exact (deletion_trans [(I, k)] [] _ [] _ _ _ Hk Hd).
    + assert (∀ j, j ∈ pushed → deletable st j) as Hp'.
      { intros j Hj. apply (proj1 (deletion_deletable _ _ _ _ j Hk)). by apply Hp. }
      destruct (getAllOperands I st !! k) as [[[j|]|]|]; try by (exists pushed).
      destruct (isInstructionTriviallyDead j (Operand_drop I k st)) eqn:Hdead;
        [|by exists pushed].
      exists (pushed ++ [j]). split; [by rewrite <-app_assoc|].
      intros j' [?|Hj']%elem_of_app; [by apply Hp'|].
      apply list_elem_of_singleton in Hj'. subst j'.
      apply isInstructionTriviallyDead_true in Hdead as [_ Hdead].
      by apply (proj1 (deletion_deletable _ _ _ _ j Hk)).
Qed.

Lemma operand_slots_cons st J E :
  operand_slots st (J :: E) =
  ((λ k, (J, k)) <$> seq 0 (length (getAllOperands J st))) ++ operand_slots st E.
Proof. unfold operand_slots. by rewrite bind_cons. Qed.

Lemma delete_loop_spec fuel W st st' :
  delete_loop fuel W st = Some st' →
  ∃ E, deletion (operand_slots st E) E st st' ∧
       (∀ j, j ∈ W → j ∈ E) ∧ (∀ j, j ∈ E → j ∈ W ∨ deletable st j).
Proof.
  revert W st. induction fuel as [|fuel IH]; intros [|J W] st Hl; simpl in Hl;
    simplify_eq.
  - exists []. split; [apply deletion_refl|]. set_solver.
  - exists []. split; [apply deletion_refl|]. set_solver.
  - destruct (scan_operands J (seq 0 (length (getAllOperands J st))) W st)
      as [W1 st1] eqn:Hs.
    apply scan_operands_spec in Hs as [Hd (pushed & HW & Hp)].
    destruct (eraseFromParent J st1) as [[[] st2]|] eqn:Her; [|done].
    apply eraseFromParent_deletion in Her as He.
    pose proof (deletion_trans _ _ _ _ _ _ _ Hd He) as Hde.
    destruct (IH _ _ Hl) as (E & HE & Hin & Hout). clear IH Hl. subst W1.
    exists (J :: E). split_and!.
    + rewrite operand_slots_cons.
      rewrite (operand_slots_deletion _ _ _ _ _ Hde) in HE.
      pose proof (deletion_trans _ _ _ _ _ _ _ Hde HE) as Ht.
      rewrite app_nil_r in Ht. exact Ht.
    + intros j [->|Hj]%elem_of_cons; [left|]. right. apply Hin. set_solver.
    + intros j [->|Hj]%elem_of_cons; [left; left|].
      destruct (Hout j Hj) as [[?|?]%elem_of_app|Hdel].
      * right. by apply Hp.
      * left. by right.
      * right. by apply (proj1 (deletion_deletable _ _ _ _ j Hde)).
Qed.

(** Termination of the worklist loop: the measure is the number of operands
    still set plus the length of the worklist. *)
Lemma live_operands_set_operands (l : list SILInstruction) I ins k v :
  l !! I = Some ins → Operands ins !! k = Some (Some v) →
  S (length (filter (λ o : option Value, is_Some o)
       (concat (Operands <$> set_operands I (<[k := None]> (Operands ins)) l)))) =
  length (filter (λ o : option Value, is_Some o) (concat (Operands <$> l))).
Proof.
  intros HI Hk. unfold set_operands. rewrite HI.
  rewrite insert_take_drop by (by apply lookup_lt_Some in HI).
  rewrite <-(take_drop_middle l I ins HI) at 3.
  rewrite !fmap_app, !fmap_cons, !concat_app, !concat_cons, !filter_app, !length_app.
  simpl.
  assert (S (length (filter (λ o : option Value, is_Some o) (<[k:=None]> (Operands ins)))) =
          length (filter (λ o : option Value, is_Some o) (Operands ins))) as <-; [|lia].
  rewrite insert_take_drop by (by apply lookup_lt_Some in Hk).
  rewrite <-(take_drop_middle (Operands ins) k _ Hk) at 3.
  rewrite !filter_app, !length_app.
  rewrite filter_cons_False by (by intros [? ?]).
  rewrite filter_cons_True by (by eexists). simpl. lia.
Qed.

Lemma live_operands_drop I k st v :
  getAllOperands I st !! k = Some (Some v) →
  S (live_operands (Operand_drop I k st)) = live_operands st.
Proof.
  intros Hk. unfold live_operands, Operand_drop. rewrite Hk. simpl.
  unfold getAllOperands in *. destruct (Insts st !! I) as [ins|] eqn:HI; [|done].
  simpl in Hk. simpl. by eapply live_operands_set_operands.
Qed.

Lemma scan_operands_measure I ks W st W' st' :
  scan_operands I ks W st = (W', st') →
  live_operands st' + length W' ≤ live_operands st + length W.
Proof.
  revert W st. induction ks as [|k ks IH]; intros W st Hs; simpl in Hs.
  - by simplify_eq.
  - apply IH in Hs.
    destruct (getAllOperands I st !! k) as [[v|]|] eqn:Hk.
    + apply live_operands_drop in Hk.
      destruct v as [j|]; [|lia].
      destruct (isInstructionTriviallyDead j _); simpl in *; lia.
    + rewrite Operand_drop_id in Hs by (rewrite Hk; congruence). done.
    + rewrite Operand_drop_id in Hs by (rewrite Hk; congruence). done.
Qed.

(** The fuel of the worklist loop is no restriction: once it covers the
    measure, more of it does not change the outcome. *)
Lemma delete_loop_fuel fuel fuel' W st :
  live_operands st + length W ≤ fuel → live_operands st + length W ≤ fuel' →
  delete_loop fuel W st = delete_loop fuel' W st.
Proof.
  revert fuel' W st. induction fuel as [|fuel IH]; intros fuel' [|J W] st Hf Hf';
    simpl in *; try lia.
  - by destruct fuel'.
  - by destruct fuel'.
  - destruct fuel' as [|fuel']; [lia|]. simpl.
    destruct (scan_operands J (seq 0 (length (getAllOperands J st))) W st)
      as [W1 st1] eqn:Hs.
    apply scan_operands_measure in Hs.
    destruct (eraseFromParent J st1) as [[[] st2]|] eqn:Her; [|done].
    apply eraseFromParent_inv in Her as (_ & HI & _).
    assert (live_operands st2 = live_operands st1) as Hlive
      by (unfold live_operands; by rewrite HI).
    apply IH; lia.
Qed.


Lemma recursivelyDelete_spec I st r st' :
  recursivelyDeleteTriviallyDeadInstructions I st = Some (r, st') →
  r = isInstructionTriviallyDead I st ∧
  ∃ E, deletion (operand_slots st E) E st st' ∧
       (∀ j, j ∈ E → deletable st j) ∧
       (r = true → I ∈ E) ∧ (r = false → E = [] ∧ st' = st).
Proof.
  unfold recursivelyDeleteTriviallyDeadInstructions, bind, dereference.
  case_decide as Hlive; [done|].
  destruct (isInstructionTriviallyDead I st) eqn:Hdead; cbn [negb].
  - destruct (delete_loop _ _ _) as [s|] eqn:Hl; [|done]. intros ?; simplify_eq.
    split; [done|].
    apply delete_loop_spec in Hl as (E & HE & Hin & Hout).
    exists E. split_and!; [done| |set_solver|done].
    intros j Hj. destruct (Hout j Hj) as [Hw|?]; [|done].
    apply list_elem_of_singleton in Hw. subst j.
    by apply isInstructionTriviallyDead_true in Hdead as [_ ?].
  - intros ?; simplify_eq. split; [done|]. exists []. split_and!; try done.
    + apply deletion_refl.
    + set_solver.
Qed.

End Deleter.

Lemma elem_of_DenseSet_insert x y s : x ∈ DenseSet_insert y s ↔ x = y ∨ x ∈ s.
Proof.
  unfold DenseSet_insert. case_decide as Hy.
  - split; [by right|]. by intros [->|?].
  - rewrite elem_of_app, list_elem_of_singleton. tauto.
Qed.

Lemma elem_of_foldl_DenseSet_insert (l s : list nat) x :
  x ∈ foldl (λ set J, DenseSet_insert J set) s l ↔ x ∈ s ∨ x ∈ l.
Proof.
  revert s. induction l as [|a l IH]; intros s; simpl.
  - rewrite elem_of_nil. tauto.
  - rewrite IH, elem_of_DenseSet_insert, elem_of_cons. tauto.
Qed.

Lemma elem_of_collect_possibly_dead ToBeDeleted ops PD j :
  j ∈ collect_possibly_dead ToBeDeleted ops PD ↔
  j ∈ PD ∨ (Some (InstValue j) ∈ ops ∧ j ∉ ToBeDeleted).
Proof.
  unfold collect_possibly_dead. revert PD.
  induction ops as [|o ops IH]; intros PD; simpl.
  - rewrite elem_of_nil. tauto.
  - rewrite IH, elem_of_cons. clear IH.
    destruct o as [[V|]|]; try (split; [intros [?|[? ?]]|intros [?|[[?|?] ?]]]; by auto).
    unfold DenseSet_count. case_bool_decide as HV; simpl.
    + split; [intros [?|[? ?]]|intros [?|[[?|?] ?]]]; auto. simplify_eq. done.
    + rewrite elem_of_DenseSet_insert.
      split; [intros [[->|?]|[? ?]]|intros [?|[[?|?] ?]]]; auto. simplify_eq. auto.
Qed.

Lemma deletion_operands_untouched O E st st' i k :
  deletion O E st st' → (i, k) ∉ O →
  getAllOperands i st' !! k = getAllOperands i st !! k.
Proof.
  intros H Hn. rewrite (del_operands _ _ _ _ H).
  destruct (getAllOperands i st !! k); simpl; [|done]. by rewrite decide_False.
Qed.

Lemma deletion_operands_same O E st st' i :
  deletion O E st st' → (∀ k, (i, k) ∉ O) →
  getAllOperands i st' = getAllOperands i st.
Proof.
  intros H Hn. apply list_eq. intros k. by eapply deletion_operands_untouched.
Qed.

Lemma drop_references_spec ToBeDeleted l PD st PD' st' :
  drop_references ToBeDeleted l PD st = (PD', st') →
  deletion (operand_slots st l) [] st st' ∧
  (∀ j, j ∈ PD → j ∈ PD') ∧
  (∀ i j, i ∈ l → Some (InstValue j) ∈ getAllOperands i st → j ∉ ToBeDeleted → j ∈ PD').
Proof.
  revert PD st. induction l as [|DI l IH]; intros PD st Hd; simpl in Hd.
  - simplify_eq. split; [apply deletion_refl|]. split; [done|].
    intros i j Hi. by apply not_elem_of_nil in Hi.
  - destruct (IH _ _ Hd) as (Hdel & Hmono & Hcand). clear IH Hd.
    pose proof (dropAllReferences_deletion DI st) as HDI.
    split_and!.
    + rewrite operand_slots_cons.
      rewrite (operand_slots_deletion _ _ _ _ _ HDI) in Hdel.
      unfold operand_slots in HDI. rewrite bind_cons in HDI. simpl in HDI.
      rewrite app_nil_r in HDI.
      exact (deletion_trans _ [] _ [] _ _ _ HDI Hdel).
    + intros j Hj. apply Hmono, elem_of_collect_possibly_dead. by left.
    + intros i j Hi Hop Hn. destruct (decide (i = DI)) as [->|Hne].
      * apply Hmono, elem_of_collect_possibly_dead. by right.
      * apply elem_of_cons in Hi as [?|Hi]; [done|].
        apply (Hcand i j); [done| |done].
        rewrite (deletion_operands_same _ _ _ _ i HDI); [done|].
        intros k [Hk _]%elem_of_operand_slots.
        by apply list_elem_of_singleton in Hk.
Qed.

Lemma erase_all_deletion l st r st' :
  for_each l eraseFromParent st = Some (r, st') → deletion [] l st st'.
Proof.
  revert st. induction l as [|J l IH]; intros st Hf; simpl in Hf.
  - unfold ret in Hf. simplify_eq. apply deletion_refl.
  - unfold bind in Hf. destruct (eraseFromParent J st) as [[[] s]|] eqn:He; [|done].
    exact (deletion_trans [] [J] [] l _ _ _ (eraseFromParent_deletion _ _ _ _ He)
             (IH _ Hf)).
Qed.

Section Cleanup.
Variable assertions : bool.
Variable order : DenseSetOrder.

Lemma delete_possibly_dead_spec l acc st r st' :
  delete_possibly_dead l acc st = Some (r, st') →
  (r = true → acc = true) ∧
  ∃ E, deletion (operand_slots st E) E st st' ∧
       (∀ j, j ∈ E → deletable st j) ∧
       (∀ j, j ∈ l → isInstructionTriviallyDead j st = true → j ∈ E).
Proof.
  revert acc st. induction l as [|V l IH]; intros acc st Hd; simpl in Hd.
  - unfold ret in Hd. simplify_eq. split; [done|]. exists [].
    split; [apply deletion_refl|]. set_solver.
  - unfold bind in Hd.
    destruct (recursivelyDeleteTriviallyDeadInstructions V st) as [[r1 s1]|] eqn:Hr;
      [|done].
    apply recursivelyDelete_spec in Hr as (Hr1 & E1 & HE1 & Hdel1 & HV & _).
    destruct (IH _ _ Hd) as (Hacc & E2 & HE2 & Hdel2 & Hl). clear IH Hd.
    split.
    { intros ->. specialize (Hacc eq_refl). by apply andb_prop in Hacc as [? _]. }
    exists (E1 ++ E2). split_and!.
    + rewrite operand_slots_app.
      rewrite (operand_slots_deletion _ _ _ _ _ HE1) in HE2.
      by eapply deletion_trans.
    + intros j [?|Hj]%elem_of_app; [by apply Hdel1|].
      apply (proj1 (deletion_deletable _ _ _ _ j HE1)). by apply Hdel2.
    + intros j [->|Hj]%elem_of_cons Hdead.
      * apply elem_of_app. left. apply HV. congruence.
      * apply elem_of_app. right. apply Hl; [done|].
        by eapply isInstructionTriviallyDead_deletion.
Qed.

(** The set deletion: the members of the set and some further deletable
    instructions [E'] lose their operands and leave their blocks.  An
    instruction read by the set, outside the set, and used by nothing but
    the set is among the further ones. *)
Lemma eraseAndCleanup_spec ToBeDeleted st r st' :
  eraseAndCleanup order ToBeDeleted st = Some (r, st') →
  r = false ∧
  ∃ E', deletion (operand_slots st (ToBeDeleted ++ E')) (ToBeDeleted ++ E') st st' ∧
        (∀ j, j ∈ E' → deletable st j) ∧
        (∀ j, j ∉ ToBeDeleted → deletable st j →
              (∃ i, i ∈ ToBeDeleted ∧ Some (InstValue j) ∈ getAllOperands i st) →
              (∀ o, o ∈ Uses st (InstValue j) →
                    o.1 ∈ ToBeDeleted ∧
                    getAllOperands o.1 st !! o.2 = Some (Some (InstValue j))) →
              j ∈ E').
Proof.
  unfold eraseAndCleanup.
  destruct (drop_references _ _ _ _) as [PD st1] eqn:Hdrop.
  unfold bind, ret.
  destruct (delete_possibly_dead _ _ _) as [[r1 st2]|] eqn:Hpd; [|done].
  destruct (for_each _ _ st2) as [[[] st3]|] eqn:Her; [|done].
  intros ?; simplify_eq.
  apply drop_references_spec in Hdrop as (H1 & _ & Hcand).
  apply delete_possibly_dead_spec in Hpd as (Hr & E' & H2 & Hdel & Hdead).
  apply erase_all_deletion in Her as H3.
  split; [by destruct r; [discriminate (Hr eq_refl)|]|].
  pose proof (iteration_perm order ToBeDeleted) as Hperm.
  exists E'. split_and!.
  - rewrite (operand_slots_deletion _ _ _ _ _ H1) in H2.
    pose proof (deletion_trans _ _ _ _ _ _ _ H1 H2) as H12.
    pose proof (deletion_trans _ _ _ _ _ _ _ H12 H3) as H.
    eapply deletion_ext; [| |exact H].
    + intros [i k]. rewrite app_nil_r, !elem_of_app, !elem_of_operand_slots, elem_of_app.
      rewrite Hperm. tauto.
    + intros i. simpl. rewrite !elem_of_app, Hperm. tauto.
  - intros j Hj. apply (proj1 (deletion_deletable _ _ _ _ j H1)). by apply Hdel.
  - intros j Hn Hd (i & Hi & Hop) Huses. apply Hdead.
    + rewrite (iteration_perm order PD). apply (Hcand i j); [by rewrite Hperm|done..].
    + apply isInstructionTriviallyDead_true. split.
      * unfold use_empty. rewrite (del_uses _ _ _ _ H1).
        rewrite filter_none; [done|]. intros [i' k'] Ho Hneg. apply Hneg.
        destruct (Huses _ Ho) as [Hin Hop']. simpl in *. split; [|done].
        apply elem_of_operand_slots. split; [by rewrite Hperm|].
        by apply lookup_lt_Some in Hop'.
      * by apply (proj2 (deletion_deletable _ _ _ _ j H1)).
Qed.

End Cleanup.

(** ** The builder *)

Lemma elem_of_register_uses I k0 args uses v o :
  o ∈ register_uses I k0 args uses v ↔
  o ∈ uses v ∨ ∃ k, o = (I, k0 + k) ∧ args !! k = Some (Some v).
Proof.
  revert k0 uses. induction args as [|a args IH]; intros k0 uses; simpl.
  - split; [by left|]. by intros [?|(k & _ & ?)].
  - rewrite IH. clear IH. split.
    + intros [Hin|(k & -> & Hk)].
      * destruct a as [w|]; [|by left]. case_decide as Hv; [|by left].
        subst w. apply elem_of_cons in Hin as [->|?]; [|by left].
        right. exists 0. split; [f_equal; lia|done].
      * right. exists (S k). split; [f_equal; lia|done].
    + intros [Hin|(k & -> & Hk)].
      * left. destruct a as [w|]; [|done]. case_decide; [|done]. subst. by right.
      * destruct k as [|k]; simpl in Hk.
        -- simplify_eq. left. rewrite decide_True by done. rewrite Nat.add_0_r. left.
        -- right. exists k. split; [f_equal; lia|done].
Qed.

Lemma SILBuilder_insert_consistent BB kind args st :
  consistent st → consistent (SILBuilder_insert BB kind args st).2.
Proof.
  intros Hc v i k. simpl. rewrite elem_of_register_uses, (Hc v i k).
  unfold linked, getAllOperands. simpl.
  destruct (decide (i = length (Insts st))) as [->|Hne].
  - rewrite lookup_app_r by lia. rewrite Nat.sub_diag. simpl.
    rewrite (lookup_ge_None_2 (Insts st)) by lia. simpl. split.
    + intros [[_ ?]|(k' & ? & ?)]; [done|]. simplify_eq. split; [|done].
      exists BB. rewrite decide_True by done. apply elem_of_app. right. left.
    + intros [_ ?]. right. by exists k.
  - assert (∀ b, i ∈ (if decide (b = BB) then InstList st b ++ [length (Insts st)]
                      else InstList st b) ↔ i ∈ InstList st b) as Hb.
    { intros b. case_decide; [|done]. rewrite elem_of_app, list_elem_of_singleton. tauto. }
    assert ((Insts st ++ [mkInst kind true args]) !! i = Insts st !! i) as ->.
    { destruct (decide (i < length (Insts st))); [by rewrite lookup_app_l|].
      rewrite !lookup_ge_None_2; [done|lia|rewrite length_app; simpl; lia]. }
    split.
    + intros [[[b Hl] ?]|(k' & ? & ?)]; [|by simplify_eq]. split; [|done].
      exists b. by apply Hb.
    + intros [[b Hl] ?]. left. split; [|done]. exists b. by apply Hb.
Qed.

Lemma count_removed_iter_deletion n st :
  Insts (Nat.iter n count_removed_instruction st) = Insts st ∧
  Uses (Nat.iter n count_removed_instruction st) = Uses st ∧
  InstList (Nat.iter n count_removed_instruction st) = InstList st ∧
  Functions (Nat.iter n count_removed_instruction st) = Functions st ∧
  NumBlocksRemoved (Nat.iter n count_removed_instruction st) = NumBlocksRemoved st ∧
  NumInstructionsRemoved (Nat.iter n count_removed_instruction st) =
    n + NumInstructionsRemoved st.
Proof.
  induction n as [|n IH]; simpl; [done|].
  destruct IH as (-> & -> & -> & -> & -> & ->). done.
Qed.

Lemma passes_by_not_no_return a st i : passes_by a st i → ¬ no_return_call st i.
Proof.
  intros Hp (ty & Hk & Hnr). destruct (Hp ty Hk) as [?|[? _]]; congruence.
Qed.

Section Truncation.
Variable assertions : bool.
Variable order : DenseSetOrder.

Lemma scan_block_found l ToBeDeleted st :
  scan_block assertions l true ToBeDeleted st =
  Some ((true, foldl (λ set J, DenseSet_insert J set) ToBeDeleted l),
        Nat.iter (length l) count_removed_instruction st).
Proof.
  revert ToBeDeleted st. induction l as [|i l IH]; intros S st; simpl; [done|].
  unfold bind, lift. rewrite IH. do 2 f_equal.
  clear. induction (length l) as [|n IHn]; simpl; [done|]. by rewrite IHn.
Qed.

Lemma scan_block_step_passes i l ToBeDeleted st :
  passes_by assertions st i →
  scan_block assertions (i :: l) false ToBeDeleted st =
  scan_block assertions l false ToBeDeleted st.
Proof.
  intros Hp. simpl. unfold passes_by in Hp.
  destruct (getKind i st) as [[]|]; try done.
  destruct (Hp _ eq_refl) as [Hty|[Hty ->]];
    unfold isCallToNoReturn, bind, ret, assert; by rewrite Hty.
Qed.

Lemma scan_block_step_no_return i l ToBeDeleted st :
  no_return_call st i →
  scan_block assertions (i :: l) false ToBeDeleted st =
  scan_block assertions l true ToBeDeleted st.
Proof.
  intros (ty & Hk & Hty). simpl. rewrite Hk.
  unfold isCallToNoReturn, bind, ret. by rewrite Hty.
Qed.

Lemma scan_block_passes l ToBeDeleted st :
  (∀ i, i ∈ l → passes_by assertions st i) →
  scan_block assertions l false ToBeDeleted st = Some ((false, ToBeDeleted), st).
Proof.
  induction l as [|i l IH]; intros Hp; [done|].
  rewrite scan_block_step_passes by (apply Hp; left).
  apply IH. intros j Hj. apply Hp. by right.
Qed.

Lemma scan_block_split pre call tail ToBeDeleted st :
  (∀ i, i ∈ pre → passes_by assertions st i) → no_return_call st call →
  scan_block assertions (pre ++ call :: tail) false ToBeDeleted st =
  Some ((true, foldl (λ set J, DenseSet_insert J set) ToBeDeleted tail),
        Nat.iter (length tail) count_removed_instruction st).
Proof.
  induction pre as [|i pre IH]; intros Hp Hc; simpl app.
  - rewrite scan_block_step_no_return by done. apply scan_block_found.
  - rewrite scan_block_step_passes by (apply Hp; left).
    apply IH; [|done]. intros j Hj. apply Hp. by right.
Qed.

(** What a walk that came to an end has seen. *)
Lemma scan_block_inv l ToBeDeleted st found ToBeDeleted' st' :
  scan_block assertions l false ToBeDeleted st = Some ((found, ToBeDeleted'), st') →
  (found = false ∧ (∀ i, i ∈ l → passes_by assertions st i)) ∨
  (found = true ∧ ∃ pre call tail,
     l = pre ++ call :: tail ∧ (∀ i, i ∈ pre → passes_by assertions st i) ∧
     no_return_call st call).
Proof.
  induction l as [|i l IH]; intros Hs.
  - simpl in Hs. unfold ret in Hs. simplify_eq. left. split; [done|].
    intros i Hi. by apply not_elem_of_nil in Hi.
  - assert (passes_by assertions st i ∨ no_return_call st i ∨
            scan_block assertions (i :: l) false ToBeDeleted st = None) as [Hp|[Hn|Hnone]].
    { unfold passes_by, no_return_call. simpl.
      destruct (getKind i st) as [[v|ty| | | | |]|] eqn:Hk; try (left; by intros).
      unfold isCallToNoReturn, bind, ret, assert, abort.
      destruct (getAs_FunctionType ty) as [[]|] eqn:Hty.
      - right. left. by exists ty.
      - left. intros ty' ?. simplify_eq. by left.
      - destruct assertions; [by right; right|]. left. intros ty' ?. simplify_eq.
        by right. }
    + rewrite scan_block_step_passes in Hs by done.
      destruct (IH Hs) as [[-> Hall]|[-> (pre & call & tail & -> & Hpre & Hcall)]].
      * left. split; [done|]. intros j [->|?]%elem_of_cons; auto.
      * right. split; [done|]. exists (i :: pre), call, tail. split_and!; [done| |done].
        intros j [->|?]%elem_of_cons; auto.
    + rewrite scan_block_step_no_return in Hs by done.
      rewrite scan_block_found in Hs. simplify_eq. right. split; [done|].
      exists [], i, l. split_and!; [done| |done]. intros j Hj.
      by apply not_elem_of_nil in Hj.
    + congruence.
Qed.

(** The truncation when no call of the block is to a no-return function. *)
Lemma simplifyBlocks_passes BB st :
  (∀ i, i ∈ InstList st BB → passes_by assertions st i) →
  simplifyBlocksWithCallsToNoReturn assertions order BB st = Some (false, st).
Proof.
  intros Hp. unfold simplifyBlocksWithCallsToNoReturn, bind.
  by rewrite scan_block_passes.
Qed.

(** The truncation at the first call to a no-return function. *)
Lemma simplifyBlocks_no_return BB st pre call tail r st' :
  InstList st BB = pre ++ call :: tail →
  (∀ i, i ∈ pre → passes_by assertions st i) → no_return_call st call →
  simplifyBlocksWithCallsToNoReturn assertions order BB st = Some (r, st') →
  ∃ E' st1,
    let st0 := Nat.iter (length tail) count_removed_instruction st in
    r = true ∧ st' = (createUnreachable BB st1).2 ∧
    deletion (operand_slots st0 (tail ++ E')) (tail ++ E') st0 st1 ∧
    (∀ j, j ∈ E' → deletable st j).
Proof.
  intros Hl Hp Hc. unfold simplifyBlocksWithCallsToNoReturn, bind.
  rewrite Hl, scan_block_split by done.
  set (TBD := foldl _ _ _). set (st0 := Nat.iter _ _ _).
  change (negb true) with false. cbv beta iota.
  destruct (eraseAndCleanup order TBD st0) as [[r1 st1]|] eqn:Hst1; [|done].
  unfold lift, ret. intros ?; simplify_eq.
  apply eraseAndCleanup_spec in Hst1 as (_ & E' & Hdel & Hd & _).
  exists E', st1. split; [done|]. split; [done|]. split.
  - eapply deletion_ext; [| |exact Hdel].
    + intros [i k]. rewrite !elem_of_operand_slots, !elem_of_app.
      unfold TBD. rewrite elem_of_foldl_DenseSet_insert, elem_of_nil. tauto.
    + intros i. rewrite !elem_of_app. unfold TBD.
      rewrite elem_of_foldl_DenseSet_insert, elem_of_nil. tauto.
  - intros j Hj. specialize (Hd j Hj). unfold deletable in *. unfold st0 in Hd.
    by destruct (count_removed_iter_deletion (length tail) st) as (<- & _).
Qed.

Lemma simplifyBlocks_inv BB st r st' :
  simplifyBlocksWithCallsToNoReturn assertions order BB st = Some (r, st') →
  (r = false ∧ st' = st ∧ (∀ i, i ∈ InstList st BB → passes_by assertions st i)) ∨
  (r = true ∧ ∃ pre call tail,
     InstList st BB = pre ++ call :: tail ∧
     (∀ i, i ∈ pre → passes_by assertions st i) ∧ no_return_call st call).
Proof.
  intros Hs. unfold simplifyBlocksWithCallsToNoReturn, bind in Hs.
  destruct (scan_block _ _ _ _ _) as [[[found TBD] s1]|] eqn:Hscan; [|done].
  destruct (scan_block_inv _ _ _ _ _ _ Hscan)
    as [[-> Hall]|[-> (pre & call & tail & Hl & Hpre & Hc)]].
  - left. rewrite scan_block_passes in Hscan by done. simplify_eq.
    simpl in Hs. unfold ret in Hs. by simplify_eq.
  - right. split; [|by exists pre, call, tail].
    simpl in Hs. unfold bind, lift, ret in Hs.
    destruct (eraseAndCleanup _ _ _) as [[? ?]|]; [|done]. by simplify_eq.
Qed.

End Truncation.

Section Folding.
Variable assertions : bool.
Variable order : DenseSetOrder.

Lemma getTerminator_Some BB st TI :
  last (InstList st BB) = Some TI → getTerminator BB st = Some (TI, st).
Proof. intros H. unfold getTerminator. by rewrite H. Qed.

Lemma getTerminator_inv BB st TI st' :
  getTerminator BB st = Some (TI, st') → st' = st ∧ last (InstList st BB) = Some TI.
Proof.
  unfold getTerminator. destruct (last (InstList st BB)); [|done].
  intros ?; by simplify_eq.
Qed.

Lemma constantFoldTerminator_not_foldable BB st TI :
  last (InstList st BB) = Some TI → not_foldable st TI →
  constantFoldTerminator assertions order BB st = Some (false, st).
Proof.
  intros Hl Hn. unfold constantFoldTerminator, bind. rewrite (getTerminator_Some _ _ _ Hl).
  unfold not_foldable in Hn. destruct (getKind TI st) as [[]|]; try done.
  destruct Hn as (V & -> & HV). destruct V as [c|]; simpl; [|done].
  destruct (getKind c st) as [[]|] eqn:Hk; try done. by destruct (HV c value eq_refl).
Qed.

Lemma APInt_eq_single_bit value v st :
  BitWidth value = 1%N →
  APInt_eq assertions value (APInt_of 1 v) st =
  Some (bool_decide (VAL value = (v mod 2)%Z), st).
Proof.
  intros Hw. unfold APInt_eq, bind, assert, ret. simpl. rewrite Hw.
  by destruct assertions.
Qed.

(** The fold of a conditional branch on a single-bit literal. *)
Lemma constantFoldTerminator_literal BB st TI T F n c value :
  last (InstList st BB) = Some TI →
  getKind TI st = Some (CondBranchInst T F n) →
  getAllOperands TI st !! 0 = Some (Some (InstValue c)) →
  getKind c st = Some (IntegerLiteralInst value) →
  BitWidth value = 1%N → (VAL value = 0 ∨ VAL value = 1)%Z →
  let st1 := (createBranch BB (taken_successor value T F)
                (taken_arguments value n (getAllOperands TI st)) st).2 in
  constantFoldTerminator assertions order BB st =
  (let* _ := eraseAndCleanup_inst order TI in ret true) st1.
Proof.
  intros Hl Hk Hop Hc Hw Hv st1. unfold constantFoldTerminator.
  unfold bind at 1. rewrite (getTerminator_Some _ _ _ Hl). rewrite Hk, Hop.
  simpl. rewrite Hc.
  unfold bind at 1. rewrite APInt_eq_single_bit by done.
  change (0 mod 2)%Z with 0%Z.
  unfold st1, taken_successor, taken_arguments.
  case_bool_decide as H0.
  - by unfold bind, lift, ret.
  - unfold bind at 1. unfold bind at 1. rewrite APInt_eq_single_bit by done.
    change (1 mod 2)%Z with 1%Z.
    rewrite bool_decide_true by (by destruct Hv).
    unfold assert. destruct assertions; by unfold bind, lift, ret.
Qed.

(** What the folder has done when it comes back. *)
Lemma constantFoldTerminator_inv BB st r st' :
  constantFoldTerminator assertions order BB st = Some (r, st') →
  ∃ TI, last (InstList st BB) = Some TI ∧
    ((r = false ∧ st' = st ∧ not_foldable st TI) ∨
     (r = true ∧ ∃ T F n c value dest args,
        getKind TI st = Some (CondBranchInst T F n) ∧
        getAllOperands TI st !! 0 = Some (Some (InstValue c)) ∧
        getKind c st = Some (IntegerLiteralInst value) ∧
        dest ∈ [T; F] ∧
        (∀ a, a ∈ args → a ∈ getAllOperands TI st) ∧
        eraseAndCleanup_inst order TI (createBranch BB dest args st).2 =
          Some (false, st'))).
Proof.
  unfold constantFoldTerminator. unfold bind at 1.
  destruct (getTerminator BB st) as [[TI s]|] eqn:Ht; [|done].
  apply getTerminator_inv in Ht as [-> Hl]. intros Hf. exists TI. split; [done|].
  unfold not_foldable.
  destruct (getKind TI st) as [[v|ty|T F n|d| |l|]|] eqn:Hk;
    try (left; by simplify_eq).
  destruct (getAllOperands TI st !! 0) as [[V|]|] eqn:Hop; try done.
  destruct V as [c|b k]; simpl in Hf.
  2:{ left. simplify_eq. split_and!; try done. exists (ArgValue b k). by split. }
  destruct (getKind c st) as [[value|ty|? ? ?|?| |?|]|] eqn:Hc;
    try (left; simplify_eq; split_and!; try done; exists (InstValue c);
         split; [done|]; intros; simplify_eq; congruence).
  right.
  assert (∃ dest args, dest ∈ [T; F] ∧ (∀ a, a ∈ args → a ∈ getAllOperands TI st) ∧
            (let* _ := eraseAndCleanup_inst order TI in ret true)
              (createBranch BB dest args st).2 = Some (r, st')) as (dest & args & ? & ? & He).
  { unfold bind at 1 in Hf.
    destruct (APInt_eq assertions value (APInt_of 1 0) st) as [[is0 s]|] eqn:H0; [|done].
    assert (s = st) as ->.
    { unfold APInt_eq, bind, assert, ret, abort in H0.
      destruct assertions, (bool_decide _); by simplify_eq. }
    destruct is0.
    - exists F, (drop (S n) (getAllOperands TI st)). split; [set_solver|].
      split; [intros a Ha; by eapply subseteq_drop|]. exact Hf.
    - unfold bind at 1 in Hf. unfold bind at 1 in Hf. unfold bind at 1 in Hf.
      destruct (APInt_eq assertions value (APInt_of 1 1) st) as [[is1 s]|] eqn:H1; [|done].
      assert (s = st) as ->.
      { unfold APInt_eq, bind, assert, ret, abort in H1.
        destruct assertions, (bool_decide _); by simplify_eq. }
      unfold bind at 1 in Hf.
      destruct (assert assertions is1 st) as [[[] s]|] eqn:Ha; [|done].
      assert (s = st) as ->.
      { unfold assert, ret, abort in Ha. destruct assertions, is1; by simplify_eq. }
      exists T, (take n (drop 1 (getAllOperands TI st))). split; [set_solver|].
      split; [|exact Hf].
      intros a Ha'. eapply subseteq_drop, subseteq_take. exact Ha'. }
  unfold bind, ret in He.
  destruct (eraseAndCleanup_inst _ _ _) as [[r1 s1]|] eqn:Her; [|done]. simplify_eq.
  split; [done|]. exists T, F, n, c, value, dest, args. split_and!; try done.
  unfold eraseAndCleanup_inst in *.
  pose proof (eraseAndCleanup_spec _ _ _ _ _ Her) as [-> _]. done.
Qed.

End Folding.

Lemma last_filter_keep {A} (P : A → Prop) `{!∀ x, Decision (P x)} (l : list A) x :
  last l = Some x → P x → last (filter P l) = Some x.
Proof.
  intros [l' ->]%last_Some HP. rewrite filter_app, filter_cons_True by done.
  simpl. apply last_snoc.
Qed.

Lemma deletion_last O E st st' b TI :
  deletion O E st st' → last (InstList st b) = Some TI → TI ∉ E →
  last (InstList st' b) = Some TI.
Proof.
  intros H Hl Hn. rewrite (del_instlist _ _ _ _ H). by apply last_filter_keep.
Qed.

Lemma deletable_not_terminator st j k :
  deletable st j → getKind j st = Some k → isa_TermInst k = false.
Proof.
  intros (ins & Hi & Ht & _). unfold getKind. rewrite Hi. simpl. by intros [= <-].
Qed.

Lemma successors_Some BB st TI :
  last (InstList st BB) = Some TI →
  successors BB st = Some (block_successors st BB, st).
Proof.
  intros Hl. unfold successors, bind, block_successors.
  rewrite (getTerminator_Some _ _ _ Hl). by rewrite Hl.
Qed.

Lemma successors_inv BB st l st' :
  successors BB st = Some (l, st') → st' = st ∧ l = block_successors st BB.
Proof.
  unfold successors, bind, block_successors.
  destruct (getTerminator BB st) as [[TI s]|] eqn:Ht; [|done].
  apply getTerminator_inv in Ht as [-> ->]. intros ?; by simplify_eq.
Qed.

Lemma visit_successors_spec succs R W R' W' :
  visit_successors succs R W = (R', W') →
  ∃ new, R' = R ++ new ∧ length W' = length new + length W ∧
         (∀ x, x ∈ W' ↔ x ∈ new ∨ x ∈ W) ∧
         (∀ x, x ∈ new ↔ x ∈ succs ∧ x ∉ R) ∧ (NoDup R → NoDup R').
Proof.
  revert R W. induction succs as [|SI succs IH]; intros R W Hv; simpl in Hv.
  - simplify_eq. exists []. rewrite app_nil_r. split_and!; try done.
    + intros x. rewrite elem_of_nil. tauto.
    + intros x. rewrite !elem_of_nil. tauto.
  - case_decide as HSI.
    + destruct (IH _ _ Hv) as (new & -> & Hlen & HW & Hnew & Hnd).
      exists new. split_and!; try done. intros x. rewrite Hnew, elem_of_cons.
      split; [tauto|]. intros [[->|?] ?]; tauto.
    + destruct (IH _ _ Hv) as (new & -> & Hlen & HW & Hnew & Hnd).
      exists (SI :: new). split_and!.
      * by rewrite <-app_assoc.
      * rewrite Hlen. simpl. lia.
      * intros x. rewrite HW, !elem_of_cons. tauto.
      * intros x. rewrite !elem_of_cons, Hnew, elem_of_app, list_elem_of_singleton.
        destruct (decide (x = SI)) as [->|]; tauto.
      * intros HR. apply Hnd. apply NoDup_app. split_and!; [done| |apply NoDup_singleton].
        intros x Hx ->%list_elem_of_singleton. done.
Qed.

Section Reach.
Variable st : SILModule.
Variable entry : nat.

Lemma reach_loop_inv fuel R W R' st' :
  reach_loop fuel R W st = Some (R', st') →
  NoDup R → (∀ b, b ∈ W → b ∈ R) → (∀ b, b ∈ R → reachable st entry b) →
  (∀ b b', b ∈ R → b ∉ W → b' ∈ block_successors st b → b' ∈ R) →
  st' = st ∧ NoDup R' ∧ (∀ b, b ∈ R → b ∈ R') ∧
  (∀ b, b ∈ R' → reachable st entry b) ∧
  (∀ b b', b ∈ R' → b' ∈ block_successors st b → b' ∈ R').
Proof.
  revert R W. induction fuel as [|fuel IH]; intros R [|BB W] Hr Hnd HW Hreach Hclosed;
    simpl in Hr; unfold ret, abort in Hr; simplify_eq.
  - split_and!; try done. intros b b' Hb. apply Hclosed; [done|]. apply not_elem_of_nil.
  - split_and!; try done. intros b b' Hb. apply Hclosed; [done|]. apply not_elem_of_nil.
  - unfold bind in Hr. destruct (successors BB st) as [[succs s]|] eqn:Hs; [|done].
    apply successors_inv in Hs as [-> ->].
    destruct (visit_successors _ R W) as [R1 W1] eqn:Hv.
    apply visit_successors_spec in Hv as (new & -> & _ & HW1 & Hnew & Hnd1).
    apply IH in Hr as (-> & ? & Hsub & ? & ?).
    + split_and!; try done. intros b Hb. apply Hsub, elem_of_app. by left.
    + by apply Hnd1.
    + intros b [Hb|Hb]%HW1; apply elem_of_app; [by right|left]. apply HW. by right.
    + intros b [Hb|Hb]%elem_of_app; [by apply Hreach|].
      apply Hnew in Hb as [Hb _]. eapply rtc_r; [|exact Hb]. apply Hreach, HW. left.
    + intros b b' Hb HbW Hb'.
      assert (b ∉ new) as Hbn. { intros ?. apply HbW, HW1. by left. }
      apply elem_of_app in Hb as [Hb|?]; [|done].
      destruct (decide (b' ∈ R)) as [?|Hb'R]; [apply elem_of_app; by left|].
      destruct (decide (b = BB)) as [->|Hne].
      * apply elem_of_app. right. by apply Hnew.
      * exfalso. apply Hb'R. apply (Hclosed b b'); [done| |done].
        intros [?|?]%elem_of_cons; [done|]. apply HbW, HW1. by right.
Qed.

Lemma reach_loop_total blocks fuel R W :
  (∀ b, b ∈ blocks → InstList st b ≠ []) →
  (∀ b b', b ∈ blocks → b' ∈ block_successors st b → b' ∈ blocks) →
  NoDup R → (∀ b, b ∈ R → b ∈ blocks) → (∀ b, b ∈ W → b ∈ R) →
  length W + length blocks ≤ fuel + length R →
  is_Some (reach_loop fuel R W st).
Proof.
  intros Hne Hsucc. revert R W.
  induction fuel as [|fuel IH]; intros R [|BB W] Hnd HR HW Hlen; simpl; try done.
  - exfalso. assert (length R ≤ length blocks); [|simpl in Hlen; lia].
    apply submseteq_length, NoDup_submseteq; done.
  - assert (BB ∈ blocks) as HBB by (apply HR, HW; left).
    destruct (last (InstList st BB)) as [TI|] eqn:Hl.
    2:{ apply last_None in Hl. by destruct (Hne BB HBB). }
    unfold bind. rewrite (successors_Some _ _ _ Hl).
    destruct (visit_successors _ R W) as [R1 W1] eqn:Hv.
    apply visit_successors_spec in Hv as (new & -> & HlenW & HW1 & Hnew & Hnd1).
    apply IH.
    + by apply Hnd1.
    + intros b [?|Hb]%elem_of_app; [by apply HR|].
      apply Hnew in Hb as [Hb _]. by eapply Hsucc.
    + intros b [Hb|Hb]%HW1; apply elem_of_app; [by right|left]. apply HW. by right.
    + rewrite HlenW, length_app. simpl in Hlen. lia.
Qed.

End Reach.

(** The worklist computes the blocks reachable from the entry block. *)
Lemma reach_loop_reachable st blocks front rest :
  blocks = front :: rest → well_formed_function st blocks →
  ∃ Reachable,
    reach_loop (S (length blocks)) [front] [front] st = Some (Reachable, st) ∧
    NoDup Reachable ∧ (∀ b, b ∈ Reachable ↔ reachable st front b) ∧
    (∀ b, b ∈ Reachable → b ∈ blocks).
Proof.
  intros Hb Hwf.
  assert (∀ b, b ∈ blocks → InstList st b ≠ []) as Hne.
  { intros b Hin. destruct (wff_terminated _ _ Hwf b Hin) as (TI & k & Hl & _).
    intros Hnil. by rewrite Hnil in Hl. }
  assert (front ∈ blocks) as Hf by (subst; left).
  destruct (reach_loop_total st blocks (S (length blocks)) [front] [front])
    as [[R s] Hr]; try done.
  - apply (wff_successors _ _ Hwf).
  - apply NoDup_singleton.
  - by intros b ->%list_elem_of_singleton.
  - simpl. lia.
  - apply (reach_loop_inv st front) in Hr as Hi.
    + destruct Hi as (-> & Hnd & Hsub & Hsound & Hclosed).
      assert (∀ b, reachable st front b → b ∈ R) as Hcomplete.
      { intros b Hreach. unfold reachable in Hreach. revert b Hreach.
        apply rtc_ind_r; [apply Hsub; left|].
        intros y z _ Hyz Hy. by eapply Hclosed. }
      exists R. split_and!; try done.
      * intros b. split; auto.
      * intros b Hbr. apply Hsound in Hbr. unfold reachable in Hbr. revert b Hbr.
        apply rtc_ind_r; [done|].
        intros y z _ Hyz Hy. by eapply (wff_successors _ _ Hwf).
    + apply NoDup_singleton.
    + done.
    + intros b ->%list_elem_of_singleton. apply rtc_refl.
    + intros b b' Hb1 Hb2. done.
Qed.

Lemma eraseAndCleanup_inst_eq order TI :
  eraseAndCleanup_inst order TI = eraseAndCleanup order [TI].
Proof. reflexivity. Qed.

Lemma terminated_deletion O E st st' b :
  deletion O E st st' → terminated st b → (∀ j, j ∈ E → j ∉ InstList st b ∨ deletable st j) →
  terminated st' b.
Proof.
  intros H (TI & k & Hl & Hk & Ht) HE. exists TI, k. split_and!; [|by rewrite (deletion_getKind _ _ _ _ _ H)|done].
  eapply deletion_last; [done..|]. intros Hin.
  destruct (HE TI Hin) as [Hn|Hd].
  - apply Hn. by apply last_Some_elem_of.
  - pose proof (deletable_not_terminator _ _ _ Hd Hk). congruence.
Qed.

Section Sweep.
Variable assertions : bool.
Variable order : DenseSetOrder.

Lemma erase_terminator_inv BB st r st' :
  erase_terminator order BB st = Some (r, st') →
  ∃ TI E', last (InstList st BB) = Some TI ∧
    deletion (operand_slots st (TI :: E')) (TI :: E') st st' ∧
    (∀ j, j ∈ E' → deletable st j).
Proof.
  unfold erase_terminator, bind, ret.
  destruct (getTerminator BB st) as [[TI s]|] eqn:Ht; [|done].
  apply getTerminator_inv in Ht as [-> Hl].
  destruct (eraseAndCleanup_inst order TI st) as [[r1 s1]|] eqn:He; [|done].
  intros ?; simplify_eq. rewrite eraseAndCleanup_inst_eq in He.
  apply eraseAndCleanup_spec in He as (_ & E' & Hdel & Hd & _).
  by exists TI, E'.
Qed.

Lemma erase_terminators_inv dead st r st' :
  for_each dead (erase_terminator order) st = Some (r, st') →
  ∃ E, deletion (operand_slots st E) E st st' ∧
       (∀ j, j ∈ E → deletable st j ∨ ∃ b, b ∈ dead ∧ j ∈ InstList st b).
Proof.
  revert st. induction dead as [|BB dead IH]; intros st Hf; simpl in Hf.
  - unfold ret in Hf. simplify_eq. exists []. split; [apply deletion_refl|].
    intros j Hj. by apply not_elem_of_nil in Hj.
  - unfold bind in Hf. destruct (erase_terminator order BB st) as [[[] s]|] eqn:He; [|done].
    apply erase_terminator_inv in He as (TI & E' & Hl & Hdel & Hd).
    destruct (IH _ Hf) as (E & HE & HEin). clear IH Hf.
    exists ((TI :: E') ++ E). split.
    + rewrite operand_slots_app. rewrite (operand_slots_deletion _ _ _ _ _ Hdel) in HE.
      by eapply deletion_trans.
    + intros j [[->|Hj]%elem_of_cons|Hj]%elem_of_app.
      * right. exists BB. split; [left|]. by apply last_Some_elem_of.
      * left. by apply Hd.
      * destruct (HEin j Hj) as [?|(b & Hb & Hjb)].
        -- left. by apply (proj1 (deletion_deletable _ _ _ _ j Hdel)).
        -- right. exists b. split; [by right|].
           rewrite (del_instlist _ _ _ _ Hdel), list_elem_of_filter in Hjb. tauto.
Qed.

(** What the sweep has done when it comes back. *)
Lemma removeUnreachableBlocks_inv F st r st' :
  removeUnreachableBlocks assertions order F st = Some (r, st') →
  (r = false ∧ st' = st ∧ default [] (Functions st !! F) = []) ∨
  ∃ front rest Reachable,
    Functions st !! F = Some (front :: rest) ∧
    reach_loop (S (S (length rest))) [front] [front] st = Some (Reachable, st) ∧
    ((r = false ∧ st' = st ∧ length Reachable = S (length rest)) ∨
     (r = true ∧ length Reachable ≠ S (length rest) ∧
      ∃ E st2,
        deletion (operand_slots st E) E st st2 ∧
        st' = set_blocks F (filter (λ BB, BB ∈ Reachable) (front :: rest))
                (length (filter (λ BB, BB ∉ Reachable) (front :: rest))) st2 ∧
        (∀ b i, b ∈ (front :: rest) → b ∉ Reachable → i ∈ InstList st b → i ∈ E) ∧
        (∀ j, j ∈ E → deletable st j ∨
                       (∃ b, b ∈ (front :: rest) ∧ (b ∉ Reachable) ∧ j ∈ InstList st b)))).
Proof.
  unfold removeUnreachableBlocks.
  destruct (Functions st !! F) as [[|front rest]|] eqn:HF; cbn [from_option id];
    try (intros ?; simplify_eq; by left).
  intros Hr. right. exists front, rest.
  unfold bind at 1 in Hr.
  destruct (reach_loop _ _ _ _) as [[Reachable s]|] eqn:Hreach; [|done].
  assert (s = st) as ->.
  { eapply (reach_loop_inv st front) in Hreach as (-> & _); try done.
    - apply NoDup_singleton.
    - intros b ->%list_elem_of_singleton. apply rtc_refl. }
  exists Reachable. split; [done|]. split; [done|].
  unfold bind at 1 in Hr.
  destruct (assert assertions _ st) as [[[] s]|] eqn:Ha; [|done].
  assert (s = st) as ->.
  { unfold assert, ret, abort in Ha. destruct assertions, (bool_decide _); by simplify_eq. }
  clear Ha. case_bool_decide as Hlen.
  { left. unfold ret in Hr. simplify_eq. split_and!; [done..|exact Hlen]. }
  right. split; [|split; [exact Hlen|]].
  2:{ unfold bind at 1 in Hr.
      set (dead := filter (λ BB, BB ∉ Reachable) (front :: rest)) in *.
      destruct (for_each dead (erase_terminator order) st) as [[[] s1]|] eqn:Ht; [|done].
      apply erase_terminators_inv in Ht as (E1 & HE1 & HE1in).
      unfold bind at 1 in Hr.
      destruct (eraseAndCleanup order _ s1) as [[r2 s2]|] eqn:He; [|done].
      apply eraseAndCleanup_spec in He as (_ & E' & HE2 & HE2d & _).
      unfold bind, lift, ret in Hr. simplify_eq.
      set (TBD := foldl _ _ _) in *.
      exists (E1 ++ TBD ++ E'), s2. split_and!; [|done| |].
      - rewrite operand_slots_app. rewrite (operand_slots_deletion _ _ _ _ _ HE1) in HE2.
        by eapply deletion_trans.
      - intros b i Hb HbR Hi. rewrite !elem_of_app.
        destruct (decide (i ∈ E1)) as [?|HiE1]; [by left|]. right. left.
        unfold TBD. rewrite elem_of_foldl_DenseSet_insert. right.
        apply elem_of_concat. exists (InstList s1 b). split.
        + apply list_elem_of_fmap_2. unfold dead. by apply list_elem_of_filter.
        + rewrite (del_instlist _ _ _ _ HE1), list_elem_of_filter. done.
      - intros j [Hj|[Hj|Hj]%elem_of_app]%elem_of_app.
        + destruct (HE1in j Hj) as [?|(b & [? ?]%list_elem_of_filter & ?)]; [by left|].
          right. by exists b.
        + right. unfold TBD in Hj.
          rewrite elem_of_foldl_DenseSet_insert, elem_of_nil in Hj.
          destruct Hj as [[]|Hj].
          apply elem_of_concat in Hj as (l & Hl & Hjl).
          apply list_elem_of_fmap in Hl as (b & -> & [? ?]%list_elem_of_filter).
          exists b. split_and!; [done..|].
          rewrite (del_instlist _ _ _ _ HE1), list_elem_of_filter in Hjl. tauto.
        + left. apply (proj1 (deletion_deletable _ _ _ _ j HE1)). by apply HE2d. }
  unfold bind in Hr.
  destruct (for_each _ _ st) as [[[] s1]|]; [|done].
  destruct (eraseAndCleanup order _ s1) as [[r2 s2]|]; [|done].
  unfold lift, ret in Hr. by simplify_eq.
Qed.

End Sweep.

(** ** The liveness test *)

(** C7: the liveness test answers true exactly for an instruction that is
    no terminator, has an empty use-list and has no side effects; it
    answers false as soon as one of the three fails. *)
Theorem isInstructionTriviallyDead_iff (st : SILModule) (I : nat) (ins : SILInstruction) :
  Insts st !! I = Some ins →
  (isInstructionTriviallyDead I st = true ↔
     isa_TermInst (Kind ins) = false ∧ Uses st (InstValue I) = [] ∧
     SideEffects ins = false) ∧
  (isInstructionTriviallyDead I st = false ↔
     isa_TermInst (Kind ins) = true ∨ Uses st (InstValue I) ≠ [] ∨
     SideEffects ins = true).
Proof.
  intros Hi. unfold isInstructionTriviallyDead, use_empty. rewrite Hi.
  destruct (Uses st (InstValue I)) as [|o l], (isa_TermInst (Kind ins)),
    (SideEffects ins); simpl;
    (split; [split; [intros ?|intros (? & ? & ?)]|split; [intros ?|intros [?|[?|?]]]]);
    try done; first [left; done|right; left; done|right; right; done].
Qed.

Lemma isInstructionTriviallyDead_iff_witness :
  Insts unused_value !! 0 = Some (mkInst OtherInst false []) ∧
  isInstructionTriviallyDead 0 unused_value = true.
Proof.
  split; [reflexivity|].
  apply (isInstructionTriviallyDead_iff unused_value 0 (mkInst OtherInst false []));
    [reflexivity|]. split_and!; reflexivity.
Defined.

(** ** The set deletion *)

(** C2: deleting the branch of [branch_with_argument] also deletes the
    instruction the branch read, which was not in the set, and yet the
    answer is false. *)
Theorem eraseAndCleanup_additional_deletion_unreported :
  InstList branch_with_argument 0 = [0; 1] ∧
  (λ r, (r.1, InstList r.2 0)) <$> eraseAndCleanup insertion_order [1] branch_with_argument
  = Some (false, []).
Proof. split; vm_compute; reflexivity. Qed.

(** ** Calls whose callee is no function *)

(** C8, as stated, fails with assertions compiled in: the query on a
    callee type that is no function type stops at the assertion, and the
    pass stops with it. *)
Lemma unresolved_callee_stops_the_pass :
  getAs_FunctionType OtherType = None ∧
  isCallToNoReturn true OtherType unresolved_callee = None ∧
  simplifyBlocksWithCallsToNoReturn true insertion_order 0 unresolved_callee = None ∧
  performSILDeadCodeElimination true insertion_order unresolved_callee = None.
Proof. split_and!; vm_compute; reflexivity. Qed.

Lemma for_each_inv {A} (R : relation SILModule) `{!PreOrder R} (body : A → M unit)
    (l : list A) st r st' :
  (∀ x s r s', x ∈ l → body x s = Some (r, s') → R s s') →
  for_each l body st = Some (r, st') → R st st'.
Proof.
  revert st. induction l as [|x l IH]; intros st Hbody Hf; simpl in Hf.
  - unfold ret in Hf. by simplify_eq.
  - unfold bind in Hf. destruct (body x st) as [[[] s]|] eqn:Hx; [|done].
    transitivity s.
    + eapply Hbody; [left|done].
    + apply IH; [|done]. intros y s0 r0 s0' Hy. apply Hbody. by right.
Qed.

(** ** Every operation is made of four primitives

    A relation on stores that is a preorder and holds across a deletion,
    an insertion by the builder, a step of the instruction counter and the
    removal of blocks from a function holds across every operation of the
    pass. *)
Section Primitives.
Variable R : relation SILModule.
Context `{!PreOrder R}.
Hypothesis R_deletion : ∀ E st st',
  deletion (operand_slots st E) E st st' → R st st'.
Hypothesis R_insert : ∀ BB k args st, R st (SILBuilder_insert BB k args st).2.
Hypothesis R_count : ∀ st, R st (count_removed_instruction st).
Hypothesis R_blocks : ∀ F blocks (Reachable : list nat) st,
  Functions st !! F = Some blocks →
  R st (set_blocks F (filter (λ BB, BB ∈ Reachable) blocks)
          (length (filter (λ BB, BB ∉ Reachable) blocks)) st).
Variable assertions : bool.
Variable order : DenseSetOrder.

Lemma R_count_iter n st : R st (Nat.iter n count_removed_instruction st).
Proof.
  induction n as [|n IH]; simpl; [reflexivity|].
  etransitivity; [exact IH|apply R_count].
Qed.

Lemma R_recursivelyDelete I st r st' :
  recursivelyDeleteTriviallyDeadInstructions I st = Some (r, st') → R st st'.
Proof.
  intros (_ & E & HE & _)%recursivelyDelete_spec. by eapply R_deletion.
Qed.

Lemma R_eraseAndCleanup ToBeDeleted st r st' :
  eraseAndCleanup order ToBeDeleted st = Some (r, st') → R st st'.
Proof.
  intros (_ & E & HE & _)%eraseAndCleanup_spec. by eapply R_deletion.
Qed.

Lemma R_constantFoldTerminator BB st r st' :
  constantFoldTerminator assertions order BB st = Some (r, st') → R st st'.
Proof.
  intros (TI & _ & [(_ & -> & _)|(_ & T & F & n & c & v & dest & args & _ & _ & _ & _ & _ & He)])
    %constantFoldTerminator_inv; [reflexivity|].
  etransitivity; [apply (R_insert BB (BranchInst dest) args)|].
  by eapply R_eraseAndCleanup.
Qed.

Lemma R_simplifyBlocks BB st r st' :
  simplifyBlocksWithCallsToNoReturn assertions order BB st = Some (r, st') → R st st'.
Proof.
  intros Hs.
  destruct (simplifyBlocks_inv _ _ _ _ _ _ Hs)
    as [(_ & -> & _)|(-> & pre & call & tail & Hl & Hpre & Hcall)]; [reflexivity|].
  destruct (simplifyBlocks_no_return assertions order BB st pre call tail _ _
              Hl Hpre Hcall Hs) as (E' & st1 & _ & -> & Hdel & _).
  etransitivity; [apply (R_count_iter (length tail))|].
  etransitivity; [by eapply R_deletion|].
  apply (R_insert BB UnreachableInst []).
Qed.

Lemma R_removeUnreachableBlocks F st r st' :
  removeUnreachableBlocks assertions order F st = Some (r, st') → R st st'.
Proof.
  intros [(_ & -> & _)|(front & rest & Reachable & HF & _ &
            [(_ & -> & _)|(_ & _ & E & st2 & Hdel & -> & _)])]%removeUnreachableBlocks_inv;
    [reflexivity..|].
  etransitivity; [by eapply R_deletion|].
  apply R_blocks. by rewrite (del_functions _ _ _ _ Hdel).
Qed.

Lemma R_simplify_block BB st r st' :
  simplify_block assertions order BB st = Some (r, st') → R st st'.
Proof.
  unfold simplify_block, bind. intros Hs.
  destruct (constantFoldTerminator assertions order BB st) as [[folded s]|] eqn:Hf; [|done].
  apply R_constantFoldTerminator in Hf. destruct folded.
  - unfold ret in Hs. by simplify_eq.
  - destruct (simplifyBlocksWithCallsToNoReturn assertions order BB s) as [[r1 s1]|] eqn:Ht;
      [|done].
    apply R_simplifyBlocks in Ht. unfold ret in Hs. simplify_eq. by etransitivity.
Qed.

Lemma R_run_on_function F st r st' :
  run_on_function assertions order F st = Some (r, st') → R st st'.
Proof.
  unfold run_on_function, bind. intros Hs.
  destruct (for_each _ _ st) as [[[] s]|] eqn:Hf; [|done].
  apply (for_each_inv R) in Hf; [|intros x s0 r0 s0' _; apply R_simplify_block].
  destruct (removeUnreachableBlocks assertions order F s) as [[r1 s1]|] eqn:Hr; [|done].
  apply R_removeUnreachableBlocks in Hr. unfold ret in Hs. simplify_eq. by etransitivity.
Qed.

Lemma R_performSILDeadCodeElimination st r st' :
  performSILDeadCodeElimination assertions order st = Some (r, st') → R st st'.
Proof.
  unfold performSILDeadCodeElimination. intros Hs.
  apply (for_each_inv R) in Hs; [done|]. intros x s0 r0 s0' _. apply R_run_on_function.
Qed.

Lemma R_pass_operation st st' : pass_operation assertions order st st' → R st st'.
Proof.
  intros [s I b _|s I r s' H|s T r s' H|s BB r s' H|s BB r s' H|s F r s' H|s s' H].
  - reflexivity.
  - by eapply R_recursivelyDelete.
  - by eapply R_eraseAndCleanup.
  - by eapply R_constantFoldTerminator.
  - by eapply R_simplifyBlocks.
  - by eapply R_removeUnreachableBlocks.
  - by eapply R_performSILDeadCodeElimination.
Qed.

Lemma R_pass_operations st st' : rtc (pass_operation assertions order) st st' → R st st'.
Proof.
  induction 1 as [|x y z Hxy _ IH]; [reflexivity|].
  etransitivity; [by apply R_pass_operation|done].
Qed.

End Primitives.

(** ** Def-use consistency *)

Lemma consistent_same_graph st st' :
  Insts st' = Insts st → Uses st' = Uses st → InstList st' = InstList st →
  consistent st → consistent st'.
Proof.
  intros Hi Hu Hl Hc v i k. unfold linked, getAllOperands. rewrite Hi, Hu, Hl. apply Hc.
Qed.

Lemma deletion_slots_consistent E st st' :
  deletion (operand_slots st E) E st st' → consistent st → consistent st'.
Proof.
  intros H Hc. eapply deletion_consistent; [done..|].
  intros i k Hi Hk. by apply elem_of_operand_slots.
Qed.

Global Instance preserves_PreOrder (P : SILModule → Prop) : PreOrder (λ st st', P st → P st').
Proof. split; [by intros ?|]. intros x y z Hxy Hyz Hx. auto. Qed.

Lemma graph_consistent insts blocks fns : consistent (graph insts blocks fns).
Proof.
  intros v i k. unfold linked, getAllOperands. simpl. unfold graph_uses.
  rewrite list_elem_of_filter, list_elem_of_bind. simpl. split.
  - intros [Hop (j & Hin & Hj)]. apply list_elem_of_fmap in Hin as (k' & ? & _).
    simplify_eq. split; [|done].
    apply elem_of_concat in Hj as (l & Hl & Hj).
    apply list_elem_of_lookup in Hl as (b & Hb). exists b. by rewrite Hb.
  - intros [[b Hb] Hop]. split; [done|]. exists i. split.
    + apply list_elem_of_fmap. exists k. split; [done|]. apply elem_of_seq.
      apply lookup_lt_Some in Hop. lia.
    + destruct (blocks !! b) as [l|] eqn:Hl; simpl in Hb; [|by apply not_elem_of_nil in Hb].
      apply elem_of_concat. exists l. split; [|done]. by eapply list_elem_of_lookup_2.
Qed.

(** C1: def-use consistency is kept by every operation of the pass, hence
    by every sequence of them: afterwards the use-list of every value (in
    particular of every value still in the graph) holds exactly the
    operands of the graph that read it. *)
Theorem def_use_consistency (assertions : bool) (order : DenseSetOrder)
    (st st' : SILModule) :
  consistent st → rtc (pass_operation assertions order) st st' → consistent st'.
Proof.
  intros Hc Hops. revert Hc.
  apply (R_pass_operations (λ s s', consistent s → consistent s')) with assertions order;
    [apply deletion_slots_consistent
    |intros; by apply SILBuilder_insert_consistent
    |intros s Hs; by apply (consistent_same_graph s)
    |intros F blocks Reachable s _ Hs; by apply (consistent_same_graph s)
    |done].
Qed.

Lemma def_use_consistency_witness :
  consistent branch_passing_value ∧
  rtc (pass_operation true insertion_order) branch_passing_value
    branch_passing_value_after ∧
  (Uses branch_passing_value (InstValue 0) = [(2, 0)] ∧
   Uses branch_passing_value (InstValue 1) = [(2, 1)]) ∧
  (Uses branch_passing_value_after (InstValue 0) = [] ∧
   Uses branch_passing_value_after (InstValue 1) = [(5, 0)] ∧
   InstList branch_passing_value_after 0 = [1; 5] ∧
   getAllOperands 5 branch_passing_value_after = [Some (InstValue 1)]) ∧
  consistent branch_passing_value_after.
Proof.
  assert (rtc (pass_operation true insertion_order) branch_passing_value
            branch_passing_value_after) as H.
  { apply rtc_once, op_run. vm_compute. reflexivity. }
  split; [apply graph_consistent|]. split; [exact H|].
  split; [split; vm_compute; reflexivity|].
  split; [split_and!; vm_compute; reflexivity|].
  exact (def_use_consistency true insertion_order _ _
           (graph_consistent _ _ _) H).
Defined.

(** ** Calls whose callee is no function (continued) *)

(** C8, amended: a call whose callee type is no function type is never
    classified as no-return.  Without assertions the query answers false
    and a block whose calls are all of this kind is left as it is; with
    assertions the query stops at the assertion, and so does the walk over
    a block as soon as it meets such a call before any no-return call. *)
Theorem isCallToNoReturn_unresolved (assertions : bool) (order : DenseSetOrder)
    (ty : CanType) (st : SILModule) (BB : nat) :
  getAs_FunctionType ty = None →
  isCallToNoReturn assertions ty st = (if assertions then None else Some (false, st)) ∧
  ((∀ i ty', i ∈ InstList st BB → getKind i st = Some (ApplyInst ty') →
             getAs_FunctionType ty' = None) →
   simplifyBlocksWithCallsToNoReturn false order BB st = Some (false, st)) ∧
  (∀ pre i tail,
     InstList st BB = pre ++ i :: tail → getKind i st = Some (ApplyInst ty) →
     (∀ j, j ∈ pre → passes_by true st j) →
     simplifyBlocksWithCallsToNoReturn true order BB st = None).
Proof.
  intros Hty. split_and!.
  - unfold isCallToNoReturn, bind, assert, ret, abort. rewrite Hty. by destruct assertions.
  - intros Hall. apply simplifyBlocks_passes. intros i Hi ty' Hk. right.
    split; [by eapply Hall|done].
  - intros pre i tail Hl Hk Hpre. unfold simplifyBlocksWithCallsToNoReturn, bind.
    rewrite Hl. clear Hl.
    assert (∀ S, scan_block true (pre ++ i :: tail) false S st = None) as ->; [|done].
    induction pre as [|j pre IH]; intros S; simpl app.
    + simpl. rewrite Hk. unfold isCallToNoReturn, bind, assert, abort. by rewrite Hty.
    + rewrite scan_block_step_passes by (apply Hpre; left).
      apply IH. intros j' Hj'. apply Hpre. by right.
Qed.

Lemma isCallToNoReturn_unresolved_witness :
  getAs_FunctionType OtherType = None ∧
  isCallToNoReturn false OtherType unresolved_callee = Some (false, unresolved_callee).
Proof.
  split; [reflexivity|].
  exact (proj1 (isCallToNoReturn_unresolved false insertion_order OtherType
                  unresolved_callee 0 eq_refl)).
Defined.

(** ** The statistics *)

Lemma length_concat_insert (l : list (list nat)) F old new :
  l !! F = Some old →
  length (concat (<[F := new]> l)) + length old = length (concat l) + length new.
Proof.
  intros HF. rewrite insert_take_drop by (by apply lookup_lt_Some in HF).
  rewrite <-(take_drop_middle l F old HF) at 3.
  rewrite !concat_app, !concat_cons, !length_app. lia.
Qed.

Lemma length_filter_complement (Reachable l : list nat) :
  length (filter (λ BB, BB ∈ Reachable) l) + length (filter (λ BB, BB ∉ Reachable) l)
  = length l.
Proof.
  induction l as [|b l IH]; [done|]. rewrite !filter_cons.
  destruct (decide (b ∈ Reachable)); destruct (decide (b ∉ Reachable)); simpl; try done; lia.
Qed.

(** C9: the counter of removed instructions is not accurate.  A run on
    [orphan_block] removes the block that cannot be reached together with
    its two instructions, which are destroyed; the counter of removed
    blocks goes to one, and the counter of removed instructions, the
    "number of unreachable instructions removed", stays at zero. *)
Theorem swept_instructions_are_not_counted :
  (Functions orphan_block = [[0; 1; 2]] ∧ InstList orphan_block 2 = [2; 3] ∧
   NumBlocksRemoved orphan_block = 0 ∧ NumInstructionsRemoved orphan_block = 0) ∧
  (λ r, (Functions r.2, InstList r.2 2, Erased r.2,
         NumBlocksRemoved r.2, NumInstructionsRemoved r.2)) <$>
    performSILDeadCodeElimination true insertion_order orphan_block
  = Some ([[0; 1]], [], [2; 3], 1, 0).
Proof. split; [split_and!|]; vm_compute; reflexivity. Qed.

Global Instance counters_agree_PreOrder : PreOrder counters_agree.
Proof.
  split.
  - intros st. unfold counters_agree. lia.
  - intros x y z. unfold counters_agree. lia.
Qed.

Lemma counters_agree_operations assertions order st st' :
  rtc (pass_operation assertions order) st st' → counters_agree st st'.
Proof.
  apply (R_pass_operations counters_agree).
  - intros E s s' H. unfold counters_agree.
    rewrite (del_functions _ _ _ _ H), (del_blocks_removed _ _ _ _ H),
      (del_insts_removed _ _ _ _ H). lia.
  - intros BB k args s. unfold counters_agree. simpl. lia.
  - intros s. unfold counters_agree. simpl. lia.
  - intros F blocks Reachable s HF. unfold counters_agree, set_blocks.
    cbn [NumBlocksRemoved NumInstructionsRemoved Functions].
    pose proof (length_concat_insert (Functions s) F blocks
                  (filter (λ BB, BB ∈ Reachable) blocks) HF).
    pose proof (length_filter_complement Reachable blocks). lia.
Qed.

(** X23: what the statistics do.  Both counters never go down across the
    operations of the pass, and the counter of removed blocks goes up by
    exactly the number of blocks taken out of the functions of the module.
    The counter of removed instructions is moved by the truncation, by
    exactly the number of instructions that followed the first call to a
    no-return function; the cascading deleter, the set deletion, the
    constant folder and the sweep leave it as it is. *)
Theorem statistics_counters (assertions : bool) (order : DenseSetOrder) (st : SILModule) :
  (∀ st', rtc (pass_operation assertions order) st st' →
     NumBlocksRemoved st ≤ NumBlocksRemoved st' ∧
     NumInstructionsRemoved st ≤ NumInstructionsRemoved st' ∧
     NumBlocksRemoved st' + length (concat (Functions st')) =
       NumBlocksRemoved st + length (concat (Functions st))) ∧
  (∀ BB pre call tail r st',
     InstList st BB = pre ++ call :: tail →
     (∀ i, i ∈ pre → passes_by assertions st i) → no_return_call st call →
     simplifyBlocksWithCallsToNoReturn assertions order BB st = Some (r, st') →
     NumInstructionsRemoved st' = NumInstructionsRemoved st + length tail) ∧
  (∀ I r st', recursivelyDeleteTriviallyDeadInstructions I st = Some (r, st') →
     NumInstructionsRemoved st' = NumInstructionsRemoved st) ∧
  (∀ ToBeDeleted r st', eraseAndCleanup order ToBeDeleted st = Some (r, st') →
     NumInstructionsRemoved st' = NumInstructionsRemoved st) ∧
  (∀ BB r st', constantFoldTerminator assertions order BB st = Some (r, st') →
     NumInstructionsRemoved st' = NumInstructionsRemoved st) ∧
  (∀ F r st', removeUnreachableBlocks assertions order F st = Some (r, st') →
     NumInstructionsRemoved st' = NumInstructionsRemoved st).
Proof.
  split_and!.
  - intros st' H. by apply counters_agree_operations in H.
  - intros BB pre call tail r st' Hl Hpre Hcall Hs.
    destruct (simplifyBlocks_no_return assertions order BB st pre call tail _ _
                Hl Hpre Hcall Hs) as (E' & st1 & _ & -> & Hdel & _).
    simpl. rewrite (del_insts_removed _ _ _ _ Hdel).
    destruct (count_removed_iter_deletion (length tail) st) as (_ & _ & _ & _ & _ & ->). lia.
  - intros I r st' (_ & E & HE & _)%recursivelyDelete_spec.
    apply (del_insts_removed _ _ _ _ HE).
  - intros S r st' (_ & E & HE & _)%eraseAndCleanup_spec.
    apply (del_insts_removed _ _ _ _ HE).
  - intros BB r st'
      (TI & _ & [(_ & -> & _)|(_ & T & F & n & c & v & dest & args & _ & _ & _ & _ & _ & He)])
      %constantFoldTerminator_inv; [done|].
    apply eraseAndCleanup_spec in He as (_ & E & HE & _).
    by rewrite (del_insts_removed _ _ _ _ HE).
  - intros F r st'
      [(_ & -> & _)|(front & rest & Reachable & _ & _ &
         [(_ & -> & _)|(_ & _ & E & st2 & Hdel & -> & _)])]%removeUnreachableBlocks_inv;
      [done..|].
    simpl. apply (del_insts_removed _ _ _ _ Hdel).
Qed.

Lemma statistics_counters_witness :
  rtc (pass_operation true insertion_order) call_then_code
    (default call_then_code
       (snd <$> simplifyBlocksWithCallsToNoReturn true insertion_order 0 call_then_code)) ∧
  NumInstructionsRemoved call_then_code ≤
  NumInstructionsRemoved
    (default call_then_code
       (snd <$> simplifyBlocksWithCallsToNoReturn true insertion_order 0 call_then_code)).
Proof.
  assert (rtc (pass_operation true insertion_order) call_then_code
            (default call_then_code
               (snd <$> simplifyBlocksWithCallsToNoReturn true insertion_order 0
                          call_then_code))) as H.
  { apply rtc_once. apply (op_truncate _ _ _ 0 true). vm_compute. reflexivity. }
  split; [exact H|].
  exact (proj1 (proj2 (proj1 (statistics_counters true insertion_order call_then_code)
                         _ H))).
Defined.

(** ** The builder, continued *)

Lemma SILBuilder_insert_facts BB k args st :
  let I := length (Insts st) in
  let st1 := (SILBuilder_insert BB k args st).2 in
  Insts st1 !! I = Some (mkInst k true args) ∧
  (∀ i, i < I → Insts st1 !! i = Insts st !! i) ∧
  InstList st1 BB = InstList st BB ++ [I] ∧
  (∀ b, b ≠ BB → InstList st1 b = InstList st b) ∧
  Functions st1 = Functions st ∧
  NumBlocksRemoved st1 = NumBlocksRemoved st ∧
  NumInstructionsRemoved st1 = NumInstructionsRemoved st.
Proof.
  simpl. split_and!; try done.
  - rewrite lookup_app_r by lia. by rewrite Nat.sub_diag.
  - intros i Hi. by rewrite lookup_app_l.
  - by rewrite decide_True.
  - intros b Hb. by rewrite decide_False.
Qed.

Lemma deletion_unlinked O E st st' i b : deletion O E st st' → i ∈ E → i ∉ InstList st' b.
Proof.
  intros H Hi. rewrite (del_instlist _ _ _ _ H), list_elem_of_filter. tauto.
Qed.

(** ** The constant folder *)

(** C4: the fold of a conditional branch on a single-bit literal does not
    always come back.  The block of [fold_twice] ends in a conditional
    branch on the literal 0 that passes [%2] and [%1] to its true
    successor, [%2] reading [%1].  The branch replaced, the cleanup looks
    at the three instructions the old branch read; looked at in the order
    [%0], [%2], [%1], the cascade from [%2] destroys [%1], and [%1] is
    looked at after that: the fold has no result.  Looked at in the
    opposite order the same fold answers true and leaves the new branch to
    the false successor. *)
Theorem constantFoldTerminator_revisits_erased :
  (last (InstList fold_twice 0) = Some 3 ∧
   getKind 3 fold_twice = Some (CondBranchInst 1 2 2) ∧
   getAllOperands 3 fold_twice =
     [Some (InstValue 0); Some (InstValue 2); Some (InstValue 1)] ∧
   getKind 0 fold_twice = Some (IntegerLiteralInst (APInt_of 1 0)) ∧
   getAllOperands 2 fold_twice = [Some (InstValue 1)]) ∧
  constantFoldTerminator true insertion_order 0 fold_twice = None ∧
  (λ r, (r.1, InstList r.2 0, getKind 6 r.2, getAllOperands 6 r.2)) <$>
    constantFoldTerminator true reverse_order 0 fold_twice
  = Some (true, [6], Some (BranchInst 2), []).
Proof. split; [split_and!|split]; vm_compute; reflexivity. Qed.

(** X20: what the fold of a conditional branch on a single-bit literal
    leaves when it comes back.  The answer is true; the block ends in a new
    unconditional branch, to the true successor with the true arguments
    when the literal is 1 and to the false successor with the false
    arguments when it is 0; the conditional branch is gone from every
    block, and so is the literal when it has no side effects, was read by
    the conditional branch only and is not passed on by the new branch.
    On a block whose terminator is no conditional branch on a literal the
    folder answers false and touches nothing. *)
Theorem constantFoldTerminator_result (assertions : bool) (order : DenseSetOrder)
    (st : SILModule) (BB TI : nat) :
  last (InstList st BB) = Some TI →
  (∀ T F n c lit value r st',
     getKind TI st = Some (CondBranchInst T F n) →
     getAllOperands TI st !! 0 = Some (Some (InstValue c)) →
     Insts st !! c = Some lit → Kind lit = IntegerLiteralInst value →
     BitWidth value = 1%N → (VAL value = 0 ∨ VAL value = 1)%Z →
     constantFoldTerminator assertions order BB st = Some (r, st') →
     r = true ∧
     ∃ BI,
       Insts st !! BI = None ∧
       last (InstList st' BB) = Some BI ∧
       (VAL value = 1%Z →
          getKind BI st' = Some (BranchInst T) ∧
          getAllOperands BI st' = take n (drop 1 (getAllOperands TI st))) ∧
       (VAL value = 0%Z →
          getKind BI st' = Some (BranchInst F) ∧
          getAllOperands BI st' = drop (S n) (getAllOperands TI st)) ∧
       (∀ b, TI ∉ InstList st' b) ∧
       (consistent st → SideEffects lit = false →
        (∀ o, o ∈ Uses st (InstValue c) → o.1 = TI) →
        Some (InstValue c) ∉ taken_arguments value n (getAllOperands TI st) →
        ∀ b, c ∉ InstList st' b)) ∧
  (not_foldable st TI →
     constantFoldTerminator assertions order BB st = Some (false, st)).
Proof.
  intros Hl. split; [|by apply constantFoldTerminator_not_foldable].
  intros T F n c lit value r st' Hk Hop Hc Hlit Hw Hv.
  assert (getKind c st = Some (IntegerLiteralInst value)) as Hkc.
  { unfold getKind. rewrite Hc. simpl. by rewrite Hlit. }
  rewrite (constantFoldTerminator_literal assertions order BB st TI T F n c value) by done.
  set (dest := taken_successor value T F).
  set (args := taken_arguments value n (getAllOperands TI st)).
  set (BI := length (Insts st)).
  destruct (SILBuilder_insert_facts BB (BranchInst dest) args st)
    as (HBI & Hold & HBB & Hother & _).
  fold BI in HBI, Hold, HBB.
  change (SILBuilder_insert BB (BranchInst dest) args st) with (createBranch BB dest args st)
    in HBI, Hold, HBB, Hother.
  set (st1 := (createBranch BB dest args st).2) in *.
  assert (TI < BI) as HTI.
  { unfold getKind in Hk. destruct (Insts st !! TI) eqn:E; [|done].
    by apply lookup_lt_Some in E. }
  assert (c < BI) as Hcl by (by apply lookup_lt_Some in Hc).
  unfold bind, ret, eraseAndCleanup_inst.
  destruct (eraseAndCleanup order (DenseSet_insert TI []) st1) as [[r1 s]|] eqn:He; [|done].
  intros ?; simplify_eq. split; [done|].
  apply eraseAndCleanup_spec in He as (-> & E' & Hdel & Hd & Hcand).
  change (DenseSet_insert TI []) with [TI] in *.
  assert (BI ∉ [TI] ++ E') as HBIE.
  { intros [Hin|Hin]%elem_of_app.
    - apply list_elem_of_singleton in Hin. lia.
    - pose proof (deletable_not_terminator st1 BI (BranchInst dest) (Hd _ Hin)) as Hnt.
      unfold getKind in Hnt. rewrite HBI in Hnt. by specialize (Hnt eq_refl). }
  assert (getKind BI st' = Some (BranchInst dest)) as HkBI.
  { rewrite (deletion_getKind _ _ _ _ _ Hdel). unfold getKind. by rewrite HBI. }
  assert (getAllOperands BI st' = args) as HoBI.
  { rewrite (deletion_operands_same _ _ _ _ BI Hdel).
    - unfold getAllOperands. by rewrite HBI.
    - intros k [Hin _]%elem_of_operand_slots. done. }
  exists BI. split_and!.
  - apply lookup_ge_None_2. unfold BI. lia.
  - eapply deletion_last; [exact Hdel| |exact HBIE]. rewrite HBB. apply last_snoc.
  - intros H1. unfold dest, args, taken_successor, taken_arguments in *.
    rewrite bool_decide_false in HkBI, HoBI by lia. done.
  - intros H0. unfold dest, args, taken_successor, taken_arguments in *.
    rewrite bool_decide_true in HkBI, HoBI by done. done.
  - intros b. eapply deletion_unlinked; [exact Hdel|]. apply elem_of_app. left. left.
  - intros Hcons Hse Huses Hnarg b.
    eapply deletion_unlinked; [exact Hdel|]. apply elem_of_app. right.
    assert (getAllOperands TI st1 = getAllOperands TI st) as HopTI.
    { unfold getAllOperands. by rewrite Hold. }
    apply Hcand.
    + intros ->%list_elem_of_singleton. unfold getKind in Hk. rewrite Hc in Hk.
      simpl in Hk. congruence.
    + exists lit. rewrite Hold by done. rewrite Hlit. done.
    + exists TI. split; [left|]. rewrite HopTI. by eapply list_elem_of_lookup_2.
    + intros [i k] Ho. unfold st1 in Ho. simpl in Ho.
      apply elem_of_register_uses in Ho as [Ho|(k' & ? & Hk')].
      * pose proof (Huses _ Ho) as Hi. simpl in Hi. subst i. simpl.
        split; [left|]. rewrite HopTI. by apply (Hcons (InstValue c) TI k).
      * exfalso. apply Hnarg. by eapply list_elem_of_lookup_2.
Qed.

Lemma constantFoldTerminator_result_witness :
  last (InstList constant_branch 0) = Some 1 ∧
  constantFoldTerminator true insertion_order 0 constant_branch
    = Some (true, constant_branch_folded) ∧
  ∃ BI,
    Insts constant_branch !! BI = None ∧
    last (InstList constant_branch_folded 0) = Some BI ∧
    getKind BI constant_branch_folded = Some (BranchInst 1).
Proof.
  assert (constantFoldTerminator true insertion_order 0 constant_branch
          = Some (true, constant_branch_folded)) as Hrun by (vm_compute; reflexivity).
  split; [reflexivity|]. split; [exact Hrun|].
  destruct (proj1 (constantFoldTerminator_result true insertion_order constant_branch 0 1
                     eq_refl)
              1 2 0 0 (mkInst (IntegerLiteralInst (APInt_of 1 1)) false []) (APInt_of 1 1)
              true constant_branch_folded
              eq_refl eq_refl eq_refl eq_refl eq_refl (or_intror eq_refl) Hrun)
    as (_ & BI & H2 & H3 & H4 & _).
  exists BI. split; [exact H2|]. split; [exact H3|]. exact (proj1 (H4 eq_refl)).
Defined.

(** ** The truncation after a call that does not return *)

(** C5: the truncation at a call to a no-return function does not always
    come back.  In the block of [trunc_twice] the instruction after the
    call reads [%1] and [%0], and [%1] reads [%0].  The cleanup of the set
    deletion looks at [%1] and [%0]; looked at in this order, the cascade
    from [%1] destroys [%0], and [%0] is looked at after that: the
    truncation has no result.  Looked at in the opposite order the same
    truncation answers true and leaves the call followed by a new
    [unreachable]. *)
Theorem simplifyBlocksWithCallsToNoReturn_revisits_erased :
  (InstList trunc_twice 0 = [0; 1] ++ 2 :: [3; 4] ∧
   getKind 2 trunc_twice = Some (ApplyInst (FunctionType true)) ∧
   getAllOperands 3 trunc_twice = [Some (InstValue 1); Some (InstValue 0)] ∧
   getAllOperands 1 trunc_twice = [Some (InstValue 0)]) ∧
  simplifyBlocksWithCallsToNoReturn true insertion_order 0 trunc_twice = None ∧
  (λ r, (r.1, InstList r.2 0, getKind 5 r.2)) <$>
    simplifyBlocksWithCallsToNoReturn true reverse_order 0 trunc_twice
  = Some (true, [2; 5], Some UnreachableInst).
Proof. split; [split_and!|split]; vm_compute; reflexivity. Qed.

(** X21: what the truncation leaves when it comes back.  The answer is
    true exactly when the block holds a call to a no-return function.  When
    none of its calls is one, the truncation does come back and the store
    is left as it is.  At the first such call every instruction after the
    call is gone from every block, the old terminator among them, and the
    block ends in a fresh [unreachable] without operands, whatever
    followed the call. *)
Theorem simplifyBlocksWithCallsToNoReturn_result (assertions : bool)
    (order : DenseSetOrder) (st : SILModule) (BB : nat) :
  ((∀ i, i ∈ InstList st BB → passes_by assertions st i) →
   simplifyBlocksWithCallsToNoReturn assertions order BB st = Some (false, st)) ∧
  (∀ pre call tail r st',
     InstList st BB = pre ++ call :: tail →
     (∀ i, i ∈ pre → passes_by assertions st i) → no_return_call st call →
     (∀ i, i ∈ tail → is_Some (Insts st !! i)) →
     simplifyBlocksWithCallsToNoReturn assertions order BB st = Some (r, st') →
     r = true ∧
     ∃ U,
       Insts st !! U = None ∧
       last (InstList st' BB) = Some U ∧
       getKind U st' = Some UnreachableInst ∧
       getAllOperands U st' = [] ∧
       (∀ i b, i ∈ tail → i ∉ InstList st' b)) ∧
  (∀ r st',
     simplifyBlocksWithCallsToNoReturn assertions order BB st = Some (r, st') →
     (r = true ↔ ∃ i, i ∈ InstList st BB ∧ no_return_call st i) ∧
     (r = false → st' = st)).
Proof.
  split_and!.
  - apply simplifyBlocks_passes.
  - intros pre call tail r st' Hl Hpre Hcall Halloc Hs.
    destruct (simplifyBlocks_no_return assertions order BB st pre call tail _ _
                Hl Hpre Hcall Hs) as (E' & st1 & -> & -> & Hdel & _).
    split; [done|].
    destruct (count_removed_iter_deletion (length tail) st) as (Hi & _).
    set (st0 := Nat.iter (length tail) count_removed_instruction st) in *.
    assert (length (Insts st1) = length (Insts st)) as Hlen.
    { by rewrite (del_length _ _ _ _ Hdel), Hi. }
    destruct (SILBuilder_insert_facts BB UnreachableInst [] st1)
      as (HU & Hold & HBB & Hother & _). rewrite Hlen in HU, HBB.
    exists (length (Insts st)). split_and!.
    + by apply lookup_ge_None_2.
    + unfold createUnreachable. rewrite HBB. apply last_snoc.
    + unfold getKind, createUnreachable. by rewrite HU.
    + unfold getAllOperands, createUnreachable. by rewrite HU.
    + intros i b Hi' Hin.
      assert (i ∉ InstList st1 b) as Hn.
      { eapply deletion_unlinked; [exact Hdel|]. apply elem_of_app. by left. }
      unfold createUnreachable in Hin. destruct (decide (b = BB)) as [->|Hne].
      * rewrite HBB in Hin. apply elem_of_app in Hin as [?|Hin]; [done|].
        apply list_elem_of_singleton in Hin. subst i.
        destruct (Halloc _ Hi') as [x Hx]. apply lookup_lt_Some in Hx. lia.
      * by rewrite Hother in Hin.
  - intros r st' Hs.
    destruct (simplifyBlocks_inv _ _ _ _ _ _ Hs)
      as [(-> & -> & Hall)|(-> & pre & call & tail & Hl & Hpre & Hcall)].
    + split; [|done]. split; [done|]. intros (i & Hi & Hnr).
      by destruct (passes_by_not_no_return _ _ _ (Hall i Hi)).
    + split; [|done]. split; [|done]. intros _. exists call. split; [|done].
      rewrite Hl. apply elem_of_app. right. left.
Qed.

Lemma simplifyBlocksWithCallsToNoReturn_result_witness :
  InstList head_and_tail 0 = [0; 1] ++ 2 :: [3; 4] ∧
  no_return_call head_and_tail 2 ∧
  simplifyBlocksWithCallsToNoReturn true insertion_order 0 head_and_tail
    = Some (true, head_and_tail_after) ∧
  ∃ U,
    Insts head_and_tail !! U = None ∧
    last (InstList head_and_tail_after 0) = Some U ∧
    getKind U head_and_tail_after = Some UnreachableInst.
Proof.
  assert (no_return_call head_and_tail 2) as Hc.
  { exists (FunctionType true). split; reflexivity. }
  assert (simplifyBlocksWithCallsToNoReturn true insertion_order 0 head_and_tail
          = Some (true, head_and_tail_after)) as Hrun by (vm_compute; reflexivity).
  split; [reflexivity|]. split; [exact Hc|]. split; [exact Hrun|].
  destruct (proj1 (proj2 (simplifyBlocksWithCallsToNoReturn_result true insertion_order
                            head_and_tail 0)) [0; 1] 2 [3; 4] true head_and_tail_after
              eq_refl)
    as (_ & U & H1 & H2 & H3 & _).
  - intros i Hi ty Hk. exfalso.
    repeat (apply elem_of_cons in Hi as [->|Hi]); try (vm_compute in Hk; discriminate).
    by apply not_elem_of_nil in Hi.
  - exact Hc.
  - intros i Hi. repeat (apply elem_of_cons in Hi as [->|Hi]); try (by eexists).
    by apply not_elem_of_nil in Hi.
  - exact Hrun.
  - by exists U.
Defined.

(** ** The reachability sweep *)

Lemma same_length_same_elements (R l : list nat) :
  NoDup R → (∀ b, b ∈ R → b ∈ l) → length R = length l → ∀ b, b ∈ l → b ∈ R.
Proof.
  intros Hnd Hsub Hlen b Hb.
  assert (R ≡ₚ l) as Hp.
  { apply submseteq_length_Permutation; [by apply NoDup_submseteq|lia]. }
  by rewrite Hp.
Qed.

Lemma all_elements_same_length (R l : list nat) :
  NoDup R → NoDup l → (∀ b, b ∈ R → b ∈ l) → (∀ b, b ∈ l → b ∈ R) → length R = length l.
Proof.
  intros HR Hl H1 H2. apply Nat.le_antisymm; apply submseteq_length, NoDup_submseteq; done.
Qed.

Lemma reach_loop_front st front fuel Reachable st' :
  reach_loop fuel [front] [front] st = Some (Reachable, st') → front ∈ Reachable.
Proof.
  intros Hr. eapply (reach_loop_inv st front) in Hr as (_ & _ & Hsub & _); try done.
  - apply Hsub. left.
  - apply NoDup_singleton.
  - intros b ->%list_elem_of_singleton. apply rtc_refl.
Qed.

(** The sweep of a function all of whose blocks can be reached. *)
Lemma removeUnreachableBlocks_all_reachable assertions order st F front rest :
  Functions st !! F = Some (front :: rest) →
  well_formed_function st (front :: rest) →
  (∀ b, b ∈ front :: rest → reachable st front b) →
  removeUnreachableBlocks assertions order F st = Some (false, st).
Proof.
  intros HF Hwf Hall. unfold removeUnreachableBlocks. rewrite HF. cbn [from_option id].
  destruct (reach_loop_reachable st (front :: rest) front rest eq_refl Hwf)
    as (Reachable & Hreach & Hnd & HR & Hsub).
  unfold bind at 1. rewrite Hreach.
  assert (length Reachable = length (front :: rest)) as Hlen.
  { apply all_elements_same_length; try done.
    - apply (wff_nodup _ _ Hwf).
    - intros b Hb. by apply HR, Hall. }
  unfold bind at 1.
  assert (assert assertions (bool_decide (length Reachable ≤ length (front :: rest))) st
          = Some (tt, st)) as ->.
  { unfold assert. rewrite bool_decide_true by lia. by destruct assertions. }
  by rewrite bool_decide_true.
Qed.

(** C6: the sweep of a function with blocks that cannot be reached does
    not always come back.  In [sweep_twice] the block [bb1] cannot be
    reached; its terminator passes [%2] and [%1] on, and [%2] reads [%1].
    The terminator deleted, the cleanup looks at [%2] and [%1]; looked at
    in this order, the cascade from [%2] destroys [%1], and [%1] is looked
    at after that: the sweep has no result, and neither has a run of the
    pass.  Looked at in the opposite order the same sweep answers true and
    keeps the entry block alone. *)
Theorem removeUnreachableBlocks_revisits_erased :
  (Functions sweep_twice = [[0; 1; 2]] ∧
   InstList sweep_twice 0 = [0] ∧ getKind 0 sweep_twice = Some (OtherTermInst []) ∧
   InstList sweep_twice 1 = [1; 2; 3] ∧
   getAllOperands 3 sweep_twice = [Some (InstValue 2); Some (InstValue 1)] ∧
   getAllOperands 2 sweep_twice = [Some (InstValue 1)]) ∧
  removeUnreachableBlocks true insertion_order 0 sweep_twice = None ∧
  performSILDeadCodeElimination true insertion_order sweep_twice = None ∧
  (λ r, (r.1, Functions r.2, InstList r.2 1, InstList r.2 2, NumBlocksRemoved r.2)) <$>
    removeUnreachableBlocks true reverse_order 0 sweep_twice
  = Some (true, [[0]], [], [], 2).
Proof. split; [split_and!|split_and!]; vm_compute; reflexivity. Qed.

(** X22: what the sweep leaves when it comes back.  On a function without
    blocks, and on a well-formed function all of whose blocks can be
    reached from the entry block, the sweep does come back, answers false
    and changes nothing.  Otherwise its answer is true; the function keeps
    exactly the blocks that can be reached, in their order, and the others
    are emptied: none of their instructions is left in any block.  A block
    that is kept loses at most instructions without uses and effects.  The
    outcome is stated in terms of reachability alone. *)
Theorem removeUnreachableBlocks_result (assertions : bool) (order : DenseSetOrder)
    (st : SILModule) (F : nat) :
  (default [] (Functions st !! F) = [] →
   removeUnreachableBlocks assertions order F st = Some (false, st)) ∧
  (∀ front rest,
     Functions st !! F = Some (front :: rest) →
     well_formed_function st (front :: rest) →
     ((∀ b, b ∈ front :: rest → reachable st front b) →
      removeUnreachableBlocks assertions order F st = Some (false, st)) ∧
     (∀ r st',
        ¬ (∀ b, b ∈ front :: rest → reachable st front b) →
        removeUnreachableBlocks assertions order F st = Some (r, st') →
        r = true ∧
        ∃ Reachable : list nat,
          (∀ b, b ∈ Reachable ↔ reachable st front b) ∧
          Functions st' =
            <[F := filter (λ b, b ∈ Reachable) (front :: rest)]> (Functions st) ∧
          NumBlocksRemoved st' =
            length (filter (λ b, b ∉ Reachable) (front :: rest)) + NumBlocksRemoved st ∧
          (∀ b, b ∈ front :: rest → ¬ reachable st front b →
                InstList st' b = [] ∧
                ∀ i b', i ∈ InstList st b → i ∉ InstList st' b') ∧
          (∀ b i, b ∈ front :: rest → reachable st front b → i ∈ InstList st b →
                  i ∈ InstList st' b ∨ deletable st i))).
Proof.
  split.
  { intros Hnil. unfold removeUnreachableBlocks. by rewrite Hnil. }
  intros front rest HF Hwf.
  split; [by apply removeUnreachableBlocks_all_reachable|].
  intros r st' Hnot Hr.
  destruct (reach_loop_reachable st (front :: rest) front rest eq_refl Hwf)
    as (Reachable & Hreach & Hnd & HR & Hsub).
  destruct (removeUnreachableBlocks_inv _ _ _ _ _ _ Hr)
    as [(_ & _ & Hnil)|(front' & rest' & Reachable' & HF' & Hreach' & Hcases)].
  { by rewrite HF in Hnil. }
  rewrite HF in HF'. simplify_eq.
  change (S (S (length rest'))) with (S (length (front' :: rest'))) in Hreach'.
  rewrite Hreach in Hreach'. simplify_eq.
  destruct Hcases as [(_ & _ & Hlen)|(-> & _ & E & st2 & Hdel & -> & Hin & Hout)].
  { exfalso. apply Hnot. intros b Hb. apply HR.
    by apply (same_length_same_elements Reachable' (front' :: rest')). }
  split; [done|]. exists Reachable'.
  split_and!; try done.
  - simpl. by rewrite (del_functions _ _ _ _ Hdel).
  - simpl. by rewrite (del_blocks_removed _ _ _ _ Hdel).
  - intros b Hb Hnr. assert (b ∉ Reachable') as HbR by (by rewrite HR).
    split.
    + simpl. rewrite (del_instlist _ _ _ _ Hdel). apply filter_none.
      intros i Hi Hn. apply Hn. by apply (Hin b i).
    + intros i b' Hi. simpl. eapply deletion_unlinked; [exact Hdel|]. by apply (Hin b i).
  - intros b i Hb Hreachable Hi. simpl.
    rewrite (del_instlist _ _ _ _ Hdel), list_elem_of_filter.
    destruct (decide (i ∈ E)) as [HiE|HiE]; [|by left]. right.
    destruct (Hout i HiE) as [?|(b' & Hb' & Hb'R & Hi')]; [done|].
    exfalso. apply Hb'R, HR.
    by rewrite (wff_disjoint _ _ Hwf b' b i Hb' Hb Hi' Hi).
Qed.

Lemma well_formed_function_constant_branch :
  well_formed_function constant_branch [0; 1; 2].
Proof.
  split.
  - repeat (apply NoDup_cons; split; [set_solver|]). apply NoDup_nil_2.
  - intros b Hb. repeat (apply elem_of_cons in Hb as [->|Hb]).
    + exists 1, (CondBranchInst 1 2 0). by split_and!.
    + exists 2, (OtherTermInst []). by split_and!.
    + exists 3, (OtherTermInst []). by split_and!.
    + by apply not_elem_of_nil in Hb.
  - intros b b' Hb Hs. repeat (apply elem_of_cons in Hb as [->|Hb]).
    + vm_compute in Hs. set_solver.
    + vm_compute in Hs. set_solver.
    + vm_compute in Hs. set_solver.
    + by apply not_elem_of_nil in Hb.
  - intros b1 b2 i Hb1 Hb2 H1 H2.
    repeat (apply elem_of_cons in Hb1 as [->|Hb1]); try (by apply not_elem_of_nil in Hb1);
      repeat (apply elem_of_cons in Hb2 as [->|Hb2]); try (by apply not_elem_of_nil in Hb2);
      try done; vm_compute in H1, H2; set_solver.
Qed.

Lemma well_formed_function_orphan_block :
  well_formed_function orphan_block [0; 1; 2].
Proof.
  split.
  - repeat (apply NoDup_cons; split; [set_solver|]). apply NoDup_nil_2.
  - intros b Hb. repeat (apply elem_of_cons in Hb as [->|Hb]).
    + exists 0, (BranchInst 1). by split_and!.
    + exists 1, (OtherTermInst []). by split_and!.
    + exists 3, (OtherTermInst []). by split_and!.
    + by apply not_elem_of_nil in Hb.
  - intros b b' Hb Hs. repeat (apply elem_of_cons in Hb as [->|Hb]).
    + vm_compute in Hs. set_solver.
    + vm_compute in Hs. set_solver.
    + vm_compute in Hs. set_solver.
    + by apply not_elem_of_nil in Hb.
  - intros b1 b2 i Hb1 Hb2 H1 H2.
    repeat (apply elem_of_cons in Hb1 as [->|Hb1]); try (by apply not_elem_of_nil in Hb1);
      repeat (apply elem_of_cons in Hb2 as [->|Hb2]); try (by apply not_elem_of_nil in Hb2);
      try done; vm_compute in H1, H2; set_solver.
Qed.

Lemma orphan_block_reachable b : reachable orphan_block 0 b → b ∈ [0; 1].
Proof.
  unfold reachable. revert b. apply rtc_ind_r; [left|].
  intros y z _ Hyz Hy.
  repeat (apply elem_of_cons in Hy as [->|Hy]).
  - vm_compute in Hyz. set_solver.
  - vm_compute in Hyz. set_solver.
  - by apply not_elem_of_nil in Hy.
Qed.

Lemma orphan_block_sweep :
  removeUnreachableBlocks true insertion_order 0 orphan_block
  = Some (true, orphan_block_after).
Proof. vm_compute. reflexivity. Qed.

Lemma removeUnreachableBlocks_result_witness :
  Functions orphan_block !! 0 = Some [0; 1; 2] ∧
  well_formed_function orphan_block [0; 1; 2] ∧
  ¬ (∀ b, b ∈ [0; 1; 2] → reachable orphan_block 0 b) ∧
  removeUnreachableBlocks true insertion_order 0 orphan_block
    = Some (true, orphan_block_after) ∧
  ∃ Reachable : list nat,
    (∀ b, b ∈ Reachable ↔ reachable orphan_block 0 b) ∧
    Functions orphan_block_after =
      <[0 := filter (λ b, b ∈ Reachable) [0; 1; 2]]> (Functions orphan_block).
Proof.
  assert (¬ (∀ b, b ∈ [0; 1; 2] → reachable orphan_block 0 b)) as Hnot.
  { intros Hall. assert (2 ∈ [0; 1]) as H2 by (apply orphan_block_reachable, Hall; set_solver).
    set_solver. }
  split; [reflexivity|]. split; [apply well_formed_function_orphan_block|].
  split; [exact Hnot|]. split; [apply orphan_block_sweep|].
  destruct (proj2 (proj2 (removeUnreachableBlocks_result true insertion_order
                            orphan_block 0) 0 [1; 2] eq_refl
                     well_formed_function_orphan_block)
              true orphan_block_after Hnot orphan_block_sweep)
    as (_ & Reachable & H1 & H2 & _).
  by exists Reachable.
Defined.

(** C10: on a function with blocks the sweep never takes the entry block
    away: whenever the sweep comes back, with whatever answer, the function
    still begins with the block it began with, and what follows it is a
    part of what followed it. *)
Theorem entry_block_survives (assertions : bool) (order : DenseSetOrder)
    (st : SILModule) (F front : nat) (rest : list nat) (r : bool) (st' : SILModule) :
  Functions st !! F = Some (front :: rest) →
  removeUnreachableBlocks assertions order F st = Some (r, st') →
  ∃ rest', Functions st' !! F = Some (front :: rest') ∧ rest' `sublist_of` rest.
Proof.
  intros HF Hr.
  destruct (removeUnreachableBlocks_inv _ _ _ _ _ _ Hr)
    as [(_ & -> & _)|(front' & rest' & Reachable & HF' & Hreach &
          [(_ & -> & _)|(_ & _ & E & st2 & Hdel & -> & _)])]; [by exists rest..|].
  rewrite HF in HF'. simplify_eq.
  apply reach_loop_front in Hreach. simpl.
  rewrite (del_functions _ _ _ _ Hdel).
  rewrite list_lookup_insert_eq by (by apply lookup_lt_Some in HF).
  rewrite filter_cons_True by done. eexists. split; [done|]. apply sublist_filter.
Qed.

Lemma entry_block_survives_witness :
  Functions orphan_block !! 0 = Some (0 :: [1; 2]) ∧
  removeUnreachableBlocks true insertion_order 0 orphan_block
    = Some (true, orphan_block_after) ∧
  Functions orphan_block_after = [[0; 1]] ∧
  ∃ rest', Functions orphan_block_after !! 0 = Some (0 :: rest') ∧
           rest' `sublist_of` [1; 2].
Proof.
  split; [reflexivity|]. split; [apply orphan_block_sweep|].
  split; [vm_compute; reflexivity|].
  exact (entry_block_survives true insertion_order orphan_block 0 0 [1; 2] true
           orphan_block_after eq_refl orphan_block_sweep).
Defined.

(** ** What an operation keeps outside the blocks it rewrites *)

Lemma evolves_refl X st : evolves X st st.
Proof. split_and!; auto. Qed.

Lemma evolves_trans X st s st' : evolves X st s → evolves X s st' → evolves X st st'.
Proof.
  intros (K1 & N1 & T1) (K2 & N2 & T2). split_and!.
  - auto.
  - intros i k Hk. destruct (N2 i k Hk) as [?|?]; auto.
  - intros b TI k Hb Hl Hk Ht.
    destruct (T1 b TI k Hb Hl Hk Ht) as [Hl1 Ho1].
    destruct (T2 b TI k Hb Hl1 (K1 _ _ Hk) Ht) as [Hl2 Ho2].
    split; [done|congruence].
Qed.

Lemma evolves_mono X Y st st' : (∀ b, b ∈ X → b ∈ Y) → evolves X st st' → evolves Y st st'.
Proof.
  intros HXY (K & N & T). split_and!; [done..|].
  intros b TI k Hb. apply T. intros Hx. by apply Hb, HXY.
Qed.

Lemma getKind_lt i st k : getKind i st = Some k → i < length (Insts st).
Proof.
  unfold getKind. destruct (Insts st !! i) eqn:E; [|done]. intros _.
  by apply lookup_lt_Some in E.
Qed.

Lemma evolves_insert X BB k args st :
  BB ∈ X → isa_TermInst k = true → evolves X st (SILBuilder_insert BB k args st).2.
Proof.
  intros HBB Hterm.
  destruct (SILBuilder_insert_facts BB k args st) as (Hnew & Hold & HlBB & Hother & _).
  split_and!.
  - intros i k' Hk. pose proof (getKind_lt _ _ _ Hk). unfold getKind in *.
    by rewrite Hold.
  - intros i k' Hk. destruct (decide (i < length (Insts st))) as [Hlt|Hge].
    + left. unfold getKind in *. by rewrite Hold in Hk.
    + right. pose proof (getKind_lt _ _ _ Hk) as Hlt. simpl in Hlt.
      rewrite length_app in Hlt. simpl in Hlt.
      assert (i = length (Insts st)) as -> by lia.
      unfold getKind in Hk. rewrite Hnew in Hk. simpl in Hk. by simplify_eq.
  - intros b TI k' Hb Hl Hk _. pose proof (getKind_lt _ _ _ Hk).
    assert (b ≠ BB) by (by intros ->). split.
    + by rewrite Hother.
    + unfold getAllOperands. by rewrite Hold.
Qed.

Lemma evolves_same_graph X st st' :
  Insts st' = Insts st → InstList st' = InstList st → evolves X st st'.
Proof.
  intros Hi Hl. unfold evolves, getKind, getAllOperands. rewrite Hi, Hl. split_and!; auto.
Qed.

Lemma evolves_successors X st st' b :
  evolves X st st' → b ∉ X → terminated st b →
  block_successors st' b = block_successors st b.
Proof.
  intros (K & _ & T) Hb (TI & k & Hl & Hk & Ht).
  destruct (T b TI k Hb Hl Hk Ht) as [Hl' _].
  unfold block_successors. rewrite Hl, Hl'. by rewrite Hk, (K _ _ Hk).
Qed.

Lemma evolves_terminated X st st' b :
  evolves X st st' → b ∉ X → terminated st b → terminated st' b.
Proof.
  intros (K & _ & T) Hb (TI & k & Hl & Hk & Ht).
  destruct (T b TI k Hb Hl Hk Ht) as [Hl' _]. exists TI, k. auto.
Qed.

Lemma evolves_settled X st st' b :
  evolves X st st' → b ∉ X → settled st b → settled st' b.
Proof.
  intros (K & N & T) Hb (TI & k & Hl & Hk & Ht & Hnf).
  destruct (T b TI k Hb Hl Hk Ht) as [Hl' Ho]. exists TI, k. split_and!; auto.
  unfold not_foldable in *. rewrite (K _ _ Hk). rewrite Hk in Hnf.
  destruct k; try done. destruct Hnf as (V & HV & Hlit). exists V. rewrite Ho.
  split; [done|]. intros c value -> Hc.
  destruct (N _ _ Hc) as [Hc'|?]; [|done]. by eapply Hlit.
Qed.

Lemma evolves_reachable X st st' (blocks : list nat) front b :
  evolves X st st' →
  (∀ c, c ∈ blocks → (c ∉ X) ∧ terminated st c) →
  (∀ c c', c ∈ blocks → c' ∈ block_successors st c → c' ∈ blocks) →
  front ∈ blocks → reachable st front b → reachable st' front b ∧ b ∈ blocks.
Proof.
  intros Hev Hbl Hsucc Hfront Hreach. unfold reachable in *. revert b Hreach.
  apply rtc_ind_r; [split; [apply rtc_refl|done]|].
  intros y z _ Hyz [IH Hy]. split; [|by eapply Hsucc].
  eapply rtc_r; [exact IH|]. destruct (Hbl y Hy) as [HyX Hty].
  by rewrite (evolves_successors _ _ _ _ Hev HyX Hty).
Qed.

(** ** Well-formedness across the primitives *)

Lemma NoDup_concat_lookup (Fs : list (list nat)) F l :
  NoDup (concat Fs) → Fs !! F = Some l → NoDup l.
Proof.
  intros Hnd HF. rewrite <-(take_drop_middle Fs F l HF) in Hnd.
  rewrite concat_app, concat_cons in Hnd.
  apply NoDup_app in Hnd as (_ & _ & Hnd). by apply NoDup_app in Hnd as (? & _).
Qed.

Lemma concat_lookup_elem_of (Fs : list (list nat)) F l b :
  Fs !! F = Some l → b ∈ l → b ∈ concat Fs.
Proof.
  intros HF Hb. apply elem_of_concat. exists l. split; [|done].
  by eapply list_elem_of_lookup_2.
Qed.

Lemma NoDup_concat_disjoint (Fs : list (list nat)) F1 F2 l1 l2 b :
  NoDup (concat Fs) → Fs !! F1 = Some l1 → Fs !! F2 = Some l2 →
  b ∈ l1 → b ∈ l2 → F1 = F2.
Proof.
  revert F1 F2. induction Fs as [|l Fs IH]; intros F1 F2 Hnd H1 H2 Hb1 Hb2; [done|].
  simpl in Hnd. apply NoDup_app in Hnd as (_ & Hdis & Hnd).
  destruct F1 as [|F1], F2 as [|F2]; simpl in *; simplify_eq; try done.
  - exfalso. apply (Hdis b Hb1). by eapply concat_lookup_elem_of.
  - exfalso. apply (Hdis b Hb2). by eapply concat_lookup_elem_of.
  - f_equal. by eapply IH.
Qed.

Lemma sublist_concat_insert (Fs : list (list nat)) F l l' :
  Fs !! F = Some l → l' `sublist_of` l →
  concat (<[F := l']> Fs) `sublist_of` concat Fs.
Proof.
  intros HF Hsub. rewrite insert_take_drop by (by apply lookup_lt_Some in HF).
  rewrite <-(take_drop_middle Fs F l HF) at 3.
  rewrite !concat_app, !concat_cons.
  apply sublist_app; [done|]. by apply sublist_app.
Qed.

Lemma elem_of_insert_inv (Fs : list (list nat)) F l' x :
  x ∈ <[F := l']> Fs → x = l' ∨ ∃ F', F' ≠ F ∧ Fs !! F' = Some x.
Proof.
  intros (F' & HF')%list_elem_of_lookup.
  destruct (decide (F' = F)) as [->|Hne].
  - left. destruct (decide (F < length Fs)).
    + rewrite list_lookup_insert_eq in HF' by done. by simplify_eq.
    + rewrite list_insert_ge in HF' by lia. apply lookup_lt_Some in HF'. lia.
  - right. exists F'. by rewrite list_lookup_insert_ne in HF'.
Qed.

Lemma well_formed_except_mono X Y st :
  (∀ b, b ∈ X → b ∈ Y) → well_formed_except X st → well_formed_except Y st.
Proof.
  intros HXY [H1 H2 H3 H4 H5]. split; try done.
  - intros b Hb HbY. apply H2; [done|]. intros ?. by apply HbY, HXY.
  - intros blocks b b' Hbl Hb HbY. apply H3; [done..|]. intros ?. by apply HbY, HXY.
Qed.

Lemma well_formed_except_evolves X st st' :
  well_formed_except X st → evolves X st st' →
  Functions st' = Functions st →
  (∀ b1 b2 i, i ∈ InstList st' b1 → i ∈ InstList st' b2 → b1 = b2) →
  (∀ b i, i ∈ InstList st' b → i < length (Insts st')) →
  well_formed_except X st'.
Proof.
  intros [H1 H2 H3 H4 H5] Hev HF Hdis Halloc. split; try done.
  - by rewrite HF.
  - rewrite HF. intros b Hb HbX. eapply evolves_terminated; [done..|]. by apply H2.
  - rewrite HF. intros blocks b b' Hbl Hb HbX.
    rewrite (evolves_successors _ _ _ _ Hev HbX).
    + by apply H3.
    + apply H2; [|done]. apply elem_of_concat. by exists blocks.
Qed.

Lemma spares_intro X st E :
  (∀ b1 b2 i, i ∈ InstList st b1 → i ∈ InstList st b2 → b1 = b2) →
  (∀ j, j ∈ E → deletable st j ∨ (∃ b, b ∈ X ∧ j ∈ InstList st b) ∨
                 (∀ b, last (InstList st b) ≠ Some j)) →
  spares X st E.
Proof.
  intros Hdis HE j b k Hj Hb Hl Hk.
  destruct (HE j Hj) as [Hd|[(b' & Hb' & Hi)|Hn]].
  - by eapply deletable_not_terminator.
  - exfalso. apply Hb. by rewrite (Hdis b b' j); [|apply last_Some_elem_of|].
  - by destruct (Hn b).
Qed.

Lemma evolves_deletion_spares X E st st' :
  deletion (operand_slots st E) E st st' → spares X st E → evolves X st st'.
Proof.
  intros Hdel HE. split_and!.
  - intros i k. by rewrite (deletion_getKind _ _ _ _ _ Hdel).
  - intros i k. rewrite (deletion_getKind _ _ _ _ _ Hdel). auto.
  - intros b TI k Hb Hl Hk Ht.
    assert (TI ∉ E) as Hn.
    { intros Hin. pose proof (HE TI b k Hin Hb Hl Hk). congruence. }
    split.
    + by eapply deletion_last.
    + eapply deletion_operands_same; [done|]. by intros k' [? _]%elem_of_operand_slots.
Qed.

Lemma well_formed_except_deletion X E st st' :
  well_formed_except X st → deletion (operand_slots st E) E st st' → spares X st E →
  well_formed_except X st'.
Proof.
  intros Hwf Hdel HE.
  apply (well_formed_except_evolves X st); [done| | | |].
  - by eapply evolves_deletion_spares.
  - apply (del_functions _ _ _ _ Hdel).
  - intros b1 b2 i. rewrite !(del_instlist _ _ _ _ Hdel), !list_elem_of_filter.
    intros [_ ?] [_ ?]. by eapply (wf_disjoint _ _ Hwf).
  - intros b i. rewrite (del_instlist _ _ _ _ Hdel), list_elem_of_filter, (del_length _ _ _ _ Hdel).
    intros [_ ?]. by eapply (wf_allocated _ _ Hwf).
Qed.

Lemma well_formed_except_same_graph X st st' :
  Insts st' = Insts st → InstList st' = InstList st → Functions st' = Functions st →
  well_formed_except X st → well_formed_except X st'.
Proof.
  intros Hi Hl HF Hwf. apply (well_formed_except_evolves X st); try done.
  - by apply evolves_same_graph.
  - rewrite Hl. apply (wf_disjoint _ _ Hwf).
  - rewrite Hl, Hi. apply (wf_allocated _ _ Hwf).
Qed.

Lemma well_formed_except_insert X BB k args st :
  well_formed_except X st → isa_TermInst k = true →
  (∀ blocks b', blocks ∈ Functions st → BB ∈ blocks → b' ∈ getSuccessors k → b' ∈ blocks) →
  well_formed_except (filter (λ b, b ≠ BB) X) (SILBuilder_insert BB k args st).2.
Proof.
  intros Hwf Hterm Hsucc.
  destruct (SILBuilder_insert_facts BB k args st)
    as (Hnew & Hold & HlBB & Hother & HF & _).
  set (st1 := (SILBuilder_insert BB k args st).2) in *.
  assert (evolves [BB] st st1) as Hev by (apply evolves_insert; [left|done]).
  assert (last (InstList st1 BB) = Some (length (Insts st))) as HlastBB.
  { rewrite HlBB. apply last_snoc. }
  assert (getKind (length (Insts st)) st1 = Some k) as HkI.
  { unfold getKind. by rewrite Hnew. }
  assert (∀ b, b ∉ filter (λ b, b ≠ BB) X → b = BB ∨ b ∉ X) as Hcase.
  { intros b Hb. destruct (decide (b = BB)); [by left|right].
    intros ?. apply Hb. by apply list_elem_of_filter. }
  assert (∀ b i, i ∈ InstList st1 b ↔ i ∈ InstList st b ∨ (b = BB ∧ i = length (Insts st)))
    as Hin.
  { intros b i. destruct (decide (b = BB)) as [->|Hne].
    - rewrite HlBB, elem_of_app, list_elem_of_singleton.
      split.
      + intros [?|Hi]; [by left|right]. by subst.
      + intros [?|[_ Hi]]; [by left|right]. by subst.
    - rewrite Hother by done. split; [by left|]. by intros [?|[? _]]. }
  split.
  - rewrite HF. apply (wf_nodup _ _ Hwf).
  - rewrite HF. intros b Hb HbX. destruct (Hcase b HbX) as [->|HbX'].
    + by exists (length (Insts st)), k.
    + destruct (decide (b = BB)) as [->|Hne]; [by exists (length (Insts st)), k|].
      eapply evolves_terminated; [exact Hev| |by apply (wf_terminated _ _ Hwf)].
      by intros ?%list_elem_of_singleton.
  - rewrite HF. intros blocks b b' Hbl Hb HbX Hb'.
    destruct (decide (b = BB)) as [->|Hne].
    + unfold block_successors in Hb'. rewrite HlastBB, HkI in Hb'. simpl in Hb'.
      by eapply Hsucc.
    + destruct (Hcase b HbX) as [?|HbX']; [done|].
      rewrite (evolves_successors _ _ _ _ Hev) in Hb'.
      * by eapply (wf_successors _ _ Hwf).
      * by intros ?%list_elem_of_singleton.
      * apply (wf_terminated _ _ Hwf); [|done]. apply elem_of_concat. by exists blocks.
  - intros b1 b2 i [H1|[-> ->]]%Hin [H2|[-> H2']]%Hin; try done.
    + by eapply (wf_disjoint _ _ Hwf).
    + apply (wf_allocated _ _ Hwf) in H1. lia.
    + apply (wf_allocated _ _ Hwf) in H2. lia.
  - intros b i [Hi|[-> ->]]%Hin; simpl; rewrite length_app; simpl.
    + apply (wf_allocated _ _ Hwf) in Hi. lia.
    + lia.
Qed.

Lemma well_formed_except_set_blocks (Reachable : list nat) F blocks n st :
  well_formed_except (filter (λ b, b ∉ Reachable) blocks) st →
  Functions st !! F = Some blocks →
  (∀ b b', b ∈ blocks → b ∈ Reachable → b' ∈ block_successors st b → b' ∈ Reachable) →
  well_formed (set_blocks F (filter (λ b, b ∈ Reachable) blocks) n st).
Proof.
  intros Hwf HF Hclosed.
  set (live := filter (λ b, b ∈ Reachable) blocks).
  set (dead := filter (λ b, b ∉ Reachable) blocks) in *.
  assert (∀ b, b ∈ concat (<[F := live]> (Functions st)) →
               b ∈ concat (Functions st) ∧ b ∉ dead) as Hmem.
  { intros b (l & Hl & Hb)%elem_of_concat.
    apply elem_of_insert_inv in Hl as [->|(F' & Hne & HF')].
    - apply list_elem_of_filter in Hb as [HbR Hb]. split.
      + by eapply concat_lookup_elem_of.
      + by intros [? _]%list_elem_of_filter.
    - split; [by eapply concat_lookup_elem_of|].
      intros [_ Hb']%list_elem_of_filter. apply Hne.
      by eapply (NoDup_concat_disjoint _ _ _ _ _ b (wf_nodup _ _ Hwf)). }
  split; simpl.
  - eapply sublist_NoDup; [apply (wf_nodup _ _ Hwf)|].
    apply (sublist_concat_insert _ _ blocks); [done|]. apply sublist_filter.
  - intros b Hb _. destruct (Hmem b Hb) as [Hb1 Hb2].
    destruct (wf_terminated _ _ Hwf b Hb1 Hb2) as (TI & k & ? & ? & ?). by exists TI, k.
  - intros bl b b' Hbl Hb _ Hb'.
    assert (b ∈ concat (<[F := live]> (Functions st))) as Hbc.
    { apply elem_of_concat. by exists bl. }
    destruct (Hmem b Hbc) as [Hb1 Hb2].
    change (block_successors (set_blocks F live n st) b) with (block_successors st b) in Hb'.
    apply elem_of_insert_inv in Hbl as [->|(F' & Hne & HF')].
    + apply list_elem_of_filter in Hb as [HbR Hb]. apply list_elem_of_filter. split.
      * by eapply Hclosed.
      * eapply (wf_successors _ _ Hwf blocks b); [by eapply list_elem_of_lookup_2|done..].
    + eapply (wf_successors _ _ Hwf bl b); [by eapply list_elem_of_lookup_2|done..].
  - apply (wf_disjoint _ _ Hwf).
  - apply (wf_allocated _ _ Hwf).
Qed.

(** ** Well-formedness across the operations *)

Section Effects.
Variable assertions : bool.
Variable order : DenseSetOrder.

Lemma settled_terminator st b TI k :
  last (InstList st b) = Some TI → getKind TI st = Some k → isa_TermInst k = true →
  (∀ T F n, k ≠ CondBranchInst T F n) → settled st b.
Proof.
  intros Hl Hk Ht Hn. exists TI, k. split_and!; try done.
  unfold not_foldable. rewrite Hk. destruct k; try done. by destruct (Hn TrueBB FalseBB NumTrueArgs).
Qed.

Lemma constantFoldTerminator_effect st BB blocks r st' :
  well_formed st → blocks ∈ Functions st → BB ∈ blocks →
  constantFoldTerminator assertions order BB st = Some (r, st') →
  well_formed st' ∧ evolves [BB] st st' ∧ Functions st' = Functions st ∧ settled st' BB.
Proof.
  intros Hwf Hbl HBB Hf.
  assert (BB ∈ concat (Functions st)) as HBBc.
  { apply elem_of_concat. by exists blocks. }
  destruct (wf_terminated _ _ Hwf BB HBBc) as (TI0 & k0 & Hl0 & Hk0 & Ht0);
    [apply not_elem_of_nil|].
  destruct (constantFoldTerminator_inv _ _ _ _ _ _ Hf)
    as (TI & Hl & [(-> & -> & Hnf)|(-> & T & F' & n & c & v & dest & args &
                                     Hk & Hop & Hc & Hdest & _ & He)]).
  { assert (TI0 = TI) as -> by congruence.
    split_and!; [done|apply evolves_refl|done|]. by exists TI, k0. }
  assert (TI0 = TI) as -> by congruence. clear Hl0 Hk0 Ht0 k0.
  unfold createBranch in He.
  set (k := BranchInst dest) in *.
  destruct (SILBuilder_insert_facts BB k args st)
    as (Hnew & Hold & HlBB & Hother & HF & _).
  set (BI := length (Insts st)) in *.
  set (st1 := (SILBuilder_insert BB k args st).2) in *.
  assert (TI < BI) as HTI by (by eapply getKind_lt).
  assert (well_formed st1) as Hwf1.
  { apply (well_formed_except_insert [] BB k args st); [done..|].
    intros bl b' Hbl' HBB' Hb'. apply list_elem_of_singleton in Hb'. subst b'.
    apply (wf_successors _ _ Hwf bl BB dest); [done..|apply not_elem_of_nil|].
    unfold block_successors. rewrite Hl, Hk. simpl. set_solver. }
  rewrite eraseAndCleanup_inst_eq in He.
  apply eraseAndCleanup_spec in He as (_ & E' & Hdel & Hd & _).
  assert (∀ X, spares X st1 ([TI] ++ E')) as Hsp.
  { intros X. apply spares_intro; [apply (wf_disjoint _ _ Hwf1)|].
    intros j [Hj|Hj]%elem_of_app; [|left; by apply Hd].
    apply list_elem_of_singleton in Hj. subst j. right. right. intros b Hb.
    destruct (decide (b = BB)) as [->|Hne].
    - rewrite HlBB, last_snoc in Hb. simplify_eq. lia.
    - rewrite Hother in Hb by done. apply Hne.
      apply (wf_disjoint _ _ Hwf b BB TI); by apply last_Some_elem_of. }
  split_and!.
  - eapply well_formed_except_deletion; [exact Hwf1|exact Hdel|apply Hsp].
  - eapply evolves_trans; [apply (evolves_insert [BB] BB k args st); [left|done]|].
    eapply evolves_deletion_spares; [exact Hdel|apply Hsp].
  - by rewrite (del_functions _ _ _ _ Hdel).
  - apply (settled_terminator st' BB BI k); try done.
    + eapply deletion_last; [exact Hdel|rewrite HlBB; apply last_snoc|].
      intros [Hin|Hin]%elem_of_app.
      * apply list_elem_of_singleton in Hin. lia.
      * pose proof (deletable_not_terminator st1 BI k (Hd _ Hin)) as Hnt.
        unfold getKind in Hnt. rewrite Hnew in Hnt. by specialize (Hnt eq_refl).
    + rewrite (deletion_getKind _ _ _ _ _ Hdel). unfold getKind. by rewrite Hnew.
Qed.

Lemma simplifyBlocks_effect st BB blocks r st' :
  well_formed st → blocks ∈ Functions st → BB ∈ blocks → settled st BB →
  simplifyBlocksWithCallsToNoReturn assertions order BB st = Some (r, st') →
  well_formed st' ∧ evolves [BB] st st' ∧ Functions st' = Functions st ∧ settled st' BB.
Proof.
  intros Hwf Hbl HBB Hset Hs.
  destruct (simplifyBlocks_inv _ _ _ _ _ _ Hs)
    as [(_ & -> & _)|(-> & pre & call & tail & Hl & Hpre & Hcall)].
  { split_and!; [done|apply evolves_refl|done..]. }
  destruct (simplifyBlocks_no_return assertions order BB st pre call tail _ _
              Hl Hpre Hcall Hs) as (E' & st1 & _ & -> & Hdel & Hd).
  clear Hs.
  destruct (count_removed_iter_deletion (length tail) st) as (Hi & _ & Hil & HiF & _).
  set (st0 := Nat.iter (length tail) count_removed_instruction st) in *.
  assert (well_formed_except [BB] st0) as Hwf0.
  { apply (well_formed_except_same_graph _ st); try done.
    apply (well_formed_except_mono []); [|done]. intros b Hb. by apply not_elem_of_nil in Hb. }
  assert (spares [BB] st0 (tail ++ E')) as Hsp.
  { apply spares_intro; [apply (wf_disjoint _ _ Hwf0)|].
    intros j [Hj|Hj]%elem_of_app.
    - right. left. exists BB. split; [left|]. rewrite Hil, Hl.
      apply elem_of_app. right. by right.
    - left. destruct (Hd j Hj) as (ins & ? & ? & ?). exists ins. by rewrite Hi. }
  assert (well_formed_except [BB] st1) as Hwf1.
  { by eapply well_formed_except_deletion. }
  unfold createUnreachable.
  destruct (SILBuilder_insert_facts BB UnreachableInst [] st1)
    as (Hnew & Hold & HlBB & Hother & HF & _).
  split_and!.
  - eapply well_formed_except_mono;
      [|apply (well_formed_except_insert [BB] BB UnreachableInst [] st1 Hwf1 eq_refl)].
    + intros b [Hne Hb]%list_elem_of_filter. by apply list_elem_of_singleton in Hb.
    + intros bl b' _ _ Hb'. by apply not_elem_of_nil in Hb'.
  - eapply evolves_trans; [by apply (evolves_same_graph [BB] st st0)|].
    eapply evolves_trans; [by eapply evolves_deletion_spares|].
    apply evolves_insert; [left|done].
  - by rewrite HF, (del_functions _ _ _ _ Hdel).
  - apply (settled_terminator _ BB (length (Insts st1)) UnreachableInst); try done.
    + rewrite HlBB. apply last_snoc.
    + unfold getKind. by rewrite Hnew.
Qed.

Lemma simplify_block_effect st BB blocks r st' :
  well_formed st → blocks ∈ Functions st → BB ∈ blocks →
  simplify_block assertions order BB st = Some (r, st') →
  well_formed st' ∧ evolves [BB] st st' ∧ Functions st' = Functions st ∧ settled st' BB.
Proof.
  intros Hwf Hbl HBB. unfold simplify_block, bind. intros Hs.
  destruct (constantFoldTerminator assertions order BB st) as [[folded s]|] eqn:Hf; [|done].
  destruct (constantFoldTerminator_effect _ _ _ _ _ Hwf Hbl HBB Hf) as (Hwf1 & Hev1 & HF1 & Hs1).
  destruct folded.
  - unfold ret in Hs. by simplify_eq.
  - destruct (simplifyBlocksWithCallsToNoReturn assertions order BB s) as [[r1 s1]|] eqn:Ht;
      [|done].
    unfold ret in Hs. simplify_eq.
    rewrite <-HF1 in Hbl.
    destruct (simplifyBlocks_effect _ _ _ _ _ Hwf1 Hbl HBB Hs1 Ht) as (Hwf2 & Hev2 & HF2 & Hs2).
    split_and!; [done| |congruence|done]. by eapply evolves_trans.
Qed.

End Effects.

Lemma well_formed_function_of st F blocks :
  well_formed st → Functions st !! F = Some blocks → well_formed_function st blocks.
Proof.
  intros Hwf HF.
  assert (blocks ∈ Functions st) as Hbl by (by eapply list_elem_of_lookup_2).
  split.
  - by eapply NoDup_concat_lookup, HF; apply (wf_nodup _ _ Hwf).
  - intros b Hb. apply (wf_terminated _ _ Hwf); [|apply not_elem_of_nil].
    by eapply concat_lookup_elem_of.
  - intros b b' Hb. apply (wf_successors _ _ Hwf); [done..|apply not_elem_of_nil].
  - intros b1 b2 i _ _. apply (wf_disjoint _ _ Hwf).
Qed.

Lemma for_each_same {A} (body : A → M unit) (l : list A) st :
  (∀ x, x ∈ l → body x st = Some (tt, st)) → for_each l body st = Some (tt, st).
Proof.
  induction l as [|x l IH]; intros Hall; simpl; [done|].
  unfold bind. rewrite Hall by left. apply IH. intros y Hy. apply Hall. by right.
Qed.

Section Run.
Variable assertions : bool.
Variable order : DenseSetOrder.

(** The sweep on a function all of whose blocks can be reached. *)
Lemma removeUnreachableBlocks_idle st F front rest :
  Functions st !! F = Some (front :: rest) →
  well_formed_function st (front :: rest) →
  (∀ b, b ∈ front :: rest → reachable st front b) →
  removeUnreachableBlocks assertions order F st = Some (false, st).
Proof. apply removeUnreachableBlocks_all_reachable. Qed.

Lemma removeUnreachableBlocks_effect st F blocks r st' :
  well_formed st → Functions st !! F = Some blocks →
  removeUnreachableBlocks assertions order F st = Some (r, st') →
  ∃ live dead : list nat,
    well_formed st' ∧
    Functions st' = <[F := live]> (Functions st) ∧
    (∀ b, b ∈ live → b ∈ blocks ∧ b ∉ dead) ∧ (∀ b, b ∈ dead → b ∈ blocks) ∧
    evolves dead st st' ∧
    (∀ front rest, live = front :: rest → ∀ b, b ∈ live → reachable st' front b).
Proof.
  intros Hwf HF Hr.
  pose proof (well_formed_function_of _ _ _ Hwf HF) as Hwff.
  destruct (removeUnreachableBlocks_inv _ _ _ _ _ _ Hr)
    as [(-> & -> & Hnil)|(front & rest & Reachable & HF' & Hreach & Hcases)].
  { rewrite HF in Hnil. simpl in Hnil. subst blocks. exists [], []. split_and!.
    - done.
    - symmetry. by apply list_insert_id.
    - intros b Hb. by apply not_elem_of_nil in Hb.
    - intros b Hb. by apply not_elem_of_nil in Hb.
    - apply evolves_refl.
    - done. }
  rewrite HF in HF'. simplify_eq.
  destruct (reach_loop_reachable st (front :: rest) front rest eq_refl Hwff)
    as (Reachable0 & Hreach0 & Hnd & HR & Hsub).
  change (S (S (length rest))) with (S (length (front :: rest))) in Hreach.
  rewrite Hreach0 in Hreach. simplify_eq.
  destruct Hcases as [(-> & -> & Hlen)|(-> & _ & E & st2 & Hdel & -> & Hin & Hout)].
  { exists (front :: rest), []. split_and!.
    - done.
    - symmetry. by apply list_insert_id.
    - intros b Hb. split; [done|apply not_elem_of_nil].
    - intros b Hb. by apply not_elem_of_nil in Hb.
    - apply evolves_refl.
    - intros front' rest' Heq b Hb. simplify_eq. apply HR.
      by apply (same_length_same_elements Reachable (front' :: rest')). }
  set (live := filter (λ BB, BB ∈ Reachable) (front :: rest)).
  set (dead := filter (λ BB, BB ∉ Reachable) (front :: rest)).
  assert (spares dead st E) as Hsp.
  { apply spares_intro; [apply (wf_disjoint _ _ Hwf)|].
    intros j Hj. destruct (Hout j Hj) as [?|(b & Hb & HbR & Hjb)]; [by left|].
    right. left. exists b. split; [|done]. by apply list_elem_of_filter. }
  assert (evolves dead st st2) as Hev by (by eapply evolves_deletion_spares).
  assert (well_formed_except dead st2) as Hwf2.
  { eapply well_formed_except_deletion; [|exact Hdel|exact Hsp].
    apply (well_formed_except_mono []); [|done]. intros b Hb. by apply not_elem_of_nil in Hb. }
  assert (∀ b, b ∈ front :: rest → b ∈ Reachable → b ∉ dead) as Hlive_dead.
  { intros b _ HbR [? _]%list_elem_of_filter. done. }
  assert (∀ b b', b ∈ front :: rest → b ∈ Reachable →
                  b' ∈ block_successors st b → b' ∈ Reachable) as Hclosed.
  { intros b b' Hb HbR Hb'. apply HR. eapply rtc_r; [by apply HR|done]. }
  assert (front ∈ Reachable) as Hfront by (apply HR, rtc_refl).
  exists live, dead. split_and!.
  - apply well_formed_except_set_blocks; [done|by rewrite (del_functions _ _ _ _ Hdel)|].
    intros b b' Hb HbR Hb'.
    rewrite (evolves_successors _ _ _ _ Hev) in Hb'; [by eapply Hclosed|by apply Hlive_dead|].
    by apply (wff_terminated _ _ Hwff).
  - simpl. by rewrite (del_functions _ _ _ _ Hdel).
  - intros b [HbR Hb]%list_elem_of_filter. split; [done|]. by apply Hlive_dead.
  - by intros b [_ ?]%list_elem_of_filter.
  - eapply evolves_trans; [exact Hev|]. by apply evolves_same_graph.
  - intros front' rest' Heq b [HbR Hb]%list_elem_of_filter.
    unfold live in Heq. rewrite filter_cons_True in Heq by done. simplify_eq.
    assert (reachable st2 front' b) as Hr2; [|exact Hr2].
    eapply (evolves_reachable dead st st2 live); [done| | | |by apply HR].
    + intros c [HcR Hc]%list_elem_of_filter. split; [by apply Hlive_dead|].
      by apply (wff_terminated _ _ Hwff).
    + intros c c' [HcR Hc]%list_elem_of_filter Hc'. apply list_elem_of_filter. split.
      * by eapply Hclosed.
      * by eapply (wff_successors _ _ Hwff).
    + apply list_elem_of_filter. split; [done|left].
Qed.

Lemma simplify_blocks_effect Q (bl : list nat) st r st' :
  well_formed st → bl ∈ Functions st → (∀ b, b ∈ Q → b ∈ bl) → NoDup Q →
  for_each Q (simplify_block assertions order) st = Some (r, st') →
  well_formed st' ∧ Functions st' = Functions st ∧ evolves Q st st' ∧
  (∀ b, b ∈ Q → settled st' b).
Proof.
  revert st. induction Q as [|BB Q IH]; intros st Hwf Hbl Hsub Hnd Hf; simpl in Hf.
  - unfold ret in Hf. simplify_eq. split_and!; [done..|apply evolves_refl|].
    intros b Hb. by apply not_elem_of_nil in Hb.
  - unfold bind in Hf.
    destruct (simplify_block assertions order BB st) as [[[] s]|] eqn:Hs; [|done].
    apply NoDup_cons in Hnd as [HBB Hnd].
    destruct (simplify_block_effect _ _ _ _ _ _ _ Hwf Hbl (Hsub BB ltac:(left)) Hs)
      as (Hwf1 & Hev1 & HF1 & Hset1).
    rewrite <-HF1 in Hbl.
    destruct (IH s Hwf1 Hbl (λ b Hb, Hsub b ltac:(by right)) Hnd Hf)
      as (Hwf2 & HF2 & Hev2 & Hset2).
    split_and!; [done|congruence| |].
    + eapply evolves_trans; (eapply evolves_mono; [|eassumption]).
      * intros b ->%list_elem_of_singleton. left.
      * intros b ?. by right.
    + intros b [->|Hb]%elem_of_cons; [|by apply Hset2].
      by eapply evolves_settled.
Qed.

Lemma idle_evolves X st st' F blocks :
  well_formed st → Functions st !! F = Some blocks →
  Functions st' !! F = Some blocks →
  evolves X st st' → (∀ b, b ∈ blocks → b ∉ X) → idle st F → idle st' F.
Proof.
  intros Hwf HF HF' Hev HX Hidle bl Hbl. rewrite HF' in Hbl. simplify_eq.
  destruct (Hidle _ HF) as [Hset Hreach].
  pose proof (well_formed_function_of _ _ _ Hwf HF) as Hwff.
  split.
  - intros b Hb. eapply evolves_settled; [done|by apply HX|by apply Hset].
  - intros front rest -> b Hb.
    eapply (evolves_reachable X st st' (front :: rest)); [done| | |left|by eapply Hreach].
    + intros c Hc. split; [by apply HX|]. by apply (wff_terminated _ _ Hwff).
    + apply (wff_successors _ _ Hwff).
Qed.

Lemma run_on_function_effect st F r st' :
  well_formed st → run_on_function assertions order F st = Some (r, st') →
  well_formed st' ∧ length (Functions st') = length (Functions st) ∧
  idle st' F ∧ (∀ F', F' ≠ F → idle st F' → idle st' F').
Proof.
  intros Hwf. unfold run_on_function, bind. intros Hrun.
  destruct (for_each _ _ st) as [[[] s]|] eqn:Hf; [|done].
  destruct (removeUnreachableBlocks assertions order F s) as [[r1 s1]|] eqn:Hr; [|done].
  unfold ret in Hrun. simplify_eq.
  destruct (Functions st !! F) as [bl|] eqn:HF; simpl in Hf.
  2:{ unfold ret in Hf. simplify_eq.
      apply removeUnreachableBlocks_inv in Hr
        as [(_ & -> & _)|(? & ? & ? & HF' & _)]; [|congruence].
      split_and!; try done. intros bl Hbl. congruence. }
  assert (bl ∈ Functions st) as Hbl by (by eapply list_elem_of_lookup_2).
  assert (NoDup bl) as Hndbl.
  { by eapply NoDup_concat_lookup, HF; apply (wf_nodup _ _ Hwf). }
  destruct (simplify_blocks_effect bl bl st _ _ Hwf Hbl (λ b Hb, Hb) Hndbl Hf)
    as (Hwf1 & HF1 & Hev1 & Hset1).
  assert (Functions s !! F = Some bl) as HFs by (by rewrite HF1).
  destruct (removeUnreachableBlocks_effect _ _ _ _ _ Hwf1 HFs Hr)
    as (live & dead & Hwf2 & HF2 & Hlive & Hdead & Hev2 & Hreach2).
  assert (evolves bl st st') as Hev.
  { eapply evolves_trans; [exact Hev1|]. eapply evolves_mono; [|exact Hev2]. done. }
  split_and!.
  - done.
  - by rewrite HF2, length_insert, HF1.
  - intros bl' Hbl'. rewrite HF2 in Hbl'.
    rewrite list_lookup_insert_eq in Hbl' by (rewrite HF1; by apply lookup_lt_Some in HF).
    simplify_eq. split; [|done].
    intros b Hb. destruct (Hlive b Hb) as [Hb1 Hb2].
    eapply evolves_settled; [exact Hev2|done|by apply Hset1].
  - intros F' Hne Hidle.
    destruct (Functions st !! F') as [bl'|] eqn:HF'.
    2:{ intros bl' Hbl'. rewrite HF2, list_lookup_insert_ne, HF1 in Hbl' by done.
        congruence. }
    eapply (idle_evolves bl st st' F' bl'); try done.
    + by rewrite HF2, list_lookup_insert_ne, HF1.
    + intros b Hb Hb'. apply Hne. symmetry.
      by eapply (NoDup_concat_disjoint _ _ _ _ _ b (wf_nodup _ _ Hwf)).
Qed.

Lemma run_functions_effect l st r st' :
  well_formed st → NoDup l →
  for_each l (run_on_function assertions order) st = Some (r, st') →
  well_formed st' ∧ length (Functions st') = length (Functions st) ∧
  (∀ F, F ∈ l → idle st' F) ∧ (∀ F, F ∉ l → idle st F → idle st' F).
Proof.
  revert st. induction l as [|F l IH]; intros st Hwf Hnd Hf; simpl in Hf.
  - unfold ret in Hf. simplify_eq. split_and!; try done.
    intros F HF. by apply not_elem_of_nil in HF.
  - unfold bind in Hf.
    destruct (run_on_function assertions order F st) as [[[] s]|] eqn:Hs; [|done].
    apply NoDup_cons in Hnd as [HF Hnd].
    destruct (run_on_function_effect _ _ _ _ Hwf Hs) as (Hwf1 & Hlen1 & Hidle1 & Hother1).
    destruct (IH s Hwf1 Hnd Hf) as (Hwf2 & Hlen2 & Hidle2 & Hother2).
    split_and!; [done|congruence| |].
    + intros F' [->|HF']%elem_of_cons; [by apply Hother2|by apply Hidle2].
    + intros F' HF' Hidle. apply Hother2; [set_solver|].
      apply Hother1; [set_solver|done].
Qed.

(** After a run every function is idle. *)
Lemma performSILDeadCodeElimination_effect st r st' :
  well_formed st →
  performSILDeadCodeElimination assertions order st = Some (r, st') →
  well_formed st' ∧ ∀ F, idle st' F.
Proof.
  intros Hwf Hrun. unfold performSILDeadCodeElimination in Hrun.
  destruct (run_functions_effect _ _ _ _ Hwf (NoDup_seq 0 _) Hrun)
    as (Hwf' & Hlen & Hidle & _).
  split; [done|]. intros F.
  destruct (decide (F < length (Functions st))) as [Hlt|Hge].
  - apply Hidle, elem_of_seq. lia.
  - intros bl Hbl. apply lookup_lt_Some in Hbl. lia.
Qed.

(** A run on a module whose functions are idle and whose calls all
    return. *)
Lemma performSILDeadCodeElimination_idle st :
  well_formed st → (∀ F, idle st F) →
  (∀ b i, b ∈ concat (Functions st) → i ∈ InstList st b → passes_by assertions st i) →
  performSILDeadCodeElimination assertions order st = Some (tt, st).
Proof.
  intros Hwf Hidle Hpass. unfold performSILDeadCodeElimination.
  apply for_each_same. intros F _. unfold run_on_function, bind.
  destruct (Functions st !! F) as [bl|] eqn:HF; simpl.
  2:{ unfold ret at 1. unfold removeUnreachableBlocks. by rewrite HF. }
  destruct (Hidle F bl HF) as [Hset Hreach].
  rewrite for_each_same.
  - destruct bl as [|front rest].
    + unfold removeUnreachableBlocks. by rewrite HF.
    + rewrite (removeUnreachableBlocks_idle st F front rest); [done..| |].
      * by eapply well_formed_function_of.
      * by eapply Hreach.
  - intros b Hb. unfold simplify_block, bind.
    destruct (Hset b Hb) as (TI & k & Hl & Hk & Ht & Hnf).
    rewrite (constantFoldTerminator_not_foldable assertions order b st TI) by done.
    rewrite simplifyBlocks_passes; [done|].
    intros i Hi. apply (Hpass b i); [|done]. by eapply concat_lookup_elem_of.
Qed.

End Run.

(** ** Running the pass twice *)

(** C3, as stated, fails: a block that ends in a call to a no-return
    function is truncated again by a second run, which deletes the
    [unreachable] the first run had put there, inserts another and counts
    one more removed instruction. *)
Lemma second_run_truncates_again :
  (λ r, (InstList r.2 0, NumInstructionsRemoved r.2)) <$>
    performSILDeadCodeElimination true insertion_order no_return_entry
  = Some ([0; 2], 1) ∧
  (λ r, (InstList r.2 0, NumInstructionsRemoved r.2)) <$>
    (performSILDeadCodeElimination true insertion_order no_return_entry ≫=
       λ r, performSILDeadCodeElimination true insertion_order r.2)
  = Some ([0; 3], 2).
Proof. split; vm_compute; reflexivity. Qed.

(** C3, amended: when the module the first run hands back holds no call
    to a no-return function (nor, with assertions, a call whose callee type
    is no function type), a second run changes nothing: it hands back the
    very same store, counters included. *)
Theorem second_run_changes_nothing (assertions : bool) (order : DenseSetOrder)
    (st st1 : SILModule) :
  well_formed st →
  performSILDeadCodeElimination assertions order st = Some (tt, st1) →
  (∀ b i, b ∈ concat (Functions st1) → i ∈ InstList st1 b → passes_by assertions st1 i) →
  performSILDeadCodeElimination assertions order st1 = Some (tt, st1).
Proof.
  intros Hwf Hrun Hpass.
  destruct (performSILDeadCodeElimination_effect _ _ _ _ _ Hwf Hrun) as [Hwf1 Hidle].
  by apply performSILDeadCodeElimination_idle.
Qed.

Lemma graph_well_formed insts blocks fns :
  NoDup (concat fns) → NoDup (concat blocks) →
  (∀ i, i ∈ concat blocks → i < length insts) →
  (∀ b, b ∈ concat fns → terminated (graph insts blocks fns) b) →
  (∀ bl b b', bl ∈ fns → b ∈ bl → b' ∈ block_successors (graph insts blocks fns) b →
              b' ∈ bl) →
  well_formed (graph insts blocks fns).
Proof.
  intros Hfns Hblocks Halloc Hterm Hsucc.
  assert (∀ b i, i ∈ InstList (graph insts blocks fns) b →
                 ∃ l, blocks !! b = Some l ∧ i ∈ l) as Hin.
  { intros b i. simpl. destruct (blocks !! b) as [l|]; simpl; [by exists l|].
    by intros ?%not_elem_of_nil. }
  split; simpl Functions.
  - done.
  - intros b Hb _. by apply Hterm.
  - intros bl b b' Hbl Hb _. by apply Hsucc.
  - intros b1 b2 i (l1 & H1 & Hi1)%Hin (l2 & H2 & Hi2)%Hin.
    by eapply (NoDup_concat_disjoint blocks b1 b2 l1 l2 i).
  - intros b i (l & Hl & Hi)%Hin. apply Halloc. by eapply concat_lookup_elem_of.
Qed.

Lemma well_formed_constant_branch : well_formed constant_branch.
Proof.
  apply graph_well_formed.
  - simpl. repeat (apply NoDup_cons; split; [set_solver|]). apply NoDup_nil_2.
  - simpl. repeat (apply NoDup_cons; split; [set_solver|]). apply NoDup_nil_2.
  - simpl. intros i Hi. repeat (apply elem_of_cons in Hi as [->|Hi]); try lia.
    by apply not_elem_of_nil in Hi.
  - simpl. intros b Hb. repeat (apply elem_of_cons in Hb as [->|Hb]).
    + exists 1, (CondBranchInst 1 2 0). by split_and!.
    + exists 2, (OtherTermInst []). by split_and!.
    + exists 3, (OtherTermInst []). by split_and!.
    + by apply not_elem_of_nil in Hb.
  - intros bl b b' Hbl Hb Hs. apply list_elem_of_singleton in Hbl. subst bl.
    repeat (apply elem_of_cons in Hb as [->|Hb]).
    + vm_compute in Hs. set_solver.
    + vm_compute in Hs. set_solver.
    + vm_compute in Hs. set_solver.
    + by apply not_elem_of_nil in Hb.
Qed.

Lemma second_run_changes_nothing_witness :
  well_formed constant_branch ∧
  performSILDeadCodeElimination true insertion_order constant_branch
    = Some (tt, folded_branch) ∧
  performSILDeadCodeElimination true insertion_order folded_branch
    = Some (tt, folded_branch).
Proof.
  assert (performSILDeadCodeElimination true insertion_order constant_branch
          = Some (tt, folded_branch)) as Hrun by (vm_compute; reflexivity).
  split; [apply well_formed_constant_branch|]. split; [exact Hrun|].
  apply (second_run_changes_nothing true insertion_order constant_branch folded_branch
           well_formed_constant_branch Hrun).
  intros b i _ _ ty Hk. exfalso.
  pose proof (getKind_lt _ _ _ Hk) as Hlt. vm_compute in Hlt.
  do 5 (destruct i as [|i]; [vm_compute in Hk; discriminate|]). lia.
Defined.

(** ** The pass on the sample graphs *)

(** Deleting the end of a chain of unused pure instructions takes the whole
    chain away. *)
Example cascade_chain_deleted :
  (λ r, (r.1, InstList r.2 0)) <$>
    recursivelyDeleteTriviallyDeadInstructions 2 cascade_chain
  = Some (true, [3]).
Proof. vm_compute. reflexivity. Qed.

(** An instruction that is still used stays. *)
Example cascade_chain_used :
  (λ r, (r.1, InstList r.2 0)) <$>
    recursivelyDeleteTriviallyDeadInstructions 1 cascade_chain
  = Some (false, [0; 1; 2; 3]).
Proof. vm_compute. reflexivity. Qed.

(** The sweep takes the orphan block and its instructions away and counts
    one block. *)
Example orphan_block_swept :
  (λ r, (r.1, Functions r.2, InstList r.2 0, InstList r.2 1, InstList r.2 2,
         NumBlocksRemoved r.2)) <$>
    removeUnreachableBlocks true insertion_order 0 orphan_block
  = Some (true, [[0; 1]], [0], [1], [], 1).
Proof. vm_compute. reflexivity. Qed.

(** The truncation keeps the call, puts [unreachable] behind it and counts
    the two instructions that followed. *)
Example call_then_code_truncated :
  (λ r, (r.1, InstList r.2 0, getKind 4 r.2, NumInstructionsRemoved r.2)) <$>
    simplifyBlocksWithCallsToNoReturn true insertion_order 0 call_then_code
  = Some (true, [0; 4], Some UnreachableInst, 2).
Proof. vm_compute. reflexivity. Qed.

(** The whole pass on the conditional branch on a literal: the branch is
    folded, the literal goes, the block not taken is swept. *)
Example constant_branch_run :
  (λ r, (Functions r.2, InstList r.2 0, getKind 4 r.2, getAllOperands 4 r.2,
         NumBlocksRemoved r.2, NumInstructionsRemoved r.2)) <$>
    performSILDeadCodeElimination true insertion_order constant_branch
  = Some ([[0; 1]], [4], Some (BranchInst 1), [], 1, 0).
Proof. vm_compute. reflexivity. Qed.

(** A literal of value 0 selects the false successor. *)
Example false_branch_taken :
  (λ r, (r.1, InstList r.2 0, getKind 4 r.2)) <$>
    constantFoldTerminator true insertion_order 0
      (graph [ mkInst (IntegerLiteralInst (APInt_of 1 0)) false [];
               mkInst (CondBranchInst 1 2 0) true [Some (InstValue 0)];
               return_inst; return_inst ]
             [[0; 1]; [2]; [3]] [[0; 1; 2]])
  = Some (true, [4], Some (BranchInst 2)).
Proof. vm_compute. reflexivity. Qed.

(** ** The cascading deleter, exactly

    Which instructions the cascade takes: each one it takes has lost every
    use, and it takes every pure instruction whose uses all sat in
    instructions it takes. *)

Lemma use_empty_nil j st : use_empty j st = true ↔ Uses st (InstValue j) = [].
Proof. unfold use_empty. by destruct (Uses st (InstValue j)). Qed.

Lemma scan_operands_unused I ks W st W' st' :
  scan_operands I ks W st = (W', st') →
  (∀ j, j ∈ W → use_empty j st = true) →
  ∀ j, j ∈ W' → use_empty j st' = true.
Proof.
  revert W st. induction ks as [|k ks IH]; intros W st Hs HW; simpl in Hs.
  - by simplify_eq.
  - refine (IH _ _ Hs _). clear IH Hs.
    pose proof (Operand_drop_deletion I k st) as Hk.
    assert (∀ j, j ∈ W → use_empty j (Operand_drop I k st) = true) as HW1.
    { intros j Hj. eapply deletion_use_empty; [exact Hk|by apply HW]. }
    destruct (getAllOperands I st !! k) as [[[c|]|]|]; try done.
    destruct (isInstructionTriviallyDead c (Operand_drop I k st)) eqn:Hdead; [|done].
    intros j [->|Hj]%elem_of_cons; [|by apply HW1].
    by apply isInstructionTriviallyDead_true in Hdead as [? _].
Qed.

Lemma scan_operands_pushes I ks W st W' st' J :
  scan_operands I ks W st = (W', st') →
  deletable st J → Uses st (InstValue J) ≠ [] →
  (∀ o, o ∈ Uses st (InstValue J) →
        o.1 = I ∧ o.2 ∈ ks ∧ getAllOperands I st !! o.2 = Some (Some (InstValue J))) →
  J ∈ W'.
Proof.
  revert W st. induction ks as [|k ks IH]; intros W st Hs Hdel Hne Hall; simpl in Hs.
  - destruct (Uses st (InstValue J)) as [|o l] eqn:HU; [done|].
    destruct (Hall o) as (_ & Hin & _); [left|]. by apply not_elem_of_nil in Hin.
  - pose proof (Operand_drop_deletion I k st) as Hk.
    assert (deletable (Operand_drop I k st) J) as Hdel1
      by (by apply (proj2 (deletion_deletable _ _ _ _ J Hk))).
    destruct (Uses (Operand_drop I k st) (InstValue J)) as [|o1 l1] eqn:HU1.
    + assert (getAllOperands I st !! k = Some (Some (InstValue J))) as Hop.
      { destruct (Uses st (InstValue J)) as [|o l] eqn:HU; [done|].
        destruct (Hall o) as (Ho1 & _ & Hgen); [left|].
        destruct (decide (o = (I, k))) as [->|Hneq]; [done|].
        assert (o ∈ Uses (Operand_drop I k st) (InstValue J)) as Hin.
        { rewrite (del_uses _ _ _ _ Hk), HU. apply list_elem_of_filter. split; [|left].
          intros [Ho _]. by apply list_elem_of_singleton in Ho. }
        rewrite HU1 in Hin. by apply not_elem_of_nil in Hin. }
      rewrite Hop in Hs.
      assert (isInstructionTriviallyDead J (Operand_drop I k st) = true) as Hdead.
      { apply isInstructionTriviallyDead_true. split; [|done]. by apply use_empty_nil. }
      rewrite Hdead in Hs.
      apply scan_operands_spec in Hs as (_ & pushed & -> & _).
      apply elem_of_app. right. left.
    + eapply (IH _ _ Hs); [done|by rewrite HU1|]. clear IH Hs.
      intros o Ho. rewrite (del_uses _ _ _ _ Hk) in Ho.
      apply list_elem_of_filter in Ho as [Hnot Ho].
      destruct (Hall o Ho) as (Ho1 & Ho2 & Hgen). destruct o as [i k']. simpl in *.
      subst i. assert (k' ≠ k) as Hkk.
      { intros ->. apply Hnot. split; [left|done]. }
      split; [done|]. split.
      * apply elem_of_cons in Ho2 as [?|?]; [done|done].
      * rewrite (deletion_operands_untouched _ _ _ _ I k' Hk); [done|].
        rewrite list_elem_of_singleton. congruence.
Qed.

Lemma delete_loop_exact fuel W st st' :
  delete_loop fuel W st = Some st' →
  (∀ j, j ∈ W → use_empty j st = true) →
  ∃ E, deletion (operand_slots st E) E st st' ∧
       (∀ j, j ∈ W → j ∈ E) ∧ (∀ j, j ∈ E → j ∈ W ∨ deletable st j) ∧
       (∀ j, j ∈ E → use_empty j st' = true) ∧
       (∀ J, deletable st J → Uses st (InstValue J) ≠ [] →
             (∀ o, o ∈ Uses st (InstValue J) →
                   o.1 ∈ E ∧ getAllOperands o.1 st !! o.2 = Some (Some (InstValue J))) →
             J ∈ E).
Proof.
  revert W st. induction fuel as [|fuel IH]; intros [|H W] st Hl HW; simpl in Hl;
    simplify_eq.
  - exists []. split; [apply deletion_refl|]. split_and!; try set_solver.
    intros J _ Hne Hall. destruct (Uses st' (InstValue J)) as [|o l]; [done|].
    destruct (Hall o) as [Hin _]; [left|]. by apply not_elem_of_nil in Hin.
  - exists []. split; [apply deletion_refl|]. split_and!; try set_solver.
    intros J _ Hne Hall. destruct (Uses st' (InstValue J)) as [|o l]; [done|].
    destruct (Hall o) as [Hin _]; [left|]. by apply not_elem_of_nil in Hin.
  - destruct (scan_operands H (seq 0 (length (getAllOperands H st))) W st)
      as [W1 st1] eqn:Hs.
    assert (∀ j, j ∈ W1 → use_empty j st1 = true) as HW1.
    { apply (scan_operands_unused _ _ _ _ _ _ Hs). intros j Hj. apply HW. by right. }
    pose proof (λ J, scan_operands_pushes _ _ _ _ _ _ J Hs) as Hpush.
    apply scan_operands_spec in Hs as [Hd (pushed & HWeq & Hp)].
    destruct (eraseFromParent H st1) as [[[] st2]|] eqn:Her; [|done].
    apply eraseFromParent_deletion in Her as He.
    pose proof (deletion_trans _ _ _ _ _ _ _ Hd He) as Hde.
    rewrite app_nil_r in Hde. simpl in Hde.
    assert (Uses st2 = Uses st1) as HU12 by (by apply eraseFromParent_inv in Her as (_ & _ & ? & _)).
    destruct (IH _ _ Hl) as (E & HE & Hin & Hout & Hun & Hclo).
    { intros j Hj. unfold use_empty. rewrite HU12. by apply HW1. }
    clear IH Hl.
    assert (deletion (operand_slots st (H :: E)) (H :: E) st st') as Hall.
    { rewrite operand_slots_cons.
      rewrite (operand_slots_deletion _ _ _ _ _ Hde) in HE.
      exact (deletion_trans _ _ _ _ _ _ _ Hde HE). }
    exists (H :: E). split_and!.
    + exact Hall.
    + intros j [->|Hj]%elem_of_cons; [left|]. right. apply Hin. subst W1. set_solver.
    + intros j [->|Hj]%elem_of_cons; [left; left|].
      destruct (Hout j Hj) as [HjW|Hdel].
      * subst W1. apply elem_of_app in HjW as [?|?]; [right; by apply Hp|left; by right].
      * right. by apply (proj1 (deletion_deletable _ _ _ _ j Hde)).
    + intros j [->|Hj]%elem_of_cons; [|by apply Hun].
      eapply deletion_use_empty; [exact Hall|]. apply HW. left.
    + intros J HdelJ Hne HJ.
      destruct (Uses st2 (InstValue J)) as [|o2 l2] eqn:HU2.
      * right. apply Hin. apply Hpush; [done..|].
        intros o Ho. destruct (HJ o Ho) as [_ Hgen].
        assert (o ∈ (λ k, (H, k)) <$> seq 0 (length (getAllOperands H st))) as Hslot.
        { destruct (decide (o ∈ (λ k, (H, k)) <$> seq 0 (length (getAllOperands H st))))
            as [?|Hn]; [done|].
          assert (o ∈ Uses st2 (InstValue J)) as Hin2.
          { rewrite (del_uses _ _ _ _ Hde). apply list_elem_of_filter. split; [|done].
            by intros [? _]. }
          rewrite HU2 in Hin2. by apply not_elem_of_nil in Hin2. }
        apply list_elem_of_fmap in Hslot as (k & -> & Hk). simpl in *. done.
      * right. apply Hclo.
        -- by apply (proj2 (deletion_deletable _ _ _ _ J Hde)).
        -- by rewrite HU2.
        -- intros o Ho. rewrite (del_uses _ _ _ _ Hde) in Ho.
           apply list_elem_of_filter in Ho as [Hnot Ho].
           destruct (HJ o Ho) as [HoE Hgen]. destruct o as [i k]. simpl in *.
           assert ((i, k) ∉ (λ k, (H, k)) <$> seq 0 (length (getAllOperands H st)))
             as Hnslot by (intros ?; by apply Hnot).
           split.
           ++ apply elem_of_cons in HoE as [->|?]; [|done]. exfalso. apply Hnslot.
              apply list_elem_of_fmap. exists k. split; [done|]. apply elem_of_seq.
              apply lookup_lt_Some in Hgen. lia.
           ++ by rewrite (deletion_operands_untouched _ _ _ _ i k Hde).
Qed.

Lemma recursivelyDelete_exact I st r st' :
  recursivelyDeleteTriviallyDeadInstructions I st = Some (r, st') →
  ∃ E, deletion (operand_slots st E) E st st' ∧
       (∀ j, j ∈ E → deletable st j ∧ use_empty j st' = true) ∧
       (r = true → I ∈ E) ∧
       (∀ J, deletable st J → Uses st (InstValue J) ≠ [] →
             (∀ o, o ∈ Uses st (InstValue J) →
                   o.1 ∈ E ∧ getAllOperands o.1 st !! o.2 = Some (Some (InstValue J))) →
             J ∈ E).
Proof.
  unfold recursivelyDeleteTriviallyDeadInstructions, bind, dereference.
  case_decide as Hlive; [done|].
  destruct (isInstructionTriviallyDead I st) eqn:Hdead; cbn [negb].
  - destruct (delete_loop _ _ _) as [s|] eqn:Hl; [|done]. intros ?; simplify_eq.
    apply isInstructionTriviallyDead_true in Hdead as [Hu HdI].
    apply delete_loop_exact in Hl as (E & HE & Hin & Hout & Hun & Hclo).
    + exists E. split_and!; [done| |set_solver|done].
      intros j Hj. split; [|by apply Hun]. destruct (Hout j Hj) as [Hw|?]; [|done].
      apply list_elem_of_singleton in Hw. by subst j.
    + intros j Hj. apply list_elem_of_singleton in Hj. by subst j.
  - intros ?; simplify_eq. exists []. split_and!; [apply deletion_refl|set_solver|done|].
    intros J _ Hne Hall. destruct (Uses st' (InstValue J)) as [|o l]; [done|].
    destruct (Hall o) as [Hin _]; [left|]. by apply not_elem_of_nil in Hin.
Qed.

(** The users of an instruction that a deletion has left without uses are
    among the instructions it took. *)
Lemma deletion_users_gone E st st' j o :
  deletion (operand_slots st E) E st st' → use_empty j st' = true →
  o ∈ Uses st (InstValue j) → o.1 ∈ E.
Proof.
  intros H Hu Ho. apply use_empty_nil in Hu. rewrite (del_uses _ _ _ _ H) in Hu.
  destruct (decide (o ∈ operand_slots st E)) as [Hin|Hn].
  - destruct o as [i k]. by apply elem_of_operand_slots in Hin as [? _].
  - assert (o ∈ filter (λ o, ¬ (o ∈ operand_slots st E ∧
                getAllOperands o.1 st !! o.2 = Some (Some (InstValue j))))
               (Uses st (InstValue j))) as Hin.
    { apply list_elem_of_filter. split; [|done]. by intros [? _]. }
    rewrite Hu in Hin. by apply not_elem_of_nil in Hin.
Qed.

Lemma not_linked_deleted O E st st' i :
  deletion O E st st' → linked st i → ¬ linked st' i → i ∈ E.
Proof.
  intros H Hl Hn. destruct (decide (i ∈ E)) as [?|HnE]; [done|].
  destruct Hn. by apply (deletion_linked _ _ _ _ _ H).
Qed.

Lemma deleted_not_linked O E st st' i :
  deletion O E st st' → i ∈ E → ¬ linked st' i.
Proof. intros H Hi [_ ?]%(deletion_linked _ _ _ _ _ H). done. Qed.

Section CleanupExact.
Variable order : DenseSetOrder.

Lemma delete_possibly_dead_unused l acc st r st' :
  delete_possibly_dead l acc st = Some (r, st') →
  ∃ E, deletion (operand_slots st E) E st st' ∧
       (∀ j, j ∈ E → deletable st j ∧ use_empty j st' = true).
Proof.
  revert acc st. induction l as [|V l IH]; intros acc st Hd; simpl in Hd.
  - unfold ret in Hd. simplify_eq. exists []. split; [apply deletion_refl|]. set_solver.
  - unfold bind in Hd.
    destruct (recursivelyDeleteTriviallyDeadInstructions V st) as [[r1 s1]|] eqn:Hr;
      [|done].
    apply recursivelyDelete_exact in Hr as (E1 & HE1 & Hdel1 & _).
    destruct (IH _ _ Hd) as (E2 & HE2 & Hdel2). clear IH Hd.
    exists (E1 ++ E2). split.
    + rewrite operand_slots_app.
      rewrite (operand_slots_deletion _ _ _ _ _ HE1) in HE2.
      by eapply deletion_trans.
    + intros j [Hj|Hj]%elem_of_app.
      * destruct (Hdel1 j Hj) as [? Hu]. split; [done|].
        eapply deletion_use_empty; [exact HE2|done].
      * destruct (Hdel2 j Hj) as [Hd Hu]. split; [|done].
        by apply (proj1 (deletion_deletable _ _ _ _ j HE1)).
Qed.

(** The set deletion: what it takes besides the set is pure, is no
    terminator, and has lost every use. *)
Lemma eraseAndCleanup_exact ToBeDeleted st r st' :
  eraseAndCleanup order ToBeDeleted st = Some (r, st') →
  ∃ E', deletion (operand_slots st (ToBeDeleted ++ E')) (ToBeDeleted ++ E') st st' ∧
        (∀ j, j ∈ E' → deletable st j ∧ use_empty j st' = true).
Proof.
  unfold eraseAndCleanup.
  destruct (drop_references _ _ _ _) as [PD st1] eqn:Hdrop.
  unfold bind, ret.
  destruct (delete_possibly_dead _ _ _) as [[r1 st2]|] eqn:Hpd; [|done].
  destruct (for_each _ _ st2) as [[[] st3]|] eqn:Her; [|done].
  intros ?; simplify_eq.
  apply drop_references_spec in Hdrop as (H1 & _ & _).
  apply delete_possibly_dead_unused in Hpd as (E' & H2 & Hdel).
  pose proof (iteration_perm order ToBeDeleted) as Hperm.
  apply erase_all_deletion in Her as H3.
  exists E'. split.
  - rewrite (operand_slots_deletion _ _ _ _ _ H1) in H2.
    pose proof (deletion_trans _ _ _ _ _ _ _ H1 H2) as H12.
    pose proof (deletion_trans _ _ _ _ _ _ _ H12 H3) as H.
    eapply deletion_ext; [| |exact H].
    + intros [i k]. rewrite app_nil_r, !elem_of_app, !elem_of_operand_slots, elem_of_app.
      rewrite Hperm. tauto.
    + intros i. simpl. rewrite !elem_of_app, Hperm. tauto.
  - intros j Hj. destruct (Hdel j Hj) as [Hd Hu]. split.
    + by apply (proj1 (deletion_deletable _ _ _ _ j H1)).
    + eapply deletion_use_empty; [exact H3|done].
Qed.

End CleanupExact.

(** The operands of an instruction a deletion took are all nulled. *)
Lemma deletion_operands_nulled E st st' i o :
  deletion (operand_slots st E) E st st' → i ∈ E → o ∈ getAllOperands i st' → o = None.
Proof.
  intros H Hi Ho. apply list_elem_of_lookup in Ho as [k Hk].
  rewrite (del_operands _ _ _ _ H) in Hk.
  destruct (getAllOperands i st !! k) as [o'|] eqn:Ho'; simpl in Hk; [|done].
  rewrite decide_True in Hk; [by simplify_eq|].
  apply elem_of_operand_slots. split; [done|]. by apply lookup_lt_Some in Ho'.
Qed.

(** ** The cascade on a store without dangling handles

    The cascade comes back: an instruction is pushed at the one moment
    its last use is dropped, so none is met twice, and what is pushed
    sits in a block. *)







(** ** What the deleters take and what they leave *)

Lemma cascade_chain_after_run :
  recursivelyDeleteTriviallyDeadInstructions 2 cascade_chain
  = Some (true, cascade_chain_after).
Proof. vm_compute. reflexivity. Qed.

Lemma cascade_chain_after_unlinked i : i ∈ [0; 1; 2] → ¬ linked cascade_chain_after i.
Proof.
  intros Hi [b Hb].
  assert (InstList cascade_chain_after b = if decide (b = 0) then [3] else []) as Heq.
  { destruct b as [|b]; vm_compute; reflexivity. }
  rewrite Heq in Hb. case_decide; set_solver.
Qed.

Lemma erased_branch_run :
  eraseAndCleanup insertion_order [1] branch_with_argument = Some (false, erased_branch).
Proof. vm_compute. reflexivity. Qed.

Lemma erased_branch_unlinked i : i ∈ [0; 1] → ¬ linked erased_branch i.
Proof.
  intros Hi [b Hb].
  assert (InstList erased_branch b = if decide (b = 1) then [2] else []) as Heq.
  { destruct b as [|[|b]]; vm_compute; reflexivity. }
  rewrite Heq in Hb. case_decide; set_solver.
Qed.




(** X2: the cascade is complete.  On a def-use consistent store, a pure
    instruction that is no terminator and whose uses all sit in
    instructions the cascade has taken out of their blocks is taken out as
    well. *)
Theorem cascade_takes_what_only_the_deleted_use (I : nat) (st : SILModule)
    (r : bool) (st' : SILModule) (J : nat) :
  consistent st →
  recursivelyDeleteTriviallyDeadInstructions I st = Some (r, st') →
  deletable st J → Uses st (InstValue J) ≠ [] →
  (∀ o, o ∈ Uses st (InstValue J) → ¬ linked st' o.1) →
  ¬ linked st' J.
Proof.
  intros Hc Hr Hdel Hne Hall.
  apply recursivelyDelete_exact in Hr as (E & HE & _ & _ & Hclo).
  eapply deleted_not_linked; [exact HE|]. apply Hclo; [done..|].
  intros [i k] Ho. apply (Hc _ i k) in Ho as Hlk. destruct Hlk as [Hl Hgen].
  split; [|done]. eapply not_linked_deleted; [exact HE|done|]. by apply (Hall (i, k)).
Qed.

Lemma cascade_takes_what_only_the_deleted_use_witness :
  consistent cascade_chain ∧
  recursivelyDeleteTriviallyDeadInstructions 2 cascade_chain
    = Some (true, cascade_chain_after) ∧
  ¬ linked cascade_chain_after 1.
Proof.
  split; [apply graph_consistent|]. split; [apply cascade_chain_after_run|].
  apply (cascade_takes_what_only_the_deleted_use 2 cascade_chain true cascade_chain_after 1).
  - apply graph_consistent.
  - apply cascade_chain_after_run.
  - eexists. split_and!; reflexivity.
  - vm_compute. discriminate.
  - intros o Ho.
    assert (Uses cascade_chain (InstValue 1) = [(2, 0); (2, 1)]) as Heq
      by (vm_compute; reflexivity).
    rewrite Heq in Ho. apply cascade_chain_after_unlinked.
    apply elem_of_cons in Ho as [->|Ho]; [set_solver|].
    apply list_elem_of_singleton in Ho as ->. set_solver.
Defined.

(** X3: the cascade is sound.  An instruction it takes out of its block
    has no side effects, is no terminator, and every instruction that used
    it has been taken out as well: nothing left in a block reads a deleted
    value. *)
Theorem cascade_takes_only_the_unused (I : nat) (st : SILModule) (r : bool)
    (st' : SILModule) (j : nat) :
  recursivelyDeleteTriviallyDeadInstructions I st = Some (r, st') →
  linked st j → ¬ linked st' j →
  deletable st j ∧ ∀ o, o ∈ Uses st (InstValue j) → ¬ linked st' o.1.
Proof.
  intros Hr Hl Hn.
  apply recursivelyDelete_exact in Hr as (E & HE & Hdel & _ & _).
  pose proof (not_linked_deleted _ _ _ _ _ HE Hl Hn) as Hj.
  destruct (Hdel j Hj) as [Hd Hu]. split; [done|].
  intros o Ho. eapply deleted_not_linked; [exact HE|].
  by eapply deletion_users_gone.
Qed.

Lemma cascade_takes_only_the_unused_witness :
  linked cascade_chain 0 ∧ ¬ linked cascade_chain_after 0 ∧
  deletable cascade_chain 0 ∧
  ∀ o, o ∈ Uses cascade_chain (InstValue 0) → ¬ linked cascade_chain_after o.1.
Proof.
  assert (linked cascade_chain 0) as Hl by (exists 0; vm_compute; set_solver).
  assert (¬ linked cascade_chain_after 0) as Hn
    by (apply cascade_chain_after_unlinked; set_solver).
  split; [exact Hl|]. split; [exact Hn|].
  exact (cascade_takes_only_the_unused 2 cascade_chain true cascade_chain_after 0
           cascade_chain_after_run Hl Hn).
Defined.

(** X4: what a set deletion has done to the set when it comes back,
    whatever order the set hands out its members in: every member of the
    set is in no block and all its operands are nulled; the block lists of
    the functions and the statistics are as before. *)
Theorem eraseAndCleanup_takes_the_set (order : DenseSetOrder)
    (ToBeDeleted : list nat) (st : SILModule) (r : bool) (st' : SILModule) :
  eraseAndCleanup order ToBeDeleted st = Some (r, st') →
  (∀ i, i ∈ ToBeDeleted →
        ¬ linked st' i ∧ ∀ o, o ∈ getAllOperands i st' → o = None) ∧
  Functions st' = Functions st ∧
  NumBlocksRemoved st' = NumBlocksRemoved st ∧
  NumInstructionsRemoved st' = NumInstructionsRemoved st.
Proof.
  intros Hr.
  apply eraseAndCleanup_exact in Hr as (E' & HE & _).
  split_and!.
  - intros i Hi. split.
    + eapply deleted_not_linked; [exact HE|]. apply elem_of_app. by left.
    + intros o Ho. eapply deletion_operands_nulled; [exact HE| |exact Ho].
      apply elem_of_app. by left.
  - apply (del_functions _ _ _ _ HE).
  - apply (del_blocks_removed _ _ _ _ HE).
  - apply (del_insts_removed _ _ _ _ HE).
Qed.

Lemma eraseAndCleanup_takes_the_set_witness :
  eraseAndCleanup insertion_order [1] branch_with_argument = Some (false, erased_branch) ∧
  getAllOperands 1 branch_with_argument = [Some (InstValue 0)] ∧
  (∀ i, i ∈ [1] →
        ¬ linked erased_branch i ∧ ∀ o, o ∈ getAllOperands i erased_branch → o = None).
Proof.
  split; [apply erased_branch_run|]. split; [reflexivity|].
  exact (proj1 (eraseAndCleanup_takes_the_set insertion_order [1] branch_with_argument
                  false erased_branch erased_branch_run)).
Defined.

(** X5: what the set deletion takes besides the set.  An instruction
    outside the set that leaves its block has no side effects, is no
    terminator, and every instruction that used it has left its block as
    well; so an instruction that something remaining in the graph still
    reads is never taken. *)
Theorem eraseAndCleanup_takes_only_the_unused (order : DenseSetOrder)
    (ToBeDeleted : list nat) (st : SILModule) (r : bool) (st' : SILModule) (j : nat) :
  eraseAndCleanup order ToBeDeleted st = Some (r, st') →
  j ∉ ToBeDeleted → linked st j → ¬ linked st' j →
  deletable st j ∧ ∀ o, o ∈ Uses st (InstValue j) → ¬ linked st' o.1.
Proof.
  intros Hr HnS Hl Hn.
  apply eraseAndCleanup_exact in Hr as (E' & HE & Hdel).
  pose proof (not_linked_deleted _ _ _ _ _ HE Hl Hn) as Hj.
  apply elem_of_app in Hj as [?|Hj]; [done|].
  destruct (Hdel j Hj) as [Hd Hu]. split; [done|].
  intros o Ho. eapply deleted_not_linked; [exact HE|].
  by eapply deletion_users_gone.
Qed.

(** X6: the cleanup after a set deletion.  On a def-use consistent store,
    a pure instruction outside the set that is no terminator and is used
    by members of the set only is deleted along with the set. *)
Theorem eraseAndCleanup_takes_what_only_the_set_uses (order : DenseSetOrder)
    (ToBeDeleted : list nat) (st : SILModule) (r : bool) (st' : SILModule) (j : nat) :
  consistent st →
  eraseAndCleanup order ToBeDeleted st = Some (r, st') →
  j ∉ ToBeDeleted → deletable st j → Uses st (InstValue j) ≠ [] →
  (∀ o, o ∈ Uses st (InstValue j) → o.1 ∈ ToBeDeleted) →
  ¬ linked st' j.
Proof.
  intros Hc Hr HnS Hdel Hne Hall.
  apply eraseAndCleanup_spec in Hr as (_ & E' & HE & _ & Hcand).
  eapply deleted_not_linked; [exact HE|]. apply elem_of_app. right.
  apply Hcand; [done..| |].
  - destruct (Uses st (InstValue j)) as [|[i k] l] eqn:HU; [done|].
    exists i. split; [apply (Hall (i, k)); left|].
    assert ((i, k) ∈ Uses st (InstValue j)) as Ho by (rewrite HU; left).
    apply (Hc _ i k) in Ho as [_ Hgen]. by eapply list_elem_of_lookup_2.
  - intros [i k] Ho. split; [by apply (Hall (i, k))|].
    by apply (Hc _ i k) in Ho as [_ Hgen].
Qed.

(** X7: the set deletion of the empty set changes nothing. *)
Theorem eraseAndCleanup_empty (order : DenseSetOrder) (st : SILModule) :
  eraseAndCleanup order [] st = Some (false, st).
Proof.
  unfold eraseAndCleanup.
  pose proof (iteration_perm order []) as Hperm. apply Permutation_nil_r in Hperm.
  rewrite Hperm. simpl. rewrite Hperm. reflexivity.
Qed.

Lemma eraseAndCleanup_takes_only_the_unused_witness :
  0 ∉ [1] ∧ linked branch_with_argument 0 ∧ ¬ linked erased_branch 0 ∧
  deletable branch_with_argument 0 ∧
  ∀ o, o ∈ Uses branch_with_argument (InstValue 0) → ¬ linked erased_branch o.1.
Proof.
  assert (0 ∉ [1]) as HnS by set_solver.
  assert (linked branch_with_argument 0) as Hl by (exists 0; vm_compute; set_solver).
  assert (¬ linked erased_branch 0) as Hn by (apply erased_branch_unlinked; set_solver).
  split; [exact HnS|]. split; [exact Hl|]. split; [exact Hn|].
  exact (eraseAndCleanup_takes_only_the_unused insertion_order [1] branch_with_argument
           false erased_branch 0 erased_branch_run HnS Hl Hn).
Defined.

Lemma eraseAndCleanup_takes_what_only_the_set_uses_witness :
  consistent branch_with_argument ∧
  eraseAndCleanup insertion_order [1] branch_with_argument = Some (false, erased_branch) ∧
  ¬ linked erased_branch 0.
Proof.
  split; [apply graph_consistent|]. split; [apply erased_branch_run|].
  apply (eraseAndCleanup_takes_what_only_the_set_uses insertion_order [1]
           branch_with_argument false erased_branch 0).
  - apply graph_consistent.
  - apply erased_branch_run.
  - set_solver.
  - eexists. split_and!; reflexivity.
  - vm_compute. discriminate.
  - intros o Ho.
    assert (Uses branch_with_argument (InstValue 0) = [(1, 0)]) as Heq
      by (vm_compute; reflexivity).
    rewrite Heq in Ho. apply list_elem_of_singleton in Ho as ->. set_solver.
Defined.

(** ** The rewrites of the control-flow graph *)

Lemma constant_branch_folded_run :
  constantFoldTerminator true insertion_order 0 constant_branch
  = Some (true, constant_branch_folded).
Proof. vm_compute. reflexivity. Qed.

Lemma constant_branch_in_module : [0; 1; 2] ∈ Functions constant_branch ∧ 0 ∈ [0; 1; 2].
Proof. split; [left|left]. Qed.

Lemma well_formed_constant_branch_folded : well_formed constant_branch_folded.
Proof.
  destruct constant_branch_in_module as [HF HB].
  by destruct (constantFoldTerminator_effect true insertion_order _ _ _ _ _
                 well_formed_constant_branch HF HB constant_branch_folded_run).
Qed.

Lemma constant_branch_folded_sweep :
  removeUnreachableBlocks true insertion_order 0 constant_branch_folded
  = Some (true, folded_branch).
Proof. vm_compute. reflexivity. Qed.

Lemma constant_branch_pass :
  performSILDeadCodeElimination true insertion_order constant_branch
  = Some (tt, folded_branch).
Proof. vm_compute. reflexivity. Qed.

(** X8: constant folding the terminator of a block of a well-formed
    module leaves the module well-formed, with the same functions and
    blocks.  The block ends in a terminator the folder has nothing to do
    on, and every other block of the module keeps its terminator and its
    successors. *)
Theorem constantFoldTerminator_keeps_well_formed (assertions : bool)
    (order : DenseSetOrder) (st : SILModule) (BB : nat) (blocks : list nat)
    (r : bool) (st' : SILModule) :
  well_formed st → blocks ∈ Functions st → BB ∈ blocks →
  constantFoldTerminator assertions order BB st = Some (r, st') →
  well_formed st' ∧ Functions st' = Functions st ∧ settled st' BB ∧
  ∀ b, b ∈ concat (Functions st) → b ≠ BB →
       last (InstList st' b) = last (InstList st b) ∧
       block_successors st' b = block_successors st b.
Proof.
  intros Hwf HF HB Hfold.
  destruct (constantFoldTerminator_effect _ _ _ _ _ _ _ Hwf HF HB Hfold)
    as (Hwf' & Hev & HFs & Hset).
  split_and!; [done..|]. intros b Hb Hne.
  assert (b ∉ [BB]) as HnX by (by rewrite list_elem_of_singleton).
  assert (b ∉ ([] : list nat)) as Hnil by apply not_elem_of_nil.
  pose proof (wf_terminated _ _ Hwf b Hb Hnil) as Hterm.
  split; [|by eapply evolves_successors].
  destruct Hterm as (TI & k & Hlast & Hk & Ht).
  destruct Hev as (_ & _ & Hframe).
  destruct (Hframe b TI k HnX Hlast Hk Ht) as [Hlast' _]. by rewrite Hlast, Hlast'.
Qed.

Lemma constantFoldTerminator_keeps_well_formed_witness :
  well_formed constant_branch ∧
  constantFoldTerminator true insertion_order 0 constant_branch
    = Some (true, constant_branch_folded) ∧
  well_formed constant_branch_folded ∧ settled constant_branch_folded 0.
Proof.
  destruct constant_branch_in_module as [HF HB].
  split; [apply well_formed_constant_branch|]. split; [apply constant_branch_folded_run|].
  destruct (constantFoldTerminator_keeps_well_formed true insertion_order
              constant_branch 0 [0; 1; 2] true constant_branch_folded
              well_formed_constant_branch HF HB constant_branch_folded_run)
    as (Hwf & _ & Hset & _).
  split; [exact Hwf|exact Hset].
Defined.

(** X9: the constant folder has nothing left to do on a block it has been
    at: called again on the same block of a well-formed module, it answers
    false and changes nothing. *)
Theorem constantFoldTerminator_twice (assertions : bool) (order : DenseSetOrder)
    (st : SILModule) (BB : nat) (blocks : list nat) (r : bool) (st' : SILModule) :
  well_formed st → blocks ∈ Functions st → BB ∈ blocks →
  constantFoldTerminator assertions order BB st = Some (r, st') →
  constantFoldTerminator assertions order BB st' = Some (false, st').
Proof.
  intros Hwf HF HB Hfold.
  destruct (constantFoldTerminator_effect _ _ _ _ _ _ _ Hwf HF HB Hfold)
    as (_ & _ & _ & TI & k & Hlast & _ & _ & Hnf).
  by eapply constantFoldTerminator_not_foldable.
Qed.

Lemma constantFoldTerminator_twice_witness :
  well_formed constant_branch ∧
  constantFoldTerminator true insertion_order 0 constant_branch
    = Some (true, constant_branch_folded) ∧
  constantFoldTerminator true insertion_order 0 constant_branch_folded
    = Some (false, constant_branch_folded).
Proof.
  destruct constant_branch_in_module as [HF HB].
  split; [apply well_formed_constant_branch|]. split; [apply constant_branch_folded_run|].
  exact (constantFoldTerminator_twice true insertion_order constant_branch 0 [0; 1; 2]
           true constant_branch_folded
           well_formed_constant_branch HF HB constant_branch_folded_run).
Defined.

(** X10: the sweep of a function of a well-formed module leaves the module
    well-formed; the function keeps a part of its blocks, and in the
    resulting graph every block it keeps can be reached from its entry
    block. *)
Theorem removeUnreachableBlocks_leaves_reachable (assertions : bool)
    (order : DenseSetOrder) (st : SILModule) (F : nat) (blocks : list nat)
    (r : bool) (st' : SILModule) :
  well_formed st → Functions st !! F = Some blocks →
  removeUnreachableBlocks assertions order F st = Some (r, st') →
  well_formed st' ∧
  ∃ live : list nat,
    Functions st' = <[F := live]> (Functions st) ∧
    (∀ b, b ∈ live → b ∈ blocks) ∧
    (∀ front rest, live = front :: rest → ∀ b, b ∈ live → reachable st' front b).
Proof.
  intros Hwf HF Hs.
  destruct (removeUnreachableBlocks_effect _ _ _ _ _ _ _ Hwf HF Hs)
    as (live & dead & Hwf' & HFs & Hlive & _ & _ & Hreach).
  split; [done|]. exists live. split_and!; [done| |done].
  intros b Hb. by apply Hlive.
Qed.

Lemma removeUnreachableBlocks_leaves_reachable_witness :
  well_formed constant_branch_folded ∧
  Functions constant_branch_folded !! 0 = Some [0; 1; 2] ∧
  removeUnreachableBlocks true insertion_order 0 constant_branch_folded
    = Some (true, folded_branch) ∧
  well_formed folded_branch.
Proof.
  assert (Functions constant_branch_folded !! 0 = Some [0; 1; 2]) as HF
    by (vm_compute; reflexivity).
  split; [apply well_formed_constant_branch_folded|]. split; [exact HF|].
  split; [apply constant_branch_folded_sweep|].
  by destruct (removeUnreachableBlocks_leaves_reachable true insertion_order
                 constant_branch_folded 0 [0; 1; 2] true folded_branch
                 well_formed_constant_branch_folded HF constant_branch_folded_sweep).
Defined.

(** X11: the sweep has nothing left to do on a function it has swept:
    called again on the same function of a well-formed module, it answers
    false and changes nothing. *)
Theorem removeUnreachableBlocks_twice (assertions : bool) (order : DenseSetOrder)
    (st : SILModule) (F : nat) (blocks : list nat) (r : bool) (st' : SILModule) :
  well_formed st → Functions st !! F = Some blocks →
  removeUnreachableBlocks assertions order F st = Some (r, st') →
  removeUnreachableBlocks assertions order F st' = Some (false, st').
Proof.
  intros Hwf HF Hs.
  destruct (removeUnreachableBlocks_effect _ _ _ _ _ _ _ Hwf HF Hs)
    as (live & dead & Hwf' & HFs & _ & _ & _ & Hreach).
  assert (Functions st' !! F = Some live) as HF'.
  { rewrite HFs. apply list_lookup_insert_eq. by apply lookup_lt_Some in HF. }
  destruct live as [|front rest].
  - unfold removeUnreachableBlocks. by rewrite HF'.
  - apply (removeUnreachableBlocks_idle assertions order st' F front rest).
    + done.
    + by eapply well_formed_function_of.
    + by apply (Hreach front rest).
Qed.

Lemma removeUnreachableBlocks_twice_witness :
  well_formed constant_branch_folded ∧
  removeUnreachableBlocks true insertion_order 0 constant_branch_folded
    = Some (true, folded_branch) ∧
  removeUnreachableBlocks true insertion_order 0 folded_branch
    = Some (false, folded_branch).
Proof.
  assert (Functions constant_branch_folded !! 0 = Some [0; 1; 2]) as HF
    by (vm_compute; reflexivity).
  split; [apply well_formed_constant_branch_folded|].
  split; [apply constant_branch_folded_sweep|].
  exact (removeUnreachableBlocks_twice true insertion_order constant_branch_folded 0
           [0; 1; 2] true folded_branch
           well_formed_constant_branch_folded HF constant_branch_folded_sweep).
Defined.

(** ** The pass as a whole *)

(** X12: a run of the pass keeps a well-formed module well-formed: every
    block of every function still ends in a terminator whose successors
    are blocks of the same function, no block occurs twice, and no
    instruction sits in two blocks. *)
Theorem performSILDeadCodeElimination_keeps_well_formed (assertions : bool)
    (order : DenseSetOrder) (st st' : SILModule) :
  well_formed st →
  performSILDeadCodeElimination assertions order st = Some (tt, st') →
  well_formed st'.
Proof.
  intros Hwf Hrun.
  by destruct (performSILDeadCodeElimination_effect _ _ _ _ _ Hwf Hrun).
Qed.

Lemma performSILDeadCodeElimination_keeps_well_formed_witness :
  well_formed constant_branch ∧
  performSILDeadCodeElimination true insertion_order constant_branch
    = Some (tt, folded_branch) ∧
  well_formed folded_branch.
Proof.
  split; [apply well_formed_constant_branch|]. split; [apply constant_branch_pass|].
  exact (performSILDeadCodeElimination_keeps_well_formed true insertion_order
           constant_branch folded_branch well_formed_constant_branch constant_branch_pass).
Defined.

(** X13: what a run of the pass achieves on a well-formed module: in every
    function, no block is left whose terminator is a conditional branch on
    an integer literal, and every block can be reached from the entry
    block of the function. *)
Theorem performSILDeadCodeElimination_achieves (assertions : bool)
    (order : DenseSetOrder) (st st' : SILModule) (F : nat) (blocks : list nat) :
  well_formed st →
  performSILDeadCodeElimination assertions order st = Some (tt, st') →
  Functions st' !! F = Some blocks →
  (∀ b, b ∈ blocks → settled st' b) ∧
  (∀ front rest, blocks = front :: rest → ∀ b, b ∈ blocks → reachable st' front b).
Proof.
  intros Hwf Hrun HF.
  destruct (performSILDeadCodeElimination_effect _ _ _ _ _ Hwf Hrun) as [_ Hidle].
  by apply (Hidle F).
Qed.

Lemma performSILDeadCodeElimination_achieves_witness :
  well_formed constant_branch ∧
  performSILDeadCodeElimination true insertion_order constant_branch
    = Some (tt, folded_branch) ∧
  Functions folded_branch !! 0 = Some [0; 1] ∧
  (∀ b, b ∈ [0; 1] → settled folded_branch b) ∧
  (∀ front rest, [0; 1] = front :: rest → ∀ b, b ∈ [0; 1] → reachable folded_branch front b).
Proof.
  assert (Functions folded_branch !! 0 = Some [0; 1]) as HF by (vm_compute; reflexivity).
  split; [apply well_formed_constant_branch|]. split; [apply constant_branch_pass|].
  split; [exact HF|].
  exact (performSILDeadCodeElimination_achieves true insertion_order constant_branch
           folded_branch 0 [0; 1] well_formed_constant_branch constant_branch_pass HF).
Defined.

(** ** The graph only shrinks *)

Lemma sublist_filter_mono {A} (P : A → Prop) `{!∀ x, Decision (P x)} (l1 l2 : list A) :
  l1 `sublist_of` l2 → filter P l1 `sublist_of` filter P l2.
Proof.
  induction 1 as [|x l1 l2 _ IH|x l1 l2 _ IH].
  - done.
  - destruct (decide (P x)).
    + rewrite !filter_cons_True by done. by constructor.
    + by rewrite !filter_cons_False by done.
  - destruct (decide (P x)).
    + rewrite filter_cons_True by done. by constructor.
    + by rewrite filter_cons_False by done.
Qed.

Global Instance shrunk_PreOrder : PreOrder shrunk.
Proof.
  split.
  - intros st. split_and!; [done| |done| |done].
    + intros F l l' H1 H2. by simplify_eq.
    + intros b. apply sublist_filter.
  - intros x y z (HF1 & Hb1 & Hn1 & Hi1 & Hu1) (HF2 & Hb2 & Hn2 & Hi2 & Hu2).
    split_and!.
    + congruence.
    + intros F l l'' Hx Hz.
      destruct (lookup_lt_is_Some_2 (Functions y) F) as [l' Hy].
      { rewrite HF1. by apply lookup_lt_Some in Hx. }
      transitivity l'; [by eapply Hb2|by eapply Hb1].
    + lia.
    + intros b. transitivity (filter (λ i, i < length (Insts x)) (InstList y b));
        [|apply Hi1].
      assert (filter (λ i, i < length (Insts x)) (InstList z b) =
              filter (λ i, i < length (Insts x))
                (filter (λ i, i < length (Insts y)) (InstList z b))) as ->.
      { rewrite list_filter_filter. apply list_filter_iff. intros i. lia. }
      apply sublist_filter_mono, Hi2.
    + intros v o Ho Hlt. apply Hu1; [|done]. apply Hu2; [done|lia].
Qed.

Lemma shrunk_deletion O E st st' : deletion O E st st' → shrunk st st'.
Proof.
  intros H. split_and!.
  - by rewrite (del_functions _ _ _ _ H).
  - intros F l l' H1 H2. rewrite (del_functions _ _ _ _ H) in H2. by simplify_eq.
  - by rewrite (del_length _ _ _ _ H).
  - intros b. rewrite (del_instlist _ _ _ _ H).
    etransitivity; apply sublist_filter.
  - intros v o Ho _. rewrite (del_uses _ _ _ _ H) in Ho.
    by apply list_elem_of_filter in Ho as [_ ?].
Qed.

Lemma shrunk_insert BB k args st : shrunk st (SILBuilder_insert BB k args st).2.
Proof.
  split_and!; simpl.
  - done.
  - intros F l l' H1 H2. by simplify_eq.
  - rewrite length_app. lia.
  - intros b. case_decide; [|apply sublist_filter].
    rewrite filter_app, filter_cons_False, filter_nil, app_nil_r by lia.
    apply sublist_filter.
  - intros v o [?|(k' & -> & _)]%elem_of_register_uses Hlt; [done|]. simpl in Hlt. lia.
Qed.

Lemma shrunk_same_graph st st' :
  Insts st' = Insts st → Uses st' = Uses st → InstList st' = InstList st →
  length (Functions st') = length (Functions st) →
  (∀ F blocks blocks', Functions st !! F = Some blocks →
     Functions st' !! F = Some blocks' → blocks' `sublist_of` blocks) →
  shrunk st st'.
Proof.
  intros Hi Hu Hl HF Hb. split_and!; [done|done|by rewrite Hi| |].
  - intros b. rewrite Hl. apply sublist_filter.
  - intros v o Ho _. by rewrite Hu in Ho.
Qed.

Lemma shrunk_set_blocks F blocks (Reachable : list nat) n st :
  Functions st !! F = Some blocks →
  shrunk st (set_blocks F (filter (λ BB, BB ∈ Reachable) blocks) n st).
Proof.
  intros HF. apply shrunk_same_graph; simpl; try done.
  - apply length_insert.
  - intros F' l l' H1 H2. destruct (decide (F' = F)) as [->|Hne].
    + rewrite list_lookup_insert_eq in H2 by (by apply lookup_lt_Some in HF).
      simplify_eq. apply sublist_filter.
    + rewrite list_lookup_insert_ne in H2 by done. by simplify_eq.
Qed.

(** ** No instruction is rewritten *)

Global Instance unrewritten_PreOrder : PreOrder unrewritten.
Proof.
  split.
  - intros st i ins Hi. exists ins. by split_and!.
  - intros x y z Hxy Hyz i ins Hi.
    destruct (Hxy i ins Hi) as (ins1 & Hi1 & Hk1 & Hs1 & Hl1 & Ho1).
    destruct (Hyz i ins1 Hi1) as (ins2 & Hi2 & Hk2 & Hs2 & Hl2 & Ho2).
    exists ins2. split_and!; [done|congruence..|]. intros k v Hv. by apply Ho1, Ho2.
Qed.

Lemma unrewritten_deletion O E st st' : deletion O E st st' → unrewritten st st'.
Proof.
  intros H i ins Hi.
  pose proof (del_kind _ _ _ _ H i) as Hk. pose proof (del_side _ _ _ _ H i) as Hs.
  pose proof (deletion_operands_length _ _ _ _ i H) as Hlen.
  pose proof (del_operands _ _ _ _ H i) as Hop.
  unfold getAllOperands in Hlen, Hop. rewrite Hi in Hk, Hs, Hlen, Hop.
  destruct (Insts st' !! i) as [ins'|]; [|done]. simpl in *. simplify_eq.
  exists ins'. split_and!; [done..|]. intros k v Hv. rewrite Hop in Hv.
  destruct (Operands ins !! k) as [o|]; [|done]. simpl in Hv. by case_decide; simplify_eq.
Qed.

Lemma unrewritten_insert BB k args st : unrewritten st (SILBuilder_insert BB k args st).2.
Proof.
  intros i ins Hi. exists ins. simpl. split_and!; [|done..].
  rewrite lookup_app_l; [done|]. by apply lookup_lt_Some in Hi.
Qed.

Lemma unrewritten_same_arena st st' : Insts st' = Insts st → unrewritten st st'.
Proof. intros Heq i ins Hi. exists ins. rewrite Heq. by split_and!. Qed.

(** ** No control-flow edge is added *)

Global Instance edges_within_PreOrder : PreOrder edges_within.
Proof.
  split.
  - intros st b Hb. done.
  - intros x y z Hxy Hyz b Hb. destruct (Hyz b Hb) as [Hy Hs2].
    destruct (Hxy b Hy) as [Hx Hs1]. split; [done|]. intros b' Hb'. by apply Hs1, Hs2.
Qed.

Section Edges.
Variable assertions : bool.
Variable order : DenseSetOrder.

Lemma constantFoldTerminator_edges BB st r st' :
  constantFoldTerminator assertions order BB st = Some (r, st') →
  ∀ b', b' ∈ block_successors st' BB → b' ∈ block_successors st BB.
Proof.
  intros Hf.
  destruct (constantFoldTerminator_inv _ _ _ _ _ _ Hf)
    as (TI & Hl & [(-> & -> & Hnf)|(-> & T & F' & n & c & v & dest & args &
                                     Hk & Hop & Hc & Hdest & _ & He)]); [done|].
  unfold createBranch in He.
  destruct (SILBuilder_insert_facts BB (BranchInst dest) args st)
    as (Hnew & Hold & HlBB & Hother & HF & _).
  set (BI := length (Insts st)) in *.
  set (st1 := (SILBuilder_insert BB (BranchInst dest) args st).2) in *.
  assert (TI < BI) as HTI by (by eapply getKind_lt).
  rewrite eraseAndCleanup_inst_eq in He.
  apply eraseAndCleanup_spec in He as (_ & E' & Hdel & Hd & _).
  assert (last (InstList st' BB) = Some BI) as Hl'.
  { eapply deletion_last; [exact Hdel|rewrite HlBB; apply last_snoc|].
    intros [Hin|Hin]%elem_of_app.
    - apply list_elem_of_singleton in Hin. lia.
    - pose proof (deletable_not_terminator st1 BI (BranchInst dest) (Hd _ Hin)) as Hnt.
      unfold getKind in Hnt. rewrite Hnew in Hnt. by specialize (Hnt eq_refl). }
  assert (getKind BI st' = Some (BranchInst dest)) as Hk'.
  { rewrite (deletion_getKind _ _ _ _ _ Hdel). unfold getKind. by rewrite Hnew. }
  intros b'. unfold block_successors. rewrite Hl', Hk', Hl, Hk. simpl.
  intros ->%list_elem_of_singleton. done.
Qed.

Lemma simplifyBlocks_edges BB st r st' :
  simplifyBlocksWithCallsToNoReturn assertions order BB st = Some (r, st') →
  ∀ b', b' ∈ block_successors st' BB → b' ∈ block_successors st BB.
Proof.
  intros Hs.
  destruct (simplifyBlocks_inv _ _ _ _ _ _ Hs)
    as [(_ & -> & _)|(-> & pre & call & tail & Hl & Hpre & Hcall)]; [done|].
  destruct (simplifyBlocks_no_return assertions order BB st pre call tail _ _
              Hl Hpre Hcall Hs) as (E' & st1 & _ & -> & Hdel & Hd).
  unfold createUnreachable.
  destruct (SILBuilder_insert_facts BB UnreachableInst [] st1)
    as (Hnew & Hold & HlBB & _).
  intros b'. unfold block_successors, getKind. rewrite HlBB, last_snoc, Hnew. simpl.
  by intros ?%not_elem_of_nil.
Qed.

Lemma simplify_block_edges BB st r st' :
  simplify_block assertions order BB st = Some (r, st') →
  ∀ b', b' ∈ block_successors st' BB → b' ∈ block_successors st BB.
Proof.
  unfold simplify_block, bind. intros Hs.
  destruct (constantFoldTerminator assertions order BB st) as [[folded s]|] eqn:Hf; [|done].
  pose proof (constantFoldTerminator_edges _ _ _ _ Hf) as H1.
  destruct folded.
  - unfold ret in Hs. by simplify_eq.
  - destruct (simplifyBlocksWithCallsToNoReturn assertions order BB s) as [[r1 s1]|] eqn:Ht;
      [|done].
    unfold ret in Hs. simplify_eq.
    intros b' Hb'. by apply H1, (simplifyBlocks_edges _ _ _ _ Ht).
Qed.

Lemma edges_within_evolves X st st' :
  well_formed st → evolves X st st' →
  (∀ b, b ∈ concat (Functions st') → b ∈ concat (Functions st)) →
  (∀ b b', b ∈ concat (Functions st') → b ∈ X →
           b' ∈ block_successors st' b → b' ∈ block_successors st b) →
  edges_within st st'.
Proof.
  intros Hwf Hev Hsub HX b Hb. split; [by apply Hsub|]. intros b' Hb'.
  destruct (decide (b ∈ X)) as [HbX|HbX]; [by eapply HX|].
  rewrite (evolves_successors _ _ _ _ Hev HbX) in Hb'; [done|].
  apply (wf_terminated _ _ Hwf); [by apply Hsub|apply not_elem_of_nil].
Qed.

Lemma simplify_blocks_edges Q (bl : list nat) st r st' :
  well_formed st → bl ∈ Functions st → (∀ b, b ∈ Q → b ∈ bl) →
  for_each Q (simplify_block assertions order) st = Some (r, st') →
  edges_within st st'.
Proof.
  revert st. induction Q as [|BB Q IH]; intros st Hwf Hbl Hsub Hf; simpl in Hf.
  - unfold ret in Hf. by simplify_eq.
  - unfold bind in Hf.
    destruct (simplify_block assertions order BB st) as [[[] s]|] eqn:Hs; [|done].
    assert (BB ∈ bl) as HBB by (apply Hsub; left).
    destruct (simplify_block_effect _ _ _ _ _ _ _ Hwf Hbl HBB Hs)
      as (Hwf1 & Hev1 & HF1 & _).
    transitivity s.
    + apply (edges_within_evolves [BB]); [done..|by rewrite HF1|].
      intros b b' _ ->%list_elem_of_singleton. by apply (simplify_block_edges _ _ _ _ Hs).
    + apply IH; [done|by rewrite HF1| |done]. intros b Hb. apply Hsub. by right.
Qed.

Lemma run_on_function_edges st F r st' :
  well_formed st → run_on_function assertions order F st = Some (r, st') →
  edges_within st st'.
Proof.
  intros Hwf. unfold run_on_function, bind. intros Hrun.
  destruct (for_each _ _ st) as [[[] s]|] eqn:Hf; [|done].
  destruct (removeUnreachableBlocks assertions order F s) as [[r1 s1]|] eqn:Hr; [|done].
  unfold ret in Hrun. simplify_eq.
  destruct (Functions st !! F) as [bl|] eqn:HF; simpl in Hf.
  2:{ unfold ret in Hf. simplify_eq.
      apply removeUnreachableBlocks_inv in Hr
        as [(_ & -> & _)|(? & ? & ? & HF' & _)]; [done|congruence]. }
  assert (bl ∈ Functions st) as Hbl by (by eapply list_elem_of_lookup_2).
  assert (NoDup bl) as Hndbl.
  { by eapply NoDup_concat_lookup, HF; apply (wf_nodup _ _ Hwf). }
  destruct (simplify_blocks_effect assertions order bl bl st _ _ Hwf Hbl (λ b Hb, Hb)
              Hndbl Hf) as (Hwf1 & HF1 & _ & _).
  transitivity s; [by eapply (simplify_blocks_edges bl bl)|].
  assert (Functions s !! F = Some bl) as HFs by (by rewrite HF1).
  destruct (removeUnreachableBlocks_effect _ _ _ _ _ _ _ Hwf1 HFs Hr)
    as (live & dead & Hwf2 & HF2 & Hlive & Hdead & Hev2 & _).
  assert (∀ b, b ∈ concat (Functions st') → b ∈ concat (Functions s) ∧ b ∉ dead) as Hin.
  { intros b (l & Hl & Hb)%elem_of_concat. rewrite HF2 in Hl.
    apply elem_of_insert_inv in Hl as [->|(F' & Hne & HF')].
    - destruct (Hlive b Hb) as [Hb1 Hb2]. split; [|done].
      by eapply concat_lookup_elem_of.
    - split; [by eapply concat_lookup_elem_of|]. intros Hd. apply Hne.
      by eapply (NoDup_concat_disjoint _ _ _ _ _ b (wf_nodup _ _ Hwf1) HF' HFs); [|apply Hdead]. }
  apply (edges_within_evolves dead); [done..| |].
  - intros b Hb. by destruct (Hin b Hb).
  - intros b b' Hb Hd. by destruct (Hin b Hb).
Qed.

Lemma run_functions_edges l st r st' :
  well_formed st →
  for_each l (run_on_function assertions order) st = Some (r, st') →
  edges_within st st'.
Proof.
  revert st. induction l as [|F l IH]; intros st Hwf Hf; simpl in Hf.
  - unfold ret in Hf. by simplify_eq.
  - unfold bind in Hf.
    destruct (run_on_function assertions order F st) as [[[] s]|] eqn:Hs; [|done].
    transitivity s; [by eapply run_on_function_edges|].
    apply IH; [|done]. by destruct (run_on_function_effect _ _ _ _ _ _ Hwf Hs).
Qed.

End Edges.

(** ** What stays in the blocks that stay *)

Lemma shrunk_old_instruction st st' b i :
  shrunk st st' → i ∈ InstList st' b → is_Some (Insts st !! i) → i ∈ InstList st b.
Proof.
  intros (_ & _ & _ & Hsub & _) Hi Halloc.
  eapply sublist_subseteq; [apply (Hsub b)|].
  apply list_elem_of_filter. split; [|done]. by apply lookup_lt_is_Some.
Qed.

Lemma unrewritten_getKind st st' i k :
  unrewritten st st' → getKind i st = Some k → getKind i st' = Some k.
Proof.
  intros Hu Hk. unfold getKind in *.
  destruct (Insts st !! i) as [ins|] eqn:Hi; [|done].
  destruct (Hu i ins Hi) as (ins' & -> & Hk' & _). simpl in *. congruence.
Qed.

Lemma unrewritten_deletable st st' i :
  unrewritten st st' → is_Some (Insts st !! i) → deletable st' i → deletable st i.
Proof.
  intros Hu [ins Hi] (ins' & Hi' & Ht & Hs).
  destruct (Hu i ins Hi) as (ins'' & Hi'' & Hk & Hse & _). simplify_eq.
  exists ins. split_and!; [done|congruence..].
Qed.

Lemma removable_back st st' b i :
  (∀ i k, getKind i st' = Some k → getKind i st = Some k ∨ isa_TermInst k = true) →
  unrewritten st st' → shrunk st st' → is_Some (Insts st !! i) →
  removable st' b i → removable st b i.
Proof.
  intros Hnew Hu Hsh Halloc [Hd|[(k & Hk & Ht)|(call & Hc & ty & Hty & Hnr)]].
  - left. by eapply unrewritten_deletable.
  - right. left. exists k. split; [|done].
    destruct Halloc as [ins Hi]. destruct (Hu i ins Hi) as (ins' & Hi' & Hk' & _).
    unfold getKind in *. rewrite Hi' in Hk. rewrite Hi. simpl in *. congruence.
  - right. right. destruct (Hnew _ _ Hty) as [Hold|?]; [|done]. exists call. split.
    + eapply shrunk_old_instruction; [done..|].
      unfold getKind in Hold. by destruct (Insts st !! call).
    + by exists ty.
Qed.

Global Instance spared_PreOrder : PreOrder spared.
Proof.
  split.
  - intros st. split_and!; [done|by left|reflexivity|reflexivity|]. by left.
  - intros x y z (M1 & N1 & U1 & S1 & K1) (M2 & N2 & U2 & S2 & K2). split_and!.
    + auto.
    + intros i k Hk. destruct (N2 i k Hk) as [?|?]; auto.
    + by transitivity y.
    + by transitivity y.
    + intros b i Hb Hi Halloc.
      destruct (K1 b i (M2 b Hb) Hi Halloc) as [Hy|?]; [|by right].
      assert (is_Some (Insts y !! i)) as Halloc'.
      { destruct Halloc as [ins Hins]. destruct (U1 i ins Hins) as (ins' & ? & _). by eexists. }
      destruct (K2 b i Hb Hy Halloc') as [?|Hr]; [by left|].
      right. by eapply removable_back.
Qed.

Section Spared.
Variable assertions : bool.
Variable order : DenseSetOrder.

Lemma shrunk_simplify_block BB st r st' :
  simplify_block assertions order BB st = Some (r, st') → shrunk st st'.
Proof.
  apply (R_simplify_block shrunk).
  - intros E s s'. apply shrunk_deletion.
  - apply shrunk_insert.
  - intros s. apply shrunk_same_graph; [done..|].
    intros F l l' H1 H2. simpl in H2. by simplify_eq.
Qed.

Lemma unrewritten_simplify_block BB st r st' :
  simplify_block assertions order BB st = Some (r, st') → unrewritten st st'.
Proof.
  apply (R_simplify_block unrewritten).
  - intros E s s'. apply unrewritten_deletion.
  - apply unrewritten_insert.
  - intros s. by apply unrewritten_same_arena.
Qed.

Lemma shrunk_removeUnreachableBlocks F st r st' :
  removeUnreachableBlocks assertions order F st = Some (r, st') → shrunk st st'.
Proof.
  apply (R_removeUnreachableBlocks shrunk).
  - intros E s s'. apply shrunk_deletion.
  - intros F' blocks Reachable s HF. by apply shrunk_set_blocks.
Qed.

Lemma unrewritten_removeUnreachableBlocks F st r st' :
  removeUnreachableBlocks assertions order F st = Some (r, st') → unrewritten st st'.
Proof.
  apply (R_removeUnreachableBlocks unrewritten).
  - intros E s s'. apply unrewritten_deletion.
  - intros F' blocks Reachable s _. by apply unrewritten_same_arena.
Qed.

Lemma constantFoldTerminator_keeps BB st r st' b i :
  constantFoldTerminator assertions order BB st = Some (r, st') →
  i ∈ InstList st b → is_Some (Insts st !! i) →
  i ∈ InstList st' b ∨ removable st b i.
Proof.
  intros Hf Hi Halloc.
  destruct (constantFoldTerminator_inv _ _ _ _ _ _ Hf)
    as (TI & Hl & [(-> & -> & Hnf)|(-> & T & F' & n & c & v & dest & args &
                                     Hk & Hop & Hc & Hdest & _ & He)]); [by left|].
  unfold createBranch in He.
  destruct (SILBuilder_insert_facts BB (BranchInst dest) args st)
    as (Hnew & Hold & HlBB & Hother & HF & _).
  set (st1 := (SILBuilder_insert BB (BranchInst dest) args st).2) in *.
  rewrite eraseAndCleanup_inst_eq in He.
  apply eraseAndCleanup_spec in He as (_ & E' & Hdel & Hd & _).
  assert (i ∈ InstList st1 b) as Hi1.
  { destruct (decide (b = BB)) as [->|Hne].
    - rewrite HlBB. apply elem_of_app. by left.
    - by rewrite Hother. }
  destruct (decide (i ∈ [TI] ++ E')) as [HiE|HiE].
  - right. apply elem_of_app in HiE as [->%list_elem_of_singleton|HiE].
    + right. left. by eexists.
    + left. destruct (Hd i HiE) as (ins & Hins & ? & ?). exists ins. split_and!; [|done..].
      rewrite <-Hold; [done|]. by apply lookup_lt_is_Some.
  - left. rewrite (del_instlist _ _ _ _ Hdel). by apply list_elem_of_filter.
Qed.

Lemma simplifyBlocks_keeps BB st r st' b i :
  well_formed st →
  simplifyBlocksWithCallsToNoReturn assertions order BB st = Some (r, st') →
  i ∈ InstList st b → i ∈ InstList st' b ∨ removable st b i.
Proof.
  intros Hwf Hs Hi.
  destruct (simplifyBlocks_inv _ _ _ _ _ _ Hs)
    as [(_ & -> & _)|(-> & pre & call & tail & Hl & Hpre & Hcall)]; [by left|].
  destruct (simplifyBlocks_no_return assertions order BB st pre call tail _ _
              Hl Hpre Hcall Hs) as (E' & st1 & _ & -> & Hdel & Hd).
  clear Hs.
  destruct (count_removed_iter_deletion (length tail) st) as (_ & _ & Hil & _).
  unfold createUnreachable.
  destruct (SILBuilder_insert_facts BB UnreachableInst [] st1)
    as (_ & _ & HlBB & Hother & _).
  destruct (decide (i ∈ tail ++ E')) as [HiE|HiE].
  - right. apply elem_of_app in HiE as [Hit|HiE]; [|left; by apply Hd].
    right. right. exists call.
    assert (b = BB) as ->.
    { apply (wf_disjoint _ _ Hwf b BB i); [done|]. rewrite Hl.
      apply elem_of_app. right. by right. }
    split; [|done]. rewrite Hl. apply elem_of_app. right. left.
  - left. assert (i ∈ InstList st1 b) as Hi1.
    { rewrite (del_instlist _ _ _ _ Hdel), Hil. by apply list_elem_of_filter. }
    destruct (decide (b = BB)) as [->|Hne].
    + rewrite HlBB. apply elem_of_app. by left.
    + by rewrite Hother.
Qed.

Lemma spared_simplify_block st BB blocks r st' :
  well_formed st → blocks ∈ Functions st → BB ∈ blocks →
  simplify_block assertions order BB st = Some (r, st') → spared st st'.
Proof.
  intros Hwf Hbl HBB Hs.
  destruct (simplify_block_effect _ _ _ _ _ _ _ Hwf Hbl HBB Hs) as (_ & Hev & HF & _).
  pose proof (shrunk_simplify_block _ _ _ _ Hs) as Hsh.
  pose proof (unrewritten_simplify_block _ _ _ _ Hs) as Hun.
  split_and!; [by rewrite HF|by destruct Hev as (_ & ? & _)|done..|].
  intros b i _ Hi Halloc. revert Hs. unfold simplify_block, bind. intros Hs.
  destruct (constantFoldTerminator assertions order BB st) as [[folded s]|] eqn:Hf; [|done].
  destruct (constantFoldTerminator_effect _ _ _ _ _ _ _ Hwf Hbl HBB Hf)
    as (Hwf1 & Hev1 & _ & _).
  destruct (constantFoldTerminator_keeps _ _ _ _ b i Hf Hi Halloc) as [Hi1|?]; [|by right].
  destruct folded.
  - unfold ret in Hs. simplify_eq. by left.
  - destruct (simplifyBlocksWithCallsToNoReturn assertions order BB s) as [[r1 s1]|] eqn:Ht;
      [|done].
    unfold ret in Hs. simplify_eq.
    destruct (simplifyBlocks_keeps _ _ _ _ b i Hwf1 Ht Hi1) as [?|Hr]; [by left|].
    right. eapply (removable_back st s); [by destruct Hev1 as (_ & ? & _)| | |done|done].
    + eapply (R_constantFoldTerminator unrewritten); [| |exact Hf].
      * intros E x y. apply unrewritten_deletion.
      * apply unrewritten_insert.
    + eapply (R_constantFoldTerminator shrunk); [| |exact Hf].
      * intros E x y. apply shrunk_deletion.
      * apply shrunk_insert.
Qed.

Lemma spared_simplify_blocks Q (bl : list nat) st r st' :
  well_formed st → bl ∈ Functions st → (∀ b, b ∈ Q → b ∈ bl) →
  for_each Q (simplify_block assertions order) st = Some (r, st') →
  spared st st'.
Proof.
  revert st. induction Q as [|BB Q IH]; intros st Hwf Hbl Hsub Hf; simpl in Hf.
  - unfold ret in Hf. by simplify_eq.
  - unfold bind in Hf.
    destruct (simplify_block assertions order BB st) as [[[] s]|] eqn:Hs; [|done].
    assert (BB ∈ bl) as HBB by (apply Hsub; left).
    destruct (simplify_block_effect _ _ _ _ _ _ _ Hwf Hbl HBB Hs)
      as (Hwf1 & _ & HF1 & _).
    transitivity s; [by eapply spared_simplify_block|].
    apply IH; [done|by rewrite HF1| |done]. intros b Hb. apply Hsub. by right.
Qed.

Lemma spared_removeUnreachableBlocks st F blocks r st' :
  well_formed st → Functions st !! F = Some blocks →
  removeUnreachableBlocks assertions order F st = Some (r, st') → spared st st'.
Proof.
  intros Hwf HF Hr.
  destruct (removeUnreachableBlocks_effect _ _ _ _ _ _ _ Hwf HF Hr)
    as (live & dead & Hwf' & HFs & Hlive & Hdead & Hev & _).
  assert (∀ b, b ∈ concat (Functions st') → b ∈ concat (Functions st) ∧
               (b ∈ blocks → b ∈ live)) as Hin.
  { intros b (l & Hl & Hb)%elem_of_concat. rewrite HFs in Hl.
    apply elem_of_insert_inv in Hl as [->|(F' & Hne & HF')].
    - split; [|done]. destruct (Hlive b Hb) as [Hb1 _]. by eapply concat_lookup_elem_of.
    - split; [by eapply concat_lookup_elem_of|]. intros Hbb. destruct Hne.
      by eapply (NoDup_concat_disjoint _ _ _ _ _ b (wf_nodup _ _ Hwf) HF' HF). }
  split_and!.
  - intros b Hb. by destruct (Hin b Hb).
  - by destruct Hev as (_ & ? & _).
  - by eapply unrewritten_removeUnreachableBlocks.
  - by eapply shrunk_removeUnreachableBlocks.
  - intros b i Hb Hi Halloc.
    destruct (removeUnreachableBlocks_inv _ _ _ _ _ _ Hr)
      as [(_ & -> & _)|(front & rest & Reachable & HF' & _ &
            [(_ & -> & _)|(_ & _ & E & st2 & Hdel & -> & _ & Hout)])]; [by left..|].
    rewrite HF in HF'. simplify_eq.
    destruct (decide (i ∈ E)) as [HiE|HiE].
    + right. destruct (Hout i HiE) as [?|(b2 & Hb2 & Hb2R & Hi2)]; [by left|].
      exfalso. assert (b = b2) as -> by (by eapply (wf_disjoint _ _ Hwf)).
      destruct (Hin b2 Hb) as [_ Hl]. specialize (Hl Hb2).
      assert (Functions (set_blocks F (filter (λ BB, BB ∈ Reachable) (front :: rest))
                (length (filter (λ BB, BB ∉ Reachable) (front :: rest))) st2) !! F
              = Some live) as Hlook.
      { rewrite HFs. apply list_lookup_insert_eq. by apply lookup_lt_Some in HF. }
      simpl in Hlook. rewrite list_lookup_insert_eq in Hlook.
      2:{ rewrite (del_functions _ _ _ _ Hdel). by apply lookup_lt_Some in HF. }
      simplify_eq. by apply list_elem_of_filter in Hl as [? _].
    + left. simpl. rewrite (del_instlist _ _ _ _ Hdel). by apply list_elem_of_filter.
Qed.

Lemma spared_run_on_function st F r st' :
  well_formed st → run_on_function assertions order F st = Some (r, st') →
  spared st st'.
Proof.
  intros Hwf. unfold run_on_function, bind. intros Hrun.
  destruct (for_each _ _ st) as [[[] s]|] eqn:Hf; [|done].
  destruct (removeUnreachableBlocks assertions order F s) as [[r1 s1]|] eqn:Hr; [|done].
  unfold ret in Hrun. simplify_eq.
  destruct (Functions st !! F) as [bl|] eqn:HF; simpl in Hf.
  2:{ unfold ret in Hf. simplify_eq.
      apply removeUnreachableBlocks_inv in Hr
        as [(_ & -> & _)|(? & ? & ? & HF' & _)]; [done|congruence]. }
  assert (bl ∈ Functions st) as Hbl by (by eapply list_elem_of_lookup_2).
  assert (NoDup bl) as Hndbl.
  { by eapply NoDup_concat_lookup, HF; apply (wf_nodup _ _ Hwf). }
  destruct (simplify_blocks_effect assertions order bl bl st _ _ Hwf Hbl (λ b Hb, Hb)
              Hndbl Hf) as (Hwf1 & HF1 & _ & _).
  transitivity s; [by eapply (spared_simplify_blocks bl bl)|].
  eapply spared_removeUnreachableBlocks; [done| |done]. by rewrite HF1.
Qed.

Lemma spared_run_functions l st r st' :
  well_formed st →
  for_each l (run_on_function assertions order) st = Some (r, st') →
  spared st st'.
Proof.
  revert st. induction l as [|F l IH]; intros st Hwf Hf; simpl in Hf.
  - unfold ret in Hf. by simplify_eq.
  - unfold bind in Hf.
    destruct (run_on_function assertions order F st) as [[[] s]|] eqn:Hs; [|done].
    transitivity s; [by eapply spared_run_on_function|].
    apply IH; [|done]. by destruct (run_on_function_effect _ _ _ _ _ _ Hwf Hs).
Qed.

End Spared.

Lemma constant_branch_operations :
  rtc (pass_operation true insertion_order) constant_branch folded_branch.
Proof. apply rtc_once, op_run. vm_compute. reflexivity. Qed.

(** X14: the pass only ever removes.  Across every operation of the pass
    and every sequence of them, the functions stay as many, the blocks of
    a function and the instructions of a block are never reordered and
    never moved elsewhere (what is left is a subsequence of what was
    there, the terminators created since apart), and no use-list gains a
    use by an instruction that existed before. *)
Theorem pass_only_removes (assertions : bool) (order : DenseSetOrder)
    (st st' : SILModule) :
  rtc (pass_operation assertions order) st st' → shrunk st st'.
Proof.
  apply (R_pass_operations shrunk) with (assertions := assertions) (order := order).
  - intros E s s'. apply shrunk_deletion.
  - apply shrunk_insert.
  - intros s. apply shrunk_same_graph; [done..|].
    intros F l l' H1 H2. simpl in H2. by simplify_eq.
  - intros F blocks Reachable s HF. by apply shrunk_set_blocks.
Qed.

Lemma pass_only_removes_witness :
  rtc (pass_operation true insertion_order) constant_branch folded_branch ∧
  shrunk constant_branch folded_branch.
Proof.
  split; [apply constant_branch_operations|].
  exact (pass_only_removes true insertion_order constant_branch folded_branch
           constant_branch_operations).
Defined.

(** X15: the pass rewrites no instruction.  Across every operation of the
    pass and every sequence of them, an instruction keeps its class, its
    side-effect flag and the number of its operands, and each operand
    either reads the value it read before or has been nulled: no operand
    is ever redirected to another value. *)
Theorem pass_rewrites_no_instruction (assertions : bool) (order : DenseSetOrder)
    (st st' : SILModule) :
  rtc (pass_operation assertions order) st st' → unrewritten st st'.
Proof.
  apply (R_pass_operations unrewritten) with (assertions := assertions) (order := order).
  - intros E s s'. apply unrewritten_deletion.
  - apply unrewritten_insert.
  - intros s. by apply unrewritten_same_arena.
  - intros F blocks Reachable s _. by apply unrewritten_same_arena.
Qed.

Lemma pass_rewrites_no_instruction_witness :
  rtc (pass_operation true insertion_order) constant_branch folded_branch ∧
  unrewritten constant_branch folded_branch.
Proof.
  split; [apply constant_branch_operations|].
  exact (pass_rewrites_no_instruction true insertion_order constant_branch folded_branch
           constant_branch_operations).
Defined.

Lemma head_and_tail_run :
  simplifyBlocksWithCallsToNoReturn true insertion_order 0 head_and_tail
  = Some (true, head_and_tail_after).
Proof. vm_compute. reflexivity. Qed.

(** X17: the truncation leaves the head of the block in place.  What
    the block holds afterwards is a subsequence of the instructions up to
    and including the first call to a no-return function, followed by one
    new instruction, an [unreachable]; an instruction of the head goes
    only if it has no side effects and is no terminator, so the call
    itself stays when it has side effects. *)
Theorem truncation_keeps_the_head (assertions : bool) (order : DenseSetOrder)
    (st : SILModule) (BB : nat) (pre : list nat) (call : nat) (tail : list nat)
    (r : bool) (st' : SILModule) :
  InstList st BB = pre ++ call :: tail → NoDup (InstList st BB) →
  (∀ i, i ∈ pre → passes_by assertions st i) → no_return_call st call →
  simplifyBlocksWithCallsToNoReturn assertions order BB st = Some (r, st') →
  ∃ kept U,
    InstList st' BB = kept ++ [U] ∧
    Insts st !! U = None ∧ getKind U st' = Some UnreachableInst ∧
    kept `sublist_of` pre ++ [call] ∧
    ∀ i, i ∈ pre ++ [call] → ¬ deletable st i → i ∈ kept.
Proof.
  intros Hl Hnd Hpre Hcall Hs.
  destruct (simplifyBlocks_no_return assertions order BB st pre call tail _ _
              Hl Hpre Hcall Hs) as (E' & st1 & _ & -> & Hdel & HE').
  destruct (count_removed_iter_deletion (length tail) st) as (Hi & _ & Hil & _).
  assert (length (Insts st1) = length (Insts st)) as Hlen.
  { by rewrite (del_length _ _ _ _ Hdel), Hi. }
  destruct (SILBuilder_insert_facts BB UnreachableInst [] st1) as (HU & _).
  exists (filter (λ i, i ∉ tail ++ E') (pre ++ [call])), (length (Insts st1)).
  split_and!.
  - simpl. rewrite decide_True by done. f_equal.
    rewrite (del_instlist _ _ _ _ Hdel), Hil, Hl.
    change (call :: tail) with ([call] ++ tail). rewrite app_assoc, filter_app.
    rewrite (filter_none _ tail), app_nil_r; [done|].
    intros x Hx Hn. apply Hn, elem_of_app. by left.
  - apply lookup_ge_None_2. lia.
  - unfold getKind, createUnreachable. by rewrite HU.
  - apply sublist_filter.
  - intros i Hi' Hnd'. apply list_elem_of_filter. split; [|done].
    intros [Hit|HiE]%elem_of_app; [|by apply Hnd', HE'].
    rewrite Hl in Hnd. change (call :: tail) with ([call] ++ tail) in Hnd.
    rewrite app_assoc in Hnd. apply NoDup_app in Hnd as (_ & Hdisj & _).
    by apply (Hdisj i).
Qed.

Lemma truncation_keeps_the_head_witness :
  InstList head_and_tail 0 = [0; 1] ++ 2 :: [3; 4] ∧
  InstList head_and_tail_after 0 = [0; 2; 6] ∧
  ∃ kept U,
    InstList head_and_tail_after 0 = kept ++ [U] ∧
    Insts head_and_tail !! U = None ∧
    getKind U head_and_tail_after = Some UnreachableInst ∧
    kept `sublist_of` [0; 1] ++ [2] ∧
    ∀ i, i ∈ [0; 1] ++ [2] → ¬ deletable head_and_tail i → i ∈ kept.
Proof.
  split; [reflexivity|]. split; [vm_compute; reflexivity|].
  apply (truncation_keeps_the_head true insertion_order head_and_tail 0 [0; 1] 2 [3; 4]
           true head_and_tail_after).
  - reflexivity.
  - simpl. repeat (apply NoDup_cons; split; [set_solver|]). apply NoDup_nil_2.
  - intros i Hi ty Hk. exfalso.
    repeat (apply elem_of_cons in Hi as [->|Hi]); try (vm_compute in Hk; discriminate).
    by apply not_elem_of_nil in Hi.
  - exists (FunctionType true). split; reflexivity.
  - apply head_and_tail_run.
Defined.

(** X18: a run of the pass adds no block and no control-flow edge.  On a
    well-formed module, every block of the result was a block of the
    module and each of its successors was one of its successors before;
    so a block that can be reached from the entry block of its function
    afterwards could be reached from it before. *)
Theorem performSILDeadCodeElimination_adds_no_edge (assertions : bool)
    (order : DenseSetOrder) (st st' : SILModule) :
  well_formed st →
  performSILDeadCodeElimination assertions order st = Some (tt, st') →
  edges_within st st' ∧
  ∀ F front rest b, Functions st' !! F = Some (front :: rest) →
                    reachable st' front b → reachable st front b.
Proof.
  intros Hwf Hrun.
  assert (edges_within st st') as He.
  { unfold performSILDeadCodeElimination in Hrun. by eapply run_functions_edges. }
  split; [done|]. intros F front rest b HF.
  destruct (performSILDeadCodeElimination_effect _ _ _ _ _ Hwf Hrun) as [Hwf' _].
  assert (front :: rest ∈ Functions st') as Hbl by (by eapply list_elem_of_lookup_2).
  assert (∀ c, reachable st' front c → reachable st front c ∧ c ∈ front :: rest) as Hboth.
  { unfold reachable. apply rtc_ind_r; [split; [apply rtc_refl|left]|].
    intros y z _ Hyz [IH Hy]. split.
    - eapply rtc_r; [exact IH|]. apply (He y); [|done].
      apply elem_of_concat. by exists (front :: rest).
    - apply (wf_successors _ _ Hwf' (front :: rest) y z); [done..|apply not_elem_of_nil|done]. }
  intros Hr. by destruct (Hboth b Hr).
Qed.

Lemma performSILDeadCodeElimination_adds_no_edge_witness :
  well_formed constant_branch ∧
  performSILDeadCodeElimination true insertion_order constant_branch
    = Some (tt, folded_branch) ∧
  edges_within constant_branch folded_branch.
Proof.
  split; [apply well_formed_constant_branch|]. split; [apply constant_branch_pass|].
  by destruct (performSILDeadCodeElimination_adds_no_edge true insertion_order
                 constant_branch folded_branch
                 well_formed_constant_branch constant_branch_pass).
Defined.

Lemma well_formed_guarded_store : well_formed guarded_store.
Proof.
  apply graph_well_formed.
  - simpl. repeat (apply NoDup_cons; split; [set_solver|]). apply NoDup_nil_2.
  - simpl. repeat (apply NoDup_cons; split; [set_solver|]). apply NoDup_nil_2.
  - simpl. intros i Hi. repeat (apply elem_of_cons in Hi as [->|Hi]); try lia.
    by apply not_elem_of_nil in Hi.
  - simpl. intros b Hb. repeat (apply elem_of_cons in Hb as [->|Hb]).
    + exists 2, (CondBranchInst 1 2 0). by split_and!.
    + exists 3, (OtherTermInst []). by split_and!.
    + exists 4, (OtherTermInst []). by split_and!.
    + by apply not_elem_of_nil in Hb.
  - intros bl b b' Hbl Hb Hs. apply list_elem_of_singleton in Hbl. subst bl.
    repeat (apply elem_of_cons in Hb as [->|Hb]).
    + vm_compute in Hs. set_solver.
    + vm_compute in Hs. set_solver.
    + vm_compute in Hs. set_solver.
    + by apply not_elem_of_nil in Hb.
Qed.

Lemma guarded_store_pass :
  performSILDeadCodeElimination true insertion_order guarded_store
  = Some (tt, guarded_store_after).
Proof. vm_compute. reflexivity. Qed.

(** X19: a run of the pass leaves live code alone.  In a block that is
    still in the module after a run on a well-formed module, an
    instruction that has side effects and is no terminator is still in
    its place, unless its block held a call to a no-return function. *)
Theorem performSILDeadCodeElimination_spares_effects (assertions : bool)
    (order : DenseSetOrder) (st st' : SILModule) (b i : nat) (ins : SILInstruction) :
  well_formed st →
  performSILDeadCodeElimination assertions order st = Some (tt, st') →
  b ∈ concat (Functions st') → i ∈ InstList st b →
  Insts st !! i = Some ins → SideEffects ins = true → isa_TermInst (Kind ins) = false →
  (∀ c, c ∈ InstList st b → ¬ no_return_call st c) →
  i ∈ InstList st' b.
Proof.
  intros Hwf Hrun Hb Hi Hins Hse Hnt Hcalls.
  unfold performSILDeadCodeElimination in Hrun.
  destruct (spared_run_functions _ _ _ _ _ _ Hwf Hrun) as (_ & _ & _ & _ & Hkeep).
  destruct (Hkeep b i Hb Hi) as [?|[Hd|[(k & Hk & Ht)|(c & Hc & Hnr)]]].
  - by eexists.
  - done.
  - destruct Hd as (ins' & ? & _ & ?). simplify_eq. congruence.
  - unfold getKind in Hk. rewrite Hins in Hk. simpl in Hk. simplify_eq. congruence.
  - by destruct (Hcalls c Hc).
Qed.

Lemma performSILDeadCodeElimination_spares_effects_witness :
  well_formed guarded_store ∧
  performSILDeadCodeElimination true insertion_order guarded_store
    = Some (tt, guarded_store_after) ∧
  1 ∈ InstList guarded_store 0 ∧ 1 ∈ InstList guarded_store_after 0.
Proof.
  assert (1 ∈ InstList guarded_store 0) as Hi by (vm_compute; set_solver).
  split; [apply well_formed_guarded_store|]. split; [apply guarded_store_pass|].
  split; [exact Hi|].
  apply (performSILDeadCodeElimination_spares_effects true insertion_order guarded_store
           guarded_store_after 0 1 (mkInst OtherInst true [])).
  - apply well_formed_guarded_store.
  - apply guarded_store_pass.
  - vm_compute. set_solver.
  - exact Hi.
  - reflexivity.
  - reflexivity.
  - reflexivity.
  - intros c Hc (ty & Hk & _). vm_compute in Hc.
    repeat (apply elem_of_cons in Hc as [->|Hc]); try (vm_compute in Hk; discriminate).
    by apply not_elem_of_nil in Hc.
Defined.
